(** * A countdown-timer utility: [timer/main.go]

    A shallow embedding of the command-line timer and the properties of
    its duration parser, command dispatcher, task queue, tick loop,
    history log and main scheduling loop.

    Conventions of the embedding.
    - A Go [string] is a [string] of bytes.  [strings.Fields] splits at
      the white space of Unicode, read through the UTF-8 decoder, and
      [strings.ToLower] lowers the runes; of the case table of Unicode
      only the entries that lead into ASCII are kept (see
      [unicode.ToLower]).
    - [int] is 64 bits wide ([strconv.IntSize = 64]); [time.Duration] is
      an [int64] count of nanoseconds.  Both are integers of [Z] with the
      wrap-around of the machine operations written out.
    - Instants of the clock are integers of [Z] (nanoseconds).
    - Calls into the operating system (opening and writing the history
      file, the clock, the lines arriving on standard input, the ticks of
      the ticker) are inputs of the functions that use them.
    - The two goroutines of [main] (the main loop and the timer) are a
      transition system whose moves interleave; the goroutine that reads
      standard input is the source of the [EvCmd] and [EvClosed] events.
      Time is the order of the events.
    - What is printed is kept as data ([Feedback], [Notice]); the text
      is given for the timer ([render]) and for the history
      ([showHistory]). *)

From Stdlib Require Import ZArith List Bool Ascii String Lia.
Import ListNotations.

Local Open Scope string_scope.
Local Open Scope Z_scope.

(** ** Machine integers *)

Module Int64.

Definition modulus : Z := 2 ^ 64.
Definition max_signed : Z := 2 ^ 63 - 1.
Definition min_signed : Z := - 2 ^ 63.
Definition maxUint64 : Z := 2 ^ 64 - 1.

(** The value of a 64-bit pattern read as unsigned ([uint64(x)]). *)
Definition unsigned (x : Z) : Z := x mod modulus.

(** The value of a 64-bit pattern read as signed ([int64(x)]). *)
Definition wrap (x : Z) : Z :=
  let u := x mod modulus in
  if u <=? max_signed then u else u - modulus.

Definition add (x y : Z) : Z := wrap (x + y).
Definition sub (x y : Z) : Z := wrap (x - y).
Definition mul (x y : Z) : Z := wrap (x * y).
Definition neg (x : Z) : Z := wrap (- x).

Definition in_range (x : Z) : Prop := min_signed <= x <= max_signed.

End Int64.

(** ** Package [strings] *)

Definition byte_of (c : ascii) : Z := Z.of_N (N_of_ascii c).
Definition char_of (b : Z) : ascii := ascii_of_N (Z.to_N b).

(** [utf8.RuneSelf]: bytes below it are runes of their own. *)
Definition isASCII_byte (c : ascii) : bool := byte_of c <? 128.

(** The loop [for i := 0; i < len(s); i++] that looks for a byte that is
    not ASCII. *)
Fixpoint isASCII (s : string) : bool :=
  match s with
  | EmptyString => true
  | String c s' => isASCII_byte c && isASCII s'
  end.

(** *** Package [unicode/utf8] *)

Module utf8.

Definition RuneError : Z := 65533.
Definition MaxRune : Z := 1114111.

(** The table [first]: what the first byte of a sequence announces.
    [Lead2], [Lead3] and [Lead4] carry the range accepted for the second
    byte ([acceptRanges]). *)
Inductive First :=
| AsciiByte
| InvalidByte
| Lead2 (lo hi : Z)
| Lead3 (lo hi : Z)
| Lead4 (lo hi : Z).

Definition first (b : Z) : First :=
  if b <? 128 then AsciiByte              (* 0x00-0x7F *)
  else if b <? 194 then InvalidByte       (* 0x80-0xC1 *)
  else if b <? 224 then Lead2 128 191     (* 0xC2-0xDF *)
  else if b =? 224 then Lead3 160 191     (* 0xE0 *)
  else if b <? 237 then Lead3 128 191     (* 0xE1-0xEC *)
  else if b =? 237 then Lead3 128 159     (* 0xED *)
  else if b <? 240 then Lead3 128 191     (* 0xEE-0xEF *)
  else if b =? 240 then Lead4 144 191     (* 0xF0 *)
  else if b <? 244 then Lead4 128 191     (* 0xF1-0xF3 *)
  else if b =? 244 then Lead4 128 143     (* 0xF4 *)
  else InvalidByte.                       (* 0xF5-0xFF *)

(** A continuation byte: [locb <= b <= hicb]. *)
Definition cont (b : Z) : bool := (128 <=? b) && (b <=? 191).

(** [utf8.DecodeRuneInString]: the rune at the head of [s] and its width
    in bytes.  A sequence that is cut short by the end of the string,
    or whose bytes are not in range, gives [RuneError] and width 1. *)
Definition DecodeRuneInString (s : string) : Z * nat :=
  match s with
  | EmptyString => (RuneError, 0%nat)
  | String c0 t0 =>
      let s0 := byte_of c0 in
      match first s0, t0 with
      | AsciiByte, _ => (s0, 1%nat)
      | InvalidByte, _ => (RuneError, 1%nat)
      | _, EmptyString => (RuneError, 1%nat)
      | Lead2 lo hi, String c1 _ =>
          let s1 := byte_of c1 in
          if (s1 <? lo) || (hi <? s1) then (RuneError, 1%nat)
          else (Z.lor (Z.shiftl (Z.land s0 31) 6) (Z.land s1 63), 2%nat)
      | Lead3 lo hi, String c1 t1 =>
          let s1 := byte_of c1 in
          if (s1 <? lo) || (hi <? s1) then (RuneError, 1%nat)
          else
            match t1 with
            | EmptyString => (RuneError, 1%nat)
            | String c2 _ =>
                let s2 := byte_of c2 in
                if negb (cont s2) then (RuneError, 1%nat)
                else (Z.lor (Z.shiftl (Z.land s0 15) 12)
                            (Z.lor (Z.shiftl (Z.land s1 63) 6) (Z.land s2 63)),
                      3%nat)
            end
      | Lead4 lo hi, String c1 t1 =>
          let s1 := byte_of c1 in
          if (s1 <? lo) || (hi <? s1) then (RuneError, 1%nat)
          else
            match t1 with
            | EmptyString => (RuneError, 1%nat)
            | String c2 t2 =>
                let s2 := byte_of c2 in
                if negb (cont s2) then (RuneError, 1%nat)
                else
                  match t2 with
                  | EmptyString => (RuneError, 1%nat)
                  | String c3 _ =>
                      let s3 := byte_of c3 in
                      if negb (cont s3) then (RuneError, 1%nat)
                      else (Z.lor (Z.shiftl (Z.land s0 7) 18)
                              (Z.lor (Z.shiftl (Z.land s1 63) 12)
                                 (Z.lor (Z.shiftl (Z.land s2 63) 6)
                                        (Z.land s3 63))),
                            4%nat)
                  end
            end
      end
  end.

(** [utf8.EncodeRune]: a rune that is out of range or a surrogate is
    written as [RuneError]. *)
Definition EncodeRune (r : Z) : string :=
  let cb (x : Z) := char_of (Z.lor 128 (Z.land x 63)) in
  let three (r : Z) :=
    String (char_of (Z.lor 224 (Z.shiftr r 12)))
           (String (cb (Z.shiftr r 6)) (String (cb r) "")) in
  if r <? 0 then three RuneError
  else if r <=? 127 then String (char_of r) ""
  else if r <=? 2047 then
    String (char_of (Z.lor 192 (Z.shiftr r 6))) (String (cb r) "")
  else if (MaxRune <? r) || ((55296 <=? r) && (r <=? 57343))
  then three RuneError
  else if r <=? 65535 then three r
  else
    String (char_of (Z.lor 240 (Z.shiftr r 18)))
           (String (cb (Z.shiftr r 12))
                   (String (cb (Z.shiftr r 6)) (String (cb r) ""))).

End utf8.

(** The loop [for i, c := range s]: the runes of [s], each with the
    bytes it was read from.  [pending] counts the bytes of the rune
    read last that are still to be passed. *)
Fixpoint range_from (pending : nat) (s : string) : list (Z * string) :=
  match s with
  | EmptyString => []
  | String _ s' =>
      match pending with
      | S k => range_from k s'
      | O =>
          let '(r, size) := utf8.DecodeRuneInString s in
          (r, String.substring 0 size s) :: range_from (size - 1) s'
      end
  end.

Definition range_string (s : string) : list (Z * string) := range_from 0 s.

(** *** Package [unicode] *)

Module unicode.

(** [unicode.IsSpace]: the runes of the property White_Space. *)
Definition IsSpace (r : Z) : bool :=
  if r <=? 255 then
    ((9 <=? r) && (r <=? 13)) || (r =? 32) || (r =? 133) || (r =? 160)
  else
    (r =? 5760) || ((8192 <=? r) && (r <=? 8202)) || (r =? 8232)
    || (r =? 8233) || (r =? 8239) || (r =? 8287) || (r =? 12288).

(** [unicode.ToLower].  Beyond ASCII the lower case of a rune comes from
    the table [CaseRanges]; the model keeps the two entries of the table
    whose lower case is an ASCII letter, U+0130 (to ['i']) and U+212A (to
    ['k']), and leaves every other rune beyond ASCII as it is.  The lower
    case of those other runes is never ASCII, so that the comparison of
    a lower-cased string with ASCII text is that of the code. *)
Definition ToLower (r : Z) : Z :=
  if r <=? 127 then
    if (65 <=? r) && (r <=? 90) then r + 32 else r
  else if r =? 304 then 105
  else if r =? 8490 then 107
  else r.

End unicode.

(** [asciiSpace]: tab, line feed, vertical tab, form feed, carriage
    return and space. *)
Definition isSpace (c : ascii) : bool :=
  let b := byte_of c in
  ((9 <=? b) && (b <=? 13)) || (b =? 32).

(** The ASCII path of [strings.Fields]: the maximal runs of non-space
    bytes, in order.  [cur] is the field being read. *)
Fixpoint Fields_from (cur s : string) : list string :=
  match s with
  | EmptyString => if (cur =? "")%string then [] else [cur]
  | String c s' =>
      if isSpace c
      then if (cur =? "")%string then Fields_from "" s'
           else cur :: Fields_from "" s'
      else Fields_from (cur ++ String c "") s'
  end.

(** The loop of [strings.FieldsFunc] over the runes of the string: a
    rune for which [f] holds ends the field being read. *)
Fixpoint FieldsFunc_from (f : Z -> bool) (cur : string)
         (runes : list (Z * string)) : list string :=
  match runes with
  | [] => if (cur =? "")%string then [] else [cur]
  | (r, bytes) :: later =>
      if f r
      then if (cur =? "")%string then FieldsFunc_from f "" later
           else cur :: FieldsFunc_from f "" later
      else FieldsFunc_from f (cur ++ bytes) later
  end.

Definition FieldsFunc (s : string) (f : Z -> bool) : list string :=
  FieldsFunc_from f "" (range_string s).

(** [strings.Fields]: the fields of [s] between runs of white space;
    a string with a byte beyond ASCII goes through
    [FieldsFunc(s, unicode.IsSpace)]. *)
Definition Fields (s : string) : list string :=
  if isASCII s then Fields_from "" s else FieldsFunc s unicode.IsSpace.

(** [strings.Join(elems, sep)]. *)
Definition Join (elems : list string) (sep : string) : string :=
  String.concat sep elems.

(** [strings.HasPrefix(s, prefix)]. *)
Definition HasPrefix (s pre : string) : bool := String.prefix pre s.

Definition toLower (c : ascii) : ascii :=
  let b := byte_of c in
  if (65 <=? b) && (b <=? 90) then char_of (b + 32) else c.

(** The ASCII path of [strings.ToLower]. *)
Fixpoint ToLower_ascii (s : string) : string :=
  match s with
  | EmptyString => EmptyString
  | String c s' => String (toLower c) (ToLower_ascii s')
  end.

Fixpoint hasUpper (s : string) : bool :=
  match s with
  | EmptyString => false
  | String c s' => ((65 <=? byte_of c) && (byte_of c <=? 90)) || hasUpper s'
  end.

(** [strings.Map(mapping, s)].  The bytes of [s] are kept as they are up
    to the first rune that the mapping changes or that is not valid
    UTF-8; from there on every rune is written anew. *)
Fixpoint Map_write (mapping : Z -> Z) (runes : list (Z * string)) : string :=
  match runes with
  | [] => ""
  | (c, _) :: later =>
      let r := mapping c in
      (if r <? 0 then "" else utf8.EncodeRune r) ++ Map_write mapping later
  end.

Fixpoint Map_scan (mapping : Z -> Z) (runes : list (Z * string)) : string :=
  match runes with
  | [] => ""
  | (c, bytes) :: later =>
      let r := mapping c in
      if (r =? c)
         && (negb (c =? utf8.RuneError)
             || negb (String.length bytes =? 1)%nat)
      then bytes ++ Map_scan mapping later
      else (if r <? 0 then "" else utf8.EncodeRune r)
             ++ Map_write mapping later
  end.

Definition Map (mapping : Z -> Z) (s : string) : string :=
  Map_scan mapping (range_string s).

(** [strings.ToLower]. *)
Definition ToLower (s : string) : string :=
  if isASCII s then
    if hasUpper s then ToLower_ascii s else s
  else Map unicode.ToLower s.

(** [s[n:]] for [n <= len(s)]. *)
Fixpoint skip (n : nat) (s : string) : string :=
  match n, s with
  | O, _ => s
  | S n', String _ s' => skip n' s'
  | S _, EmptyString => EmptyString
  end.

(** [strings.Split(s, sep)] for a separator of one byte. *)
Fixpoint Split_from (cur s : string) (sep : ascii) : list string :=
  match s with
  | EmptyString => [cur]
  | String c s' =>
      if Ascii.eqb c sep then cur :: Split_from "" s' sep
      else Split_from (cur ++ String c "") s' sep
  end.

Definition Split (s : string) (sep : ascii) : list string :=
  Split_from "" s sep.

(** ** Package [strconv]: [ParseInt(s, 0, 64)] *)

Module strconv.

Inductive NumError := ErrSyntax | ErrRange.

Definition IntSize : Z := 64.

(** [lower(c)] is [c | ('x' - 'X')]. *)
Definition lower (c : Z) : Z := Z.lor c 32.

Definition is_digit (c : Z) : bool := (48 <=? c) && (c <=? 57).
Definition is_letter (c : Z) : bool := (97 <=? lower c) && (lower c <=? 122).

Inductive Saw := SawStart | SawDigit | SawUnderscore | SawOther.

Definition saw_eqb (a b : Saw) : bool :=
  match a, b with
  | SawStart, SawStart | SawDigit, SawDigit
  | SawUnderscore, SawUnderscore | SawOther, SawOther => true
  | _, _ => false
  end.

Fixpoint underscoreOK_loop (hex : bool) (saw : Saw) (s : string) : bool :=
  match s with
  | EmptyString => negb (saw_eqb saw SawUnderscore)
  | String ch s' =>
      let c := byte_of ch in
      if is_digit c || (hex && (97 <=? lower c) && (lower c <=? 102))
      then underscoreOK_loop hex SawDigit s'
      else if c =? 95
      then if saw_eqb saw SawDigit
           then underscoreOK_loop hex SawUnderscore s' else false
      else if saw_eqb saw SawUnderscore then false
      else underscoreOK_loop hex SawOther s'
  end.

(** [underscoreOK]: underscores only between digits, or between the
    base prefix and a digit. *)
Definition underscoreOK (s : string) : bool :=
  let s :=
    match s with
    | String "-" r | String "+" r => r
    | _ => s
    end in
  match s with
  | String "0" (String p r) =>
      let l := lower (byte_of p) in
      if (l =? 98) || (l =? 111) || (l =? 120)
      then underscoreOK_loop (l =? 120) SawDigit r
      else underscoreOK_loop false SawStart s
  | _ => underscoreOK_loop false SawStart s
  end.

(** The digit loop of [ParseUint] for a number written with [base0]
    syntax, at 64 bits.  [n] is the value read so far. *)
Fixpoint ParseUint_loop (base : Z) (s : string) (n : Z) (underscores : bool)
  : (Z * bool) + NumError :=
  match s with
  | EmptyString => inl (n, underscores)
  | String ch s' =>
      let c := byte_of ch in
      if c =? 95 then ParseUint_loop base s' n true
      else
        let d :=
          if is_digit c then Some (c - 48)
          else if is_letter c then Some (lower c - 97 + 10)
          else None in
        match d with
        | None => inr ErrSyntax
        | Some d =>
            if base <=? d then inr ErrSyntax
            else if Int64.maxUint64 / base + 1 <=? n then inr ErrRange
            else
              let n := n * base in
              let n1 := Int64.unsigned (n + d) in
              if (n1 <? n) || (Int64.maxUint64 <? n1) then inr ErrRange
              else ParseUint_loop base s' n1 underscores
        end
  end.

(** [ParseUint(s, 0, 64)].  On a range error Go also returns the
    largest value, which [ParseInt] reads. *)
Definition ParseUint (s : string) : Z + NumError :=
  match s with
  | EmptyString => inr ErrSyntax
  | _ =>
      let '(base, digits) :=
        match s with
        | String "0" r =>
            match r with
            | String p (String _ _) =>
                let l := lower (byte_of p) in
                if l =? 98 then (2, skip 2 s)
                else if l =? 111 then (8, skip 2 s)
                else if l =? 120 then (16, skip 2 s)
                else (8, r)
            | _ => (8, r)
            end
        | _ => (10, s)
        end in
      match ParseUint_loop base digits 0 false with
      | inr e => inr e
      | inl (n, underscores) =>
          if underscores && negb (underscoreOK s) then inr ErrSyntax
          else inl n
      end
  end.

(** [ParseInt(s, 0, 64)]. *)
Definition ParseInt (s : string) : Z + NumError :=
  match s with
  | EmptyString => inr ErrSyntax
  | _ =>
      let '(neg, s') :=
        match s with
        | String "+" r => (false, r)
        | String "-" r => (true, r)
        | _ => (false, s)
        end in
      match ParseUint s' with
      | inr ErrSyntax => inr ErrSyntax
      | r =>
          let un := match r with inl n => n | inr _ => Int64.maxUint64 end in
          let cutoff := 2 ^ (IntSize - 1) in
          if negb neg && (cutoff <=? un) then inr ErrRange
          else if neg && (cutoff <? un) then inr ErrRange
          else
            let n := Int64.wrap un in
            inl (if neg then Int64.neg n else n)
      end
  end.

End strconv.

(** ** Package [flag]: the flag set of [parseDuration] *)

Module flag.

Inductive Error :=
| BadFlagSyntax (s : string)
| ErrHelp
| NotDefined (name : string)
| NeedsArgument (name : string)
| InvalidValue (value name : string) (e : strconv.NumError).

(** The three [Int] flags [h], [m], [s] of the set. *)
Record FlagSet := { h : Z; m : Z; s : Z }.

(** [fs.Int("h", 0, _)], [fs.Int("m", 0, _)], [fs.Int("s", 0, _)]. *)
Definition NewFlagSet : FlagSet := {| h := 0; m := 0; s := 0 |}.

Inductive Name := FlagH | FlagM | FlagS.

(** [f.formal[name]]. *)
Definition formal (name : string) : option Name :=
  if (name =? "h")%string then Some FlagH
  else if (name =? "m")%string then Some FlagM
  else if (name =? "s")%string then Some FlagS
  else None.

Definition assign (f : FlagSet) (n : Name) (v : Z) : FlagSet :=
  match n with
  | FlagH => {| h := v; m := m f; s := s f |}
  | FlagM => {| h := h f; m := v; s := s f |}
  | FlagS => {| h := h f; m := m f; s := v |}
  end.

(** [intValue.Set]. *)
Definition Set_ (f : FlagSet) (n : Name) (value name : string)
  : FlagSet + Error :=
  match strconv.ParseInt value with
  | inl v => inl (assign f n v)
  | inr e => inr (InvalidValue value name e)
  end.

(** The scan of [parseOne] for [name=value]: the first ['='] at index 1
    or later splits the name from the value. *)
Fixpoint cut_equals (name : string) : string * option string :=
  match name with
  | EmptyString => (EmptyString, None)
  | String c r =>
      if Ascii.eqb c "=" then (EmptyString, Some r)
      else let '(n, v) := cut_equals r in (String c n, v)
  end.

Definition split_value (name : string) : string * option string :=
  match name with
  | EmptyString => (EmptyString, None)
  | String c r => let '(n, v) := cut_equals r in (String c n, v)
  end.

(** A token at which [parseOne] stops without an error: shorter than
    two bytes or not starting with ['-']. *)
Definition non_flag (tok : string) : bool :=
  match tok with
  | String c (String _ _) => negb (Ascii.eqb c "-")
  | _ => true
  end.

Definition numMinuses (tok : string) : nat :=
  match tok with
  | String _ (String c _) => if Ascii.eqb c "-" then 2%nat else 1%nat
  | _ => 1%nat
  end.

(** The name of the flag of a token, and its value when the token has
    the shape [-name=value]. *)
Definition name_value (tok : string) : string * option string :=
  split_value (skip (numMinuses tok) tok).

(** [FlagSet.Parse] with [ContinueOnError]: [parseOne] is repeated while
    it sees a flag; each round takes one or two arguments. *)
Fixpoint Parse (f : FlagSet) (args : list string) : FlagSet + Error :=
  match args with
  | [] => inl f
  | tok :: rest =>
      if non_flag tok then inl f
      else if (tok =? "--")%string then inl f
      else
        match skip (numMinuses tok) tok with
        | EmptyString => inr (BadFlagSyntax tok)
        | String c _ =>
            if Ascii.eqb c "-" || Ascii.eqb c "="
            then inr (BadFlagSyntax tok)
            else
              let '(name, value) := name_value tok in
              match formal name with
              | None =>
                  if (name =? "help")%string || (name =? "h")%string
                  then inr ErrHelp
                  else inr (NotDefined name)
              | Some n =>
                  match value with
                  | Some v =>
                      match Set_ f n v name with
                      | inl f' => Parse f' rest
                      | inr e => inr e
                      end
                  | None =>
                      match rest with
                      | [] => inr (NeedsArgument name)
                      | v :: rest' =>
                          match Set_ f n v name with
                          | inl f' => Parse f' rest'
                          | inr e => inr e
                          end
                      end
                  end
              end
        end
  end.

(** [Scanned f pre f']: [Parse] takes every token of [pre] as a flag of
    the set or as the value of one, and they lead from [f] to [f']. *)
Inductive Scanned : FlagSet -> list string -> FlagSet -> Prop :=
| Scanned_nil f : Scanned f [] f
| Scanned_pair f tok v rest name n z f' :
    non_flag tok = false -> tok <> "--" ->
    name_value tok = (name, None) -> formal name = Some n ->
    strconv.ParseInt v = inl z ->
    Scanned (assign f n z) rest f' ->
    Scanned f (tok :: v :: rest) f'
| Scanned_equals f tok v rest name n z f' :
    non_flag tok = false -> tok <> "--" ->
    name_value tok = (name, Some v) -> formal name = Some n ->
    strconv.ParseInt v = inl z ->
    Scanned (assign f n z) rest f' ->
    Scanned f (tok :: rest) f'.

End flag.

(** ** Package [time]: durations *)

Definition Nanosecond : Z := 1.
Definition Microsecond : Z := 1000 * Nanosecond.
Definition Millisecond : Z := 1000 * Microsecond.
Definition Second : Z := 1000 * Millisecond.
Definition Minute : Z := 60 * Second.
Definition Hour : Z := 60 * Minute.

(** ** The program *)

Record Task := { Name : string; Duration : Z }.

Inductive DurationError :=
| FlagError (e : flag.Error)
| NegativeValues.

Definition parseDuration (input : string) : Z + DurationError :=
  let args := Fields input in
  match flag.Parse flag.NewFlagSet args with
  | inr err => inr (FlagError err)
  | inl fs =>
      if (flag.h fs <? 0) || (flag.m fs <? 0) || (flag.s fs <? 0)
      then inr NegativeValues
      else inl (Int64.add
                  (Int64.add (Int64.mul (flag.h fs) Hour)
                             (Int64.mul (flag.m fs) Minute))
                  (Int64.mul (flag.s fs) Second))
  end.

(** The loop of [processCommand] over [args]: the index of the first
    argument starting with ['-'], and [0] (the zero value of
    [flagsIndex]) when the loop ends without a [break]. *)
Fixpoint flagsIndex_from (i : nat) (args : list string) : nat :=
  match args with
  | [] => 0%nat
  | arg :: rest =>
      if HasPrefix arg "-" then i else flagsIndex_from (S i) rest
  end.

(** What [processCommand] prints, one constructor per message. *)
Inductive Feedback :=
| Exiting                                   (* "Exiting..." and os.Exit(0) *)
| UnknownCommand                            (* "Unknown command. Use ..." *)
| InvalidCommandFormat                      (* "Invalid command format. ..." *)
| ErrorParsingDuration (e : DurationError)  (* "Error parsing duration: ..." *)
| DurationMustBePositive                    (* "Duration must be positive" *)
| AddedTask (t : Task)                      (* "Added task: ..." *)
| Panic.                                    (* slice bounds out of range *)

(** [processCommand] on the queue [taskQueue]: the message printed and
    the queue afterwards.  The process ends on [Exiting]. *)
Definition processCommand (cmd : string) (taskQueue : list Task)
  : Feedback * list Task :=
  if (ToLower cmd =? "exit")%string then (Exiting, taskQueue)
  else if negb (HasPrefix cmd "add ") then (UnknownCommand, taskQueue)
  else
    match Fields cmd with
    | [] => (Panic, taskQueue)
    | _ :: args =>
        let flagsIndex := flagsIndex_from 0 args in
        if (flagsIndex =? 0)%nat then (InvalidCommandFormat, taskQueue)
        else
          let taskName := Join (firstn flagsIndex args) " " in
          let durationStr := Join (skipn flagsIndex args) " " in
          match parseDuration durationStr with
          | inr err => (ErrorParsingDuration err, taskQueue)
          | inl duration =>
              if duration <=? 0 then (DurationMustBePositive, taskQueue)
              else
                let t := {| Name := taskName; Duration := duration |} in
                (AddedTask t, (taskQueue ++ [t])%list)
          end
    end.

(** ** Package [time]: rounding and printing durations *)

Definition minDuration : Z := Int64.min_signed.
Definition maxDuration : Z := Int64.max_signed.

(** [lessThanHalf(x, y)]: [uint64(x)+uint64(x) < uint64(y)]. *)
Definition lessThanHalf (x y : Z) : bool :=
  Int64.unsigned (Int64.unsigned x + Int64.unsigned x) <? Int64.unsigned y.

(** [Duration.Round]: to the nearest multiple of [m], halves away from
    zero.  Go's [%] truncates, as [Z.rem]. *)
Definition Round (d m : Z) : Z :=
  if m <=? 0 then d
  else
    let r := Z.rem d m in
    if d <? 0 then
      let r := Int64.neg r in
      if lessThanHalf r m then Int64.add d r
      else
        let d1 := Int64.add (Int64.sub d m) r in
        if d1 <? d then d1 else minDuration
    else
      if lessThanHalf r m then Int64.sub d r
      else
        let d1 := Int64.sub (Int64.add d m) r in
        if d <? d1 then d1 else maxDuration.

Definition digit_char (d : Z) : ascii := char_of (d + 48).

(** [fmtFrac]: the fraction of [v / 10^prec] written in front of [buf],
    without trailing zeros, and the integer part. *)
Fixpoint fmtFrac (prec : nat) (v : Z) (print : bool) (buf : string)
  : string * Z :=
  match prec with
  | O => (if print then String "." buf else buf, v)
  | S p =>
      let digit := v mod 10 in
      let print := print || negb (digit =? 0) in
      fmtFrac p (v / 10) print
              (if print then String (digit_char digit) buf else buf)
  end.

(** The loop [for v > 0] of [fmtInt]; a [uint64] has at most twenty
    decimal digits. *)
Fixpoint fmtInt_loop (fuel : nat) (v : Z) (buf : string) : string :=
  match fuel with
  | O => buf
  | S fuel' =>
      if 0 <? v
      then fmtInt_loop fuel' (v / 10) (String (digit_char (v mod 10)) buf)
      else buf
  end.

(** [fmtInt]: [v] in decimal written in front of [buf]. *)
Definition fmtInt (v : Z) (buf : string) : string :=
  if v =? 0 then String "0" buf else fmtInt_loop 20 v buf.

(** The two bytes of the micro sign, U+00B5. *)
Definition micro : string := String "194" (String "181" "").

(** [Duration.String]: the canonical text, as [1h2m3s], [1.5s], [20ms]. *)
Definition Duration_String (d : Z) : string :=
  let neg := d <? 0 in
  let u := Int64.unsigned d in
  let u := if neg then Int64.unsigned (- u) else u in
  if u <? Second then
    if u =? 0 then "0s"
    else
      let body :=
        if u <? Microsecond then fmtInt u "ns"
        else if u <? Millisecond then
          let '(buf, u) := fmtFrac 3 u false (micro ++ "s") in fmtInt u buf
        else
          let '(buf, u) := fmtFrac 6 u false "ms" in fmtInt u buf in
      if neg then String "-" body else body
  else
    let '(buf, u) := fmtFrac 9 u false "s" in
    let buf := fmtInt (u mod 60) buf in
    let u := u / 60 in
    let body :=
      if 0 <? u then
        let buf := fmtInt (u mod 60) (String "m" buf) in
        let u := u / 60 in
        if 0 <? u then fmtInt u (String "h" buf) else buf
      else buf in
    if neg then String "-" body else body.

(** ** Package [time]: the wall clock of a history record *)

(** The civil reading of [time.Now()]. *)
Record Time := {
  year : Z; month : Z; day : Z; hour : Z; minute : Z; second : Z
}.


Fixpoint zeros (n : nat) : string :=
  match n with O => "" | S n' => String "0" (zeros n') end.

(** [appendInt(b, x, width)]: [x] in decimal, padded with zeros to
    [width] digits. *)
Definition appendInt (x : Z) (width : nat) : string :=
  let digits := fmtInt (Z.abs x) "" in
  (if x <? 0 then "-" else "")
    ++ zeros (width - String.length digits) ++ digits.

(** [t.Format("2006-01-02 15:04:05")]. *)
Definition Format (t : Time) : string :=
  appendInt (year t) 4 ++ "-" ++ appendInt (month t) 2 ++ "-"
    ++ appendInt (day t) 2 ++ " " ++ appendInt (hour t) 2 ++ ":"
    ++ appendInt (minute t) 2 ++ ":" ++ appendInt (second t) 2.

(** ** The timer *)

(** [t.Sub(u)], saturating; [time.Until(t)] is [t.Sub(time.Now())]. *)
Definition Sub (t u : Z) : Z :=
  let d := t - u in
  if d <? minDuration then minDuration
  else if maxDuration <? d then maxDuration
  else d.

Definition Until (endTime now : Z) : Z := Sub endTime now.

(** What [startTimer] prints. *)
Inductive Notice :=
| Starting (task : string) (duration : Z)     (* "Starting %s timer for %s" *)
| Remaining (task : string) (remaining : Z)   (* "%s: %-10s remaining" *)
| Completed (task : string).                  (* "%s: Completed!" *)

(** The body of the [select] of [startTimer] at one tick read at [now]:
    the notice printed, and whether the function returns. *)
Definition tick (task : string) (endTime now : Z) : Notice * bool :=
  let remaining := Round (Until endTime now) Second in
  if remaining <=? 0 then (Completed task, true)
  else (Remaining task remaining, false).

(** The [for] loop of [startTimer] over the clock readings of the ticks
    delivered so far; the flag tells whether the loop has returned. *)
Fixpoint ticking (task : string) (endTime : Z) (ticks : list Z)
  : list Notice * bool :=
  match ticks with
  | [] => ([], false)
  | now :: later =>
      let '(n, returned) := tick task endTime now in
      if returned then ([n], true)
      else let '(ns, r) := ticking task endTime later in (n :: ns, r)
  end.

(** [startTimer(task, duration)] entered at [now]. *)
Definition startTimer (task : string) (duration now : Z) (ticks : list Z)
  : list Notice * bool :=
  let endTime := now + duration in
  let '(ns, r) := ticking task endTime ticks in
  (Starting task (Round duration Second) :: ns, r).

Definition cr : string := String "013" "".
Definition nl : string := String "010" "".
Definition esc : string := String "027" "".

Fixpoint spaces (n : nat) : string :=
  match n with O => "" | S n' => String " " (spaces n') end.

(** The text of a notice ([%-10s] pads on the right to ten runes). *)
Definition render (n : Notice) : string :=
  match n with
  | Starting task d =>
      nl ++ "Starting " ++ task ++ " timer for " ++ Duration_String d ++ nl
  | Remaining task r =>
      let txt := Duration_String r in
      cr ++ task ++ ": " ++ txt
         ++ spaces (10 - List.length (range_string txt)) ++ " remaining"
  | Completed task =>
      cr ++ task ++ ": " ++ esc ++ "[32mCompleted!" ++ esc ++ "[0m" ++ nl
  end.

(** ** The history log *)

(** How the operating system answers the calls of [logHistory]:
    [OpenFails] for [os.OpenFile], [WriteFails n] for a [WriteString]
    that fails after [n] bytes. *)
Inductive IO := IoOk | OpenFails | WriteFails (n : nat).

Definition entry (task : Task) (now : Time) : string :=
  Name task ++ "|" ++ Duration_String (Duration task) ++ "|"
    ++ Format now ++ nl.

(** [logHistory(task)] on the history file ([None] when it does not
    exist): the file afterwards and whether an error is returned. *)
Definition logHistory (task : Task) (now : Time) (io : IO)
           (file : option string) : option string * bool :=
  let content := match file with Some c => c | None => "" end in
  match io with
  | OpenFails => (file, true)
  | WriteFails n =>
      (Some (content ++ String.substring 0 n (entry task now)), true)
  | IoOk => (Some (content ++ entry task now), false)
  end.

Definition dropCR (line : string) : string :=
  match String.length line with
  | O => line
  | S n =>
      if (String.substring n 1 line =? cr)%string
      then String.substring 0 n line else line
  end.

(** [bufio.MaxScanTokenSize]: the size to which the buffer of a scanner
    made by [bufio.NewScanner] may grow. *)
Definition MaxScanTokenSize : Z := 64 * 1024.

(** The errors of reading: of [os.Open], of [Scanner.Err()]. *)
Inductive ReadError := ErrOpen | ErrTooLong | ErrRead.

(** The loop [for scanner.Scan()] with the split function [ScanLines]
    over the bytes [s] that the reader delivers: the lines without their
    end-of-line marker (a last line needs no line feed), and whether the
    scanner stopped because of a line that does not fit in its buffer:
    [MaxScanTokenSize] bytes without a line feed.  [cur] is the part of
    the line read so far. *)
Fixpoint ScanLines_from (cur s : string) : list string * bool :=
  match s with
  | EmptyString => (if (cur =? "")%string then [] else [dropCR cur], false)
  | String c s' =>
      if Ascii.eqb c "010" then
        let '(lines, long) := ScanLines_from "" s' in (dropCR cur :: lines, long)
      else if MaxScanTokenSize <=? Z.of_nat (String.length cur) + 1
      then ([], true)
      else ScanLines_from (cur ++ String c "") s'
  end.

(** A scanner run to its end on a reader that delivers [s] and then
    reports the end of the input, or fails when [broken]: the tokens,
    and [Scanner.Err()]. *)
Definition Scan (s : string) (broken : bool)
  : list string * option ReadError :=
  let '(lines, long) := ScanLines_from "" s in
  (lines, if long then Some ErrTooLong
          else if broken then Some ErrRead else None).

(** How [os.Open(historyFile)] answers, and what reading the file gives:
    [Content c] for a file that is read to its end, [Broken c] for a
    file of which [c] is read before a read fails. *)
Inductive Opened :=
| NotExist
| OpenError
| Content (c : string)
| Broken (c : string).

Definition Open (file : option string) : Opened :=
  match file with None => NotExist | Some c => Content c end.

Definition header : string :=
  nl ++ "Task History:" ++ nl
     ++ "----------------------------------------" ++ nl.

(** The block of three labelled lines printed for a record. *)
Definition block (name duration stamp : string) : string :=
  "Task: " ++ name ++ nl ++ "Duration: " ++ duration ++ nl
    ++ "Completed: " ++ stamp ++ nl ++ nl.

(** The body of the scanner loop of [showHistory] for one line: lines
    that do not split into exactly three parts are skipped. *)
Definition showLine (line : string) : string :=
  match Split line "|" with
  | [p0; p1; p2] => block p0 p1 p2
  | _ => ""
  end.

(** [showHistory()]: the text printed and the error returned. *)
Definition showHistory (f : Opened) : string * option ReadError :=
  match f with
  | NotExist => ("No history available" ++ nl, None)
  | OpenError => ("", Some ErrOpen)
  | Content c =>
      let '(lines, err) := Scan c false in
      (header ++ String.concat "" (map showLine lines), err)
  | Broken c =>
      let '(lines, err) := Scan c true in
      (header ++ String.concat "" (map showLine lines), err)
  end.

(** ** The main loop and the timer goroutine *)

(** Where the main goroutine stands: at the top of the outer [for], between
    the [go] statement and [logHistory], in the inner [for]/[select], or
    gone ([os.Exit] or [return]). *)
Inductive MainPC :=
| AtTop
| Logging (task : Task)
| Waiting (task : Task)
| Exited.

(** The timer goroutine: none, launched by [go] and not yet running,
    inside the loop of [startTimer], or returned with [done] closed. *)
Inductive TimerState :=
| NoTimer
| Spawned (task : Task)
| Ticking (task : string) (endTime : Z)
| Closed.

Record System := {
  pc : MainPC;
  taskQueue : list Task;
  timer : TimerState;
  history : option string
}.

(** The moves of the two goroutines and what the environment brings
    with them. *)
Inductive Event :=
| EvPop                          (* main: [hasTasks], pop and [go] *)
| EvLog (now : Time) (io : IO)   (* main: [logHistory(task)] *)
| EvCmd (line : string)          (* main: a line received from [cmdCh] *)
| EvClosed                       (* main: [cmdCh] found closed *)
| EvDone                         (* main: [done] found closed *)
| EvSleep                        (* main: [default], sleep 100ms *)
| EvStart (now : Z)              (* timer: entry of [startTimer] *)
| EvTick (now : Z).              (* timer: a tick of the ticker *)

(** What an observer of the process sees. *)
Inductive Obs :=
| Popped (task : Task)
| Logged (task : Task) (failed : bool)
| Said (f : Feedback)
| DoneSeen (task : Task)
| InputClosed
| Timer (n : Notice).

Definition set_pc (st : System) (p : MainPC) : System :=
  {| pc := p; taskQueue := taskQueue st; timer := timer st;
     history := history st |}.

(** The call [processCommand(cmd)] made by the main loop standing at
    [back]. *)
Definition command (st : System) (back : MainPC) (line : string)
  : System * list Obs :=
  let '(f, q) := processCommand line (taskQueue st) in
  ({| pc := match f with Exiting | Panic => Exited | _ => back end;
      taskQueue := q; timer := timer st; history := history st |},
   [Said f]).

Definition is_nil {A} (l : list A) : bool :=
  match l with [] => true | _ => false end.

Definition step (st : System) (ev : Event) : option (System * list Obs) :=
  match ev, pc st with
  | EvPop, AtTop =>
      match taskQueue st with
      | task :: rest =>
          Some ({| pc := Logging task; taskQueue := rest;
                   timer := Spawned task; history := history st |},
                [Popped task])
      | [] => None
      end
  | EvLog now io, Logging task =>
      let '(file, failed) := logHistory task now io (history st) in
      Some ({| pc := Waiting task; taskQueue := taskQueue st;
               timer := timer st; history := file |},
            [Logged task failed])
  | EvCmd line, AtTop =>
      if is_nil (taskQueue st) then Some (command st AtTop line) else None
  | EvCmd line, Waiting task => Some (command st (Waiting task) line)
  | EvClosed, AtTop =>
      if is_nil (taskQueue st) then Some (set_pc st Exited, [InputClosed])
      else None
  | EvClosed, Waiting _ => Some (set_pc st Exited, [InputClosed])
  | EvSleep, AtTop =>
      if is_nil (taskQueue st) then Some (st, []) else None
  | EvDone, Waiting task =>
      match timer st with
      | Closed =>
          Some ({| pc := AtTop; taskQueue := taskQueue st;
                   timer := NoTimer; history := history st |},
                [DoneSeen task])
      | _ => None
      end
  | EvStart now, (AtTop | Logging _ | Waiting _) =>
      match timer st with
      | Spawned task =>
          Some ({| pc := pc st; taskQueue := taskQueue st;
                   timer := Ticking (Name task) (now + Duration task);
                   history := history st |},
                [Timer (Starting (Name task) (Round (Duration task) Second))])
      | _ => None
      end
  | EvTick now, (AtTop | Logging _ | Waiting _) =>
      match timer st with
      | Ticking task endTime =>
          let '(n, returned) := tick task endTime now in
          Some ({| pc := pc st; taskQueue := taskQueue st;
                   timer := if returned then Closed else timer st;
                   history := history st |},
                [Timer n])
      | _ => None
      end
  | _, _ => None
  end.

(** A run of the process over a schedule of events; [None] when the
    schedule asks for a move that is not possible. *)
Fixpoint run (st : System) (evs : list Event) : option (System * list Obs) :=
  match evs with
  | [] => Some (st, [])
  | ev :: later =>
      match step st ev with
      | None => None
      | Some (st', o) =>
          match run st' later with
          | None => None
          | Some (st'', os) => Some (st'', (o ++ os)%list)
          end
      end
  end.

(** [main] without [--history]: an empty queue, no timer. *)
Definition initial (file : option string) : System :=
  {| pc := AtTop; taskQueue := []; timer := NoTimer; history := file |}.

(** * Notions used in the statements *)

(** ** Strings *)

(** [all_chars p s]: every byte of [s] satisfies [p]. *)
Fixpoint all_chars (p : ascii -> bool) (s : string) : bool :=
  match s with
  | EmptyString => true
  | String c s' => p c && all_chars p s'
  end.

Fixpoint count_char (c : ascii) (s : string) : nat :=
  match s with
  | EmptyString => 0
  | String x s' => (if Ascii.eqb x c then 1 else 0) + count_char c s'
  end.

(** The width in bytes of the white-space rune at the head of [s], and
    0 when [s] does not start with one. *)
Definition space_width (s : string) : nat :=
  let '(r, size) := utf8.DecodeRuneInString s in
  if unicode.IsSpace r then size else 0%nat.

(** [clean_in t rest]: no white-space rune starts at a byte of [t] in
    the string [t ++ rest]; [clean t]: none starts in [t]. *)
Fixpoint clean_in (t rest : string) : bool :=
  match t with
  | EmptyString => true
  | String _ t' => (space_width (t ++ rest) =? 0)%nat && clean_in t' rest
  end.

Definition clean (t : string) : bool := clean_in t "".

(** A token of [Fields]: not empty, no white space. *)
Definition token (t : string) : Prop := t <> "" /\ clean t = true.

(** The fields of a string read byte by byte: a byte at which a
    white-space rune starts ends the field, and the [skipped] bytes of
    that rune are passed. *)
Fixpoint fields_bytes (cur : string) (skipped : nat) (s : string)
  : list string :=
  match s with
  | EmptyString => if (cur =? "")%string then [] else [cur]
  | String c s' =>
      match skipped with
      | S k => fields_bytes cur k s'
      | O =>
          match space_width s with
          | O => fields_bytes (cur ++ String c "") 0 s'
          | S w =>
              if (cur =? "")%string then fields_bytes "" w s'
              else cur :: fields_bytes "" w s'
          end
      end
  end.

(** The first [k] bytes of [s] are continuation bytes. *)
Fixpoint cont_prefix (k : nat) (s : string) : Prop :=
  match k, s with
  | O, _ => True
  | S k', String c s' => utf8.cont (byte_of c) = true /\ cont_prefix k' s'
  | S _, EmptyString => False
  end.

(** A string that does not start with a continuation byte. *)
Definition boundary (s : string) : Prop :=
  match s with
  | EmptyString => True
  | String c _ => utf8.cont (byte_of c) = false
  end.

(** A byte of ASCII that is not white space. *)
Definition ascii_word (c : ascii) : bool := isASCII_byte c && negb (isSpace c).

Definition not_bar (c : ascii) : bool := negb (Ascii.eqb c "|").
Definition not_nl (c : ascii) : bool := negb (Ascii.eqb c "010").
Definition not_cr (c : ascii) : bool := negb (Ascii.eqb c "013").

(** A byte that is neither the field delimiter nor part of an end of
    line. *)
Definition plain (c : ascii) : bool := not_bar c && not_nl c && not_cr c.

(** A decimal digit. *)
Definition digit (c : ascii) : bool := strconv.is_digit (byte_of c).


(** ** The dispatcher *)

(** An argument that starts with ['-']. *)
Definition dash (arg : string) : bool := HasPrefix arg "-".

(** The end of [processCommand], from the call of [parseDuration] on. *)
Definition enqueue (name durationStr : string) (q : list Task)
  : Feedback * list Task :=
  match parseDuration durationStr with
  | inr err => (ErrorParsingDuration err, q)
  | inl duration =>
      if duration <=? 0 then (DurationMustBePositive, q)
      else
        let t := {| Name := name; Duration := duration |} in
        (AddedTask t, (q ++ [t])%list)
  end.

(** A token at which the scan of the flag set ends: a token that is
    not a flag, the terminator [--], or a flag that is an error: one
    that is not of the set, one whose value is not an integer, one that
    has no value. *)
Definition halts (tok : string) (rest : list string) : Prop :=
  flag.non_flag tok = true \/ tok = "--"
  \/ (flag.non_flag tok = false /\ tok <> "--"
      /\ (flag.formal (fst (flag.name_value tok)) = None
          \/ exists name n,
              flag.formal name = Some n
              /\ ((exists v e, flag.name_value tok = (name, Some v)
                               /\ strconv.ParseInt v = inr e)
                  \/ (flag.name_value tok = (name, None)
                      /\ (rest = []
                          \/ exists v rest' e,
                              rest = v :: rest'
                              /\ strconv.ParseInt v = inr e))))).

(** ** Runs of the main loop *)

(** The tasks popped, the tasks accepted and the timers begun, in the
    order in which a run shows them. *)
Definition popped (obs : list Obs) : list Task :=
  flat_map (fun o => match o with Popped t => [t] | _ => [] end) obs.

Definition accepted (obs : list Obs) : list Task :=
  flat_map (fun o => match o with Said (AddedTask t) => [t] | _ => [] end) obs.

Definition begun (obs : list Obs) : list string :=
  flat_map (fun o => match o with
                     | Timer (Starting name _) => [name]
                     | _ => []
                     end) obs.

(** The timer launched by [go] that has not printed its first line. *)
Definition launched (st : System) : list string :=
  match timer st with Spawned t => [Name t] | _ => [] end.

(** At the top of the loop no timer is alive. *)
Definition coherent (st : System) : Prop :=
  pc st = AtTop -> timer st = NoTimer.

(** The phases of the main goroutine as its observations show them. *)
Inductive Phase :=
| Idle
| AwaitLog (task : Task)
| Running (task : Task)
| Stopped.

Definition phase_of (p : MainPC) : Phase :=
  match p with
  | AtTop => Idle
  | Logging t => AwaitLog t
  | Waiting t => Running t
  | Exited => Stopped
  end.

Definition Task_eqb (a b : Task) : bool :=
  (Name a =? Name b)%string && (Duration a =? Duration b).

(** The discipline of the observations: a pop is followed by the log of
    the same task before anything else the main goroutine does (the
    timer goroutine may print in between); only then are commands
    served and the completion of that task seen; nothing follows the end
    of the process, and no timer prints while the loop is at its top. *)
Definition follow (p : Phase) (o : Obs) : option Phase :=
  match o, p with
  | Timer _, (AwaitLog _ | Running _) => Some p
  | Popped t, Idle => Some (AwaitLog t)
  | Logged t _, AwaitLog t' => if Task_eqb t t' then Some (Running t) else None
  | Said (Exiting | Panic), (Idle | Running _) => Some Stopped
  | Said _, (Idle | Running _) => Some p
  | InputClosed, (Idle | Running _) => Some Stopped
  | DoneSeen t, Running t' => if Task_eqb t t' then Some Idle else None
  | _, _ => None
  end.

Fixpoint follows (p : Phase) (obs : list Obs) : option Phase :=
  match obs with
  | [] => Some p
  | o :: later =>
      match follow p o with
      | Some p' => follows p' later
      | None => None
      end
  end.

(** Case analysis of the tests on bytes. *)
Ltac split_tests :=
  repeat match goal with
         | |- context [?x <? ?y] => destruct (Z.ltb_spec x y)
         | |- context [?x <=? ?y] => destruct (Z.leb_spec x y)
         | |- context [?x =? ?y] => destruct (Z.eqb_spec x y)
         | H : context [?x <? ?y] |- _ => destruct (Z.ltb_spec x y)
         | H : context [?x <=? ?y] |- _ => destruct (Z.leb_spec x y)
         | H : context [?x =? ?y] |- _ => destruct (Z.eqb_spec x y)
         end.

(** Case analysis of a move of [step]. *)
Ltac step_cases H :=
  unfold step in H;
  repeat match type of H with
         | match ?x with _ => _ end = Some _ =>
             let E := fresh "E" in destruct x eqn:E; try discriminate H
         | (if ?x then _ else _) = Some _ =>
             let E := fresh "E" in destruct x eqn:E; try discriminate H
         | (let '(_, _) := ?x in _) = Some _ =>
             let E := fresh "E" in destruct x eqn:E
         end.

(** ** The timer *)

(** Clock readings that never go back, from [prev] on. *)
Fixpoint ascending (prev : Z) (ticks : list Z) : Prop :=
  match ticks with
  | [] => True
  | t :: later => prev <= t /\ ascending t later
  end.

(** Values that never go up, from [prev] on. *)
Fixpoint descending (prev : Z) (shown : list Z) : Prop :=
  match shown with
  | [] => True
  | x :: later => x <= prev /\ descending x later
  end.

(** The progress notices of an output, as the remaining times shown. *)
Definition progress (ns : list Notice) : list Z :=
  flat_map (fun n => match n with Remaining _ r => [r] | _ => [] end) ns.

(** The number of "Completed" notices of an output. *)
Definition completions (ns : list Notice) : nat :=
  List.length
    (filter (fun n => match n with Completed _ => true | _ => false end) ns).

(** ** The history *)

(** A file made of whole lines. *)
Definition whole_lines (content : string) : Prop :=
  content = "" \/ exists p, content = p ++ nl.

(** A line that the buffer of a scanner can hold with its line feed. *)
Definition fits (line : string) : Prop :=
  Z.of_nat (String.length line) < MaxScanTokenSize.

(** The line of a record, without its line feed. *)
Definition record (task : Task) (now : Time) : string :=
  Name task ++ "|" ++ Duration_String (Duration task) ++ "|" ++ Format now.

(** ** Sample inputs *)

(** The no-break space U+00A0 and the capital I with a dot U+0130, in
    UTF-8. *)
Definition nbsp : string := String "194" (String "160" "").
Definition dotted_I : string := String "196" (String "176" "").

Fixpoint repeat_char (n : nat) (c : ascii) : string :=
  match n with O => "" | S n' => String c (repeat_char n' c) end.

(** A name of 65513 bytes with a ['|']: the line [add <name> -s 1] is
    within the buffer of the scanner of standard input, the record of
    the task in the history is not within that of [showHistory]. *)
Definition long_name : string :=
  String "|" (repeat_char (Z.to_nat 65512) "a").

Definition long_task : Task := {| Name := long_name; Duration := Second |}.

Definition noon : Time :=
  {| year := 2024; month := 3; day := 9; hour := 12; minute := 0;
     second := 0 |}.

Definition task_A : Task := {| Name := "A"; Duration := 3 * Second |}.

Definition task_a_b : Task := {| Name := "a|b"; Duration := Second |}.

(** Three tasks accepted, the first run to its end, the second popped. *)
Definition two_tasks : list Event :=
  [EvCmd "add A -s 3"; EvPop; EvStart 0; EvLog noon IoOk;
   EvCmd "add B -s 1"; EvCmd "add C -m 1"; EvTick (1 * Second);
   EvTick (2 * Second); EvTick (3 * Second); EvDone; EvPop].

Definition two_tasks_run : option (System * list Obs) :=
  Eval vm_compute in run (initial None) two_tasks.

(** A task is logged and the process ends before its timer has ticked. *)
Definition logged_then_exit : list Event :=
  [EvCmd "add A -s 3"; EvPop; EvLog noon IoOk; EvStart 0; EvCmd "exit"].

Definition logged_then_exit_run : option (System * list Obs) :=
  Eval vm_compute in run (initial None) logged_then_exit.

(** The inner loop with the timer of [task_A] ticking. *)
Definition ticking_A : System :=
  {| pc := Waiting task_A; taskQueue := []; timer := Ticking "A" (3 * Second);
     history := Some (entry task_A noon) |}.

(** ** Further notions *)

(** A task as the queue may hold it: a positive duration in range and a
    name that is not empty. *)
Definition valid_task (t : Task) : Prop :=
  0 < Duration t <= Int64.max_signed /\ Name t <> "".

(** The text of a flag of the set. *)
Definition flag_text (n : flag.Name) : string :=
  match n with
  | flag.FlagH => "h"
  | flag.FlagM => "m"
  | flag.FlagS => "s"
  end.

(** A number written in decimal, as [fmtInt] writes it. *)
Definition dec (n : Z) : string := fmtInt n "".

(** The clock readings of ticks that come once per second after
    [start], numbered from [k], each late by its entry in [late]. *)
Fixpoint on_time (start k : Z) (late : list Z) : list Z :=
  match late with
  | [] => []
  | j :: more => start + k * Second + j :: on_time start (k + 1) more
  end.

(** [n] seconds, [n - 1] seconds, and so on down to one second. *)
Fixpoint down (n : nat) : list Z :=
  match n with
  | O => []
  | S n' => Z.of_nat n * Second :: down n'
  end.

(** The content of the history file, empty when there is no file. *)
Definition content_of (file : option string) : string :=
  match file with Some c => c | None => "" end.

(** One call of [logHistory] after the other, each of them successful. *)
Fixpoint logAll (records : list (Task * Time)) (file : option string)
  : option string :=
  match records with
  | [] => file
  | (t, now) :: more => logAll more (fst (logHistory t now IoOk file))
  end.

(** The entries of tasks with their time stamps, one after the other. *)
Definition entries (records : list (Task * Time)) : string :=
  String.concat "" (map (fun r => entry (fst r) (snd r)) records).

(** The tasks logged in a run, all of them and those logged with
    success; the time stamps of the successful logs; the task popped
    and not yet logged. *)
Definition logged (obs : list Obs) : list Task :=
  flat_map (fun o => match o with Logged t _ => [t] | _ => [] end) obs.

Definition logged_ok (obs : list Obs) : list Task :=
  flat_map (fun o => match o with Logged t false => [t] | _ => [] end) obs.

Definition stamps_ok (evs : list Event) : list Time :=
  flat_map (fun ev => match ev with EvLog now IoOk => [now] | _ => [] end) evs.

Definition awaiting (st : System) : list Task :=
  match pc st with Logging t => [t] | _ => [] end.

(** A move in which no write to the history file stops half way. *)
Definition no_partial_write (ev : Event) : Prop :=
  match ev with EvLog _ (WriteFails _) => False | _ => True end.

(** The timer that is alive is the timer of the task that was popped
    last, and there is none at the top of the loop. *)
Definition timer_belongs (st : System) : Prop :=
  match pc st with
  | AtTop => timer st = NoTimer
  | Logging t | Waiting t =>
      timer st = Spawned t
      \/ (exists endTime, timer st = Ticking (Name t) endTime)
      \/ timer st = Closed
  | Exited => True
  end.

(** The task of a notice of the timer. *)
Definition notice_task (n : Notice) : string :=
  match n with Starting t _ | Remaining t _ | Completed t => t end.

(** The task that has been popped and is not yet seen done. *)
Definition running (st : System) : option Task :=
  match pc st with Logging t | Waiting t => Some t | _ => None end.

(** The observations of a run in which one timer runs at a time: with
    [cur] the task popped and not yet seen done, a task is popped only
    when there is none, a completion is seen only of [cur], and a timer
    prints only for [cur]. *)
Fixpoint one_timer (cur : option Task) (obs : list Obs) : bool :=
  match obs with
  | [] => true
  | Popped t :: later =>
      match cur with
      | None => one_timer (Some t) later
      | Some _ => false
      end
  | DoneSeen t :: later =>
      match cur with
      | Some t' => Task_eqb t t' && one_timer None later
      | None => false
      end
  | Timer n :: later =>
      match cur with
      | Some t' => (notice_task n =? Name t')%string && one_timer cur later
      | None => false
      end
  | _ :: later => one_timer cur later
  end.


(** A move of the timer goroutine. *)
Definition timer_tick (ev : Event) : Prop :=
  match ev with EvStart _ | EvTick _ => True | _ => False end.


(** A task of one second is accepted and popped, and its timer runs to
    its end while the main goroutine has not yet made the log. *)
Definition finished_before_log : list Event :=
  [EvCmd "add A -s 1"; EvPop; EvStart 0; EvTick (1 * Second)].

(** A move of the timer goroutine, or the main loop seeing it done. *)
Definition timer_move (ev : Event) : Prop :=
  match ev with EvStart _ | EvTick _ | EvDone => True | _ => False end.

(** [handleInput] on a standard input that delivers [stdin] (and then
    fails when [broken]): the lines sent on [cmdCh], in order, followed
    by the closing of the channel; and the error printed as "Input
    error" before the channel is closed, if any. *)
Definition handleInput (stdin : string) (broken : bool)
  : list Event * option ReadError :=
  let '(lines, err) := Scan stdin broken in
  ((map EvCmd lines ++ [EvClosed])%list, err).

(** A line that is answered with a message and nothing else: neither
    [exit] nor an accepted [add]. *)
Definition refused (line : string) : Prop :=
  match fst (processCommand line []) with
  | UnknownCommand | InvalidCommandFormat | ErrorParsingDuration _
  | DurationMustBePositive => True
  | _ => False
  end.

(** What is printed for the lines of a session. *)
Definition answers (lines : list string) : list Obs :=
  map (fun line => Said (fst (processCommand line []))) lines.

(** The end of a session: no task, no timer, the history as given. *)
Definition ended (file : option string) : System :=
  {| pc := Exited; taskQueue := []; timer := NoTimer; history := file |}.

(** * Properties *)

(** ** Strings *)

Lemma append_nil_r (s : string) : s ++ "" = s.
Proof. induction s as [|c s IH]; simpl; [reflexivity | now rewrite IH]. Qed.

Lemma append_assoc (a b c : string) : (a ++ b) ++ c = a ++ (b ++ c).
Proof. induction a as [|x a IH]; simpl; [reflexivity | now rewrite IH]. Qed.

Lemma append_char (a : string) (c : ascii) (b : string) :
  (a ++ String c "") ++ b = a ++ String c b.
Proof. now rewrite append_assoc. Qed.

Lemma length_append (a b : string) :
  String.length (a ++ b) = (String.length a + String.length b)%nat.
Proof. induction a as [|c a IH]; cbn; [reflexivity | now rewrite IH]. Qed.

Lemma all_chars_append p (a b : string) :
  all_chars p (a ++ b) = all_chars p a && all_chars p b.
Proof.
  induction a as [|c a IH]; simpl; [reflexivity|].
  now rewrite IH, andb_assoc.
Qed.

Lemma all_chars_weaken (p q : ascii -> bool) (s : string) :
  (forall c, p c = true -> q c = true) ->
  all_chars p s = true -> all_chars q s = true.
Proof.
  intros Hpq; induction s as [|c s IH]; simpl; [reflexivity|].
  intros H; apply andb_true_iff in H as [Hc Hs].
  now rewrite (Hpq _ Hc), IH.
Qed.

(** *** The UTF-8 decoder *)

(** What the table [first] says of a byte: the ranges accepted for a
    second byte lie within the continuation bytes, and a first byte is
    not one of them. *)
Lemma first_accept (b : Z) :
  match utf8.first b with
  | utf8.Lead2 lo hi | utf8.Lead3 lo hi | utf8.Lead4 lo hi =>
      128 <= lo /\ hi <= 191 /\ utf8.cont b = false
  | utf8.AsciiByte => b < 128
  | utf8.InvalidByte => True
  end.
Proof.
  unfold utf8.first, utf8.cont. split_tests; cbn; try exact I; try lia;
    repeat split; lia.
Qed.

Lemma accept_cont (lo hi x : Z) :
  128 <= lo -> hi <= 191 -> (x <? lo) || (hi <? x) = false ->
  utf8.cont x = true.
Proof. unfold utf8.cont. intros Hlo Hhi H. split_tests; cbn in *; try discriminate; try reflexivity; lia. Qed.

Lemma reject_boundary (lo hi x : Z) :
  128 <= lo -> hi <= 191 -> utf8.cont x = false ->
  (x <? lo) || (hi <? x) = true.
Proof. unfold utf8.cont. intros Hlo Hhi H. split_tests; cbn in *; try discriminate; try reflexivity; lia. Qed.

Lemma Decode_ascii (c : ascii) (s : string) :
  isASCII_byte c = true ->
  utf8.DecodeRuneInString (String c s) = (byte_of c, 1%nat).
Proof.
  unfold isASCII_byte, utf8.DecodeRuneInString, utf8.first. intros H.
  now rewrite H.
Qed.

Lemma Decode_cont (c : ascii) (s : string) :
  utf8.cont (byte_of c) = true ->
  utf8.DecodeRuneInString (String c s) = (utf8.RuneError, 1%nat).
Proof.
  unfold utf8.cont, utf8.DecodeRuneInString, utf8.first. intros H.
  apply andb_true_iff in H as [H1 H2]. apply Z.leb_le in H1, H2.
  destruct (Z.ltb_spec (byte_of c) 128); [lia|].
  destruct (Z.ltb_spec (byte_of c) 194); [reflexivity | lia].
Qed.

(** The width of a rune is at least one byte, and the bytes after the
    first are continuation bytes of the string. *)
Lemma Decode_size (c : ascii) (s : string) :
  exists k, snd (utf8.DecodeRuneInString (String c s)) = S k
            /\ cont_prefix k s.
Proof.
  unfold utf8.DecodeRuneInString.
  pose proof (first_accept (byte_of c)) as Hf.
  destruct (utf8.first (byte_of c)) as [| |lo hi|lo hi|lo hi];
    try (exists 0%nat; split; [reflexivity | exact I]);
    destruct Hf as (Hlo & Hhi & _);
    destruct s as [|c1 s]; try (exists 0%nat; split; [reflexivity | exact I]);
    destruct ((byte_of c1 <? lo) || (hi <? byte_of c1)) eqn:H1;
    try (exists 0%nat; split; [reflexivity | exact I]);
    pose proof (accept_cont _ _ _ Hlo Hhi H1) as C1.
  - exists 1%nat. split; [reflexivity | now split].
  - destruct s as [|c2 s]; [exists 0%nat; split; [reflexivity | exact I]|].
    destruct (utf8.cont (byte_of c2)) eqn:C2; cbn [negb];
      [|exists 0%nat; split; [reflexivity | exact I]].
    exists 2%nat. split; [reflexivity | now repeat split].
  - destruct s as [|c2 s]; [exists 0%nat; split; [reflexivity | exact I]|].
    destruct (utf8.cont (byte_of c2)) eqn:C2; cbn [negb];
      [|exists 0%nat; split; [reflexivity | exact I]].
    destruct s as [|c3 s]; [exists 0%nat; split; [reflexivity | exact I]|].
    destruct (utf8.cont (byte_of c3)) eqn:C3; cbn [negb];
      [|exists 0%nat; split; [reflexivity | exact I]].
    exists 3%nat. split; [reflexivity | now repeat split].
Qed.

(** A rune that is read from a string is read from every extension of
    the string. *)
Lemma Decode_ext (a b : string) (r : Z) (n : nat) :
  utf8.DecodeRuneInString a = (r, n) -> r <> utf8.RuneError ->
  utf8.DecodeRuneInString (a ++ b) = (r, n).
Proof.
  destruct a as [|c0 a]; [intros [= <- _] H; now contradiction H|].
  cbn [append]. unfold utf8.DecodeRuneInString.
  destruct (utf8.first (byte_of c0)) as [| |lo hi|lo hi|lo hi];
    try (intros H _; exact H);
    (destruct a as [|c1 a]; [intros [= <- _] H; now contradiction H|]);
    cbn [append];
    (destruct ((byte_of c1 <? lo) || (hi <? byte_of c1));
     [intros H _; exact H|]).
  - intros H _; exact H.
  - destruct a as [|c2 a]; [intros [= <- _] H; now contradiction H|].
    cbn [append]. intros H _; exact H.
  - destruct a as [|c2 a]; [intros [= <- _] H; now contradiction H|].
    cbn [append]. destruct (negb (utf8.cont (byte_of c2)));
      [intros H _; exact H|].
    destruct a as [|c3 a]; [intros [= <- _] H; now contradiction H|].
    cbn [append]. intros H _; exact H.
Qed.

(** What follows a string does not change the rune at its head when it
    does not start with a continuation byte. *)
Lemma Decode_boundary (a b : string) :
  a <> "" -> boundary b ->
  utf8.DecodeRuneInString (a ++ b) = utf8.DecodeRuneInString a.
Proof.
  intros Ha Hb. destruct a as [|c0 a]; [contradiction|].
  cbn [append]. unfold utf8.DecodeRuneInString.
  pose proof (first_accept (byte_of c0)) as Hf.
  assert (Hcut : forall lo hi, 128 <= lo -> hi <= 191 ->
            match b with
            | EmptyString => True
            | String cb _ => (byte_of cb <? lo) || (hi <? byte_of cb) = true
                             /\ negb (utf8.cont (byte_of cb)) = true
            end).
  { intros lo hi Hlo Hhi. destruct b as [|cb b]; [exact I|]. cbn in Hb.
    split; [now apply reject_boundary | now rewrite Hb]. }
  destruct (utf8.first (byte_of c0)) as [| |lo hi|lo hi|lo hi];
    try reflexivity; destruct Hf as (Hlo & Hhi & _);
    specialize (Hcut lo hi Hlo Hhi).
  - destruct a as [|c1 a]; cbn [append]; [|reflexivity].
    destruct b as [|cb b]; [reflexivity|]. now rewrite (proj1 Hcut).
  - destruct a as [|c1 a]; cbn [append].
    { destruct b as [|cb b]; [reflexivity|]. now rewrite (proj1 Hcut). }
    destruct ((byte_of c1 <? lo) || (hi <? byte_of c1)); [reflexivity|].
    destruct a as [|c2 a]; cbn [append]; [|reflexivity].
    destruct b as [|cb b]; [reflexivity|]. now rewrite (proj2 Hcut).
  - destruct a as [|c1 a]; cbn [append].
    { destruct b as [|cb b]; [reflexivity|]. now rewrite (proj1 Hcut). }
    destruct ((byte_of c1 <? lo) || (hi <? byte_of c1)); [reflexivity|].
    destruct a as [|c2 a]; cbn [append].
    { destruct b as [|cb b]; [reflexivity|]. now rewrite (proj2 Hcut). }
    destruct (negb (utf8.cont (byte_of c2))); [reflexivity|].
    destruct a as [|c3 a]; cbn [append]; [|reflexivity].
    destruct b as [|cb b]; [reflexivity|]. now rewrite (proj2 Hcut).
Qed.

(** *** White space in a string of bytes *)

Lemma IsSpace_ascii (c : ascii) :
  isASCII_byte c = true -> unicode.IsSpace (byte_of c) = isSpace c.
Proof.
  unfold isASCII_byte, unicode.IsSpace, isSpace. intros H.
  apply Z.ltb_lt in H. cbv zeta.
  destruct (Z.leb_spec (byte_of c) 255); [|lia].
  destruct (Z.eqb_spec (byte_of c) 133); [lia|].
  destruct (Z.eqb_spec (byte_of c) 160); [lia|].
  now rewrite !orb_false_r.
Qed.

Lemma space_width_ascii (c : ascii) (s : string) :
  isASCII_byte c = true ->
  space_width (String c s) = if isSpace c then 1%nat else 0%nat.
Proof.
  intros H. unfold space_width. now rewrite Decode_ascii, IsSpace_ascii.
Qed.

Lemma space_width_cont (c : ascii) (s : string) :
  utf8.cont (byte_of c) = true -> space_width (String c s) = 0%nat.
Proof. intros H. unfold space_width. now rewrite Decode_cont. Qed.

Lemma space_width_ext (a b : string) (w : nat) :
  space_width a = S w -> space_width (a ++ b) = S w.
Proof.
  unfold space_width.
  destruct (utf8.DecodeRuneInString a) as [r n] eqn:E.
  destruct (unicode.IsSpace r) eqn:Hs; [|discriminate].
  intros ->. rewrite (Decode_ext a b r (S w) E); [now rewrite Hs|].
  intros ->. discriminate Hs.
Qed.

Lemma space_width_boundary (a b : string) :
  a <> "" -> boundary b -> space_width (a ++ b) = space_width a.
Proof. intros Ha Hb. unfold space_width. now rewrite Decode_boundary. Qed.

(** The bytes of ASCII white space do not occur where no white-space
    rune starts. *)
Lemma space_width_byte (c : ascii) (s : string) :
  space_width (String c s) = 0%nat -> isSpace c = false.
Proof.
  destruct (isASCII_byte c) eqn:Ha.
  - rewrite (space_width_ascii _ _ Ha). now destruct (isSpace c).
  - intros _. unfold isASCII_byte in Ha. unfold isSpace. cbv zeta.
    apply Z.ltb_ge in Ha.
    destruct (Z.leb_spec (byte_of c) 13), (Z.eqb_spec (byte_of c) 32);
      try lia; now rewrite andb_false_r.
Qed.

Lemma clean_in_app (a b rest : string) :
  clean_in (a ++ b) rest = clean_in a (b ++ rest) && clean_in b rest.
Proof.
  induction a as [|c a IH]; [reflexivity|].
  cbn [append clean_in]. now rewrite IH, append_assoc, andb_assoc.
Qed.

Lemma clean_in_clean (t rest : string) :
  clean_in t rest = true -> clean t = true.
Proof.
  unfold clean. induction t as [|c t IH]; [reflexivity|].
  cbn [clean_in]. intros H. apply andb_true_iff in H as [H0 Ht].
  rewrite (IH Ht), andb_true_r. rewrite append_nil_r.
  apply Nat.eqb_eq in H0. apply Nat.eqb_eq.
  destruct (space_width (String c t)) as [|w] eqn:E; [reflexivity|].
  now rewrite (space_width_ext _ rest _ E) in H0.
Qed.

Lemma clean_boundary (t rest : string) :
  clean t = true -> boundary rest -> clean_in t rest = true.
Proof.
  unfold clean. intros H Hb. induction t as [|c t IH]; [reflexivity|].
  cbn [clean_in] in *. apply andb_true_iff in H as [H0 Ht].
  rewrite (IH Ht), andb_true_r.
  rewrite space_width_boundary by (discriminate || assumption).
  now rewrite append_nil_r in H0.
Qed.

Lemma clean_in_snoc (cur : string) (c : ascii) (s : string) :
  clean_in cur (String c s) = true -> space_width (String c s) = 0%nat ->
  clean_in (cur ++ String c "") s = true.
Proof.
  intros H H0. rewrite clean_in_app. cbn [clean_in append].
  now rewrite H, H0.
Qed.

(** A word of ASCII is clean whatever follows it. *)
Lemma ascii_word_clean (t rest : string) :
  all_chars ascii_word t = true -> clean_in t rest = true.
Proof.
  induction t as [|c t IH]; [reflexivity|].
  cbn [all_chars clean_in append]. intros H.
  apply andb_true_iff in H as [Hc Ht]. unfold ascii_word in Hc.
  apply andb_true_iff in Hc as [Ha Hs]. apply negb_true_iff in Hs.
  now rewrite (space_width_ascii _ _ Ha), Hs, IH.
Qed.

Lemma token_ascii (t : string) :
  t <> "" -> all_chars ascii_word t = true -> token t.
Proof. intros Hne H. split; [exact Hne | now apply ascii_word_clean]. Qed.

(** A token stays one when a word of ASCII is put in front of it. *)
Lemma token_prepend (a b : string) :
  all_chars ascii_word a = true -> token b -> token (a ++ b).
Proof.
  intros Ha [Hne Hb]. split.
  - destruct a; [exact Hne | discriminate].
  - unfold clean in *. now rewrite clean_in_app, Hb, ascii_word_clean.
Qed.

Lemma clean_no_space (t : string) :
  clean t = true -> all_chars (fun c => negb (isSpace c)) t = true.
Proof.
  unfold clean. induction t as [|c t IH]; [reflexivity|].
  cbn [clean_in all_chars]. intros H. apply andb_true_iff in H as [H0 Ht].
  apply Nat.eqb_eq in H0. rewrite append_nil_r in H0.
  now rewrite (space_width_byte _ _ H0), IH.
Qed.

(** *** The fields of a string *)

Lemma fields_bytes_tokens (s cur : string) (k : nat) :
  (k = 0%nat -> clean_in cur s = true) -> (k <> 0%nat -> cur = "") ->
  Forall token (fields_bytes cur k s).
Proof.
  revert cur k; induction s as [|c s IH]; intros cur k Hc Hk.
  - cbn [fields_bytes]. destruct (String.eqb_spec cur ""); constructor;
      [|constructor].
    destruct k as [|k]; [|now contradiction n; apply Hk].
    split; [assumption | exact (clean_in_clean _ _ (Hc eq_refl))].
  - cbn [fields_bytes]. destruct k as [|k].
    + specialize (Hc eq_refl).
      destruct (space_width (String c s)) as [|w] eqn:E.
      * apply IH; [intros _; now apply clean_in_snoc | intros H; now contradiction H].
      * assert (Hrest : Forall token (fields_bytes "" w s)).
        { apply IH; [intros _; reflexivity | reflexivity]. }
        destruct (String.eqb_spec cur ""); [exact Hrest|].
        constructor; [|exact Hrest].
        split; [assumption | exact (clean_in_clean _ _ Hc)].
    + rewrite (Hk ltac:(discriminate)).
      apply IH; [intros _; reflexivity | reflexivity].
Qed.

Lemma fields_bytes_run (t cur rest : string) :
  clean_in t rest = true ->
  fields_bytes cur 0 (t ++ rest) = fields_bytes (cur ++ t) 0 rest.
Proof.
  revert cur; induction t as [|c t IH]; intros cur H.
  - now rewrite append_nil_r.
  - cbn [clean_in] in H. apply andb_true_iff in H as [H0 Ht].
    apply Nat.eqb_eq in H0. cbn [append fields_bytes] in *.
    now rewrite H0, IH, append_char.
Qed.

Lemma fields_bytes_space (cur rest : string) :
  fields_bytes cur 0 (String " " rest)
  = if (cur =? "")%string then fields_bytes "" 0 rest
    else cur :: fields_bytes "" 0 rest.
Proof.
  cbn [fields_bytes]. now rewrite (space_width_ascii " " rest eq_refl).
Qed.

Lemma fields_bytes_Join (toks : list string) :
  Forall token toks -> fields_bytes "" 0 (Join toks " ") = toks.
Proof.
  unfold Join.
  induction 1 as [|t toks [Hne Ht] Htoks IH]; [reflexivity|].
  cbn [String.concat]. destruct toks as [|t' toks].
  - rewrite <- (append_nil_r t) at 1.
    rewrite fields_bytes_run by exact Ht. cbn.
    now destruct (String.eqb_spec t "").
  - rewrite fields_bytes_run by (now apply clean_boundary).
    cbn [append]. rewrite fields_bytes_space.
    destruct (String.eqb_spec t ""); [contradiction|].
    now rewrite IH.
Qed.

(** The two paths of [strings.Fields] give the fields read byte by
    byte. *)
Lemma Fields_from_bytes (s cur : string) :
  isASCII s = true -> Fields_from cur s = fields_bytes cur 0 s.
Proof.
  revert cur; induction s as [|c s IH]; intros cur H; [reflexivity|].
  cbn [isASCII] in H. apply andb_true_iff in H as [Hc Hs].
  cbn [Fields_from fields_bytes]. rewrite (space_width_ascii _ _ Hc).
  destruct (isSpace c); now rewrite !IH.
Qed.

Lemma substring_cons (c : ascii) (s : string) (k : nat) :
  String.substring 0 (S k) (String c s) = String c (String.substring 0 k s).
Proof. reflexivity. Qed.

Lemma FieldsFunc_from_bytes (s cur : string) (k : nat) :
  cont_prefix k s ->
  FieldsFunc_from unicode.IsSpace (cur ++ String.substring 0 k s)
                  (range_from k s)
  = fields_bytes cur 0 s
  /\ FieldsFunc_from unicode.IsSpace "" (range_from k s)
     = fields_bytes "" k s.
Proof.
  revert cur k; induction s as [|c s IH]; intros cur k Hk.
  - destruct k as [|k]; [|contradiction]. cbn. now rewrite append_nil_r.
  - assert (Hhead : forall cur,
               FieldsFunc_from unicode.IsSpace cur (range_from 0 (String c s))
               = fields_bytes cur 0 (String c s)).
    { clear cur k Hk. intros cur. cbn [range_from fields_bytes].
      unfold space_width.
      destruct (Decode_size c s) as (k0 & Hsize & Hcont).
      destruct (utf8.DecodeRuneInString (String c s)) as [r size].
      cbn [snd] in Hsize. subst size.
      cbn [FieldsFunc_from]. rewrite Nat.sub_succ, Nat.sub_0_r.
      destruct (IH (cur ++ String c "") k0 Hcont) as [HA HB].
      destruct (unicode.IsSpace r).
      - now rewrite HB.
      - rewrite substring_cons, <- append_char. exact HA. }
    destruct k as [|k].
    + cbn [String.substring]. rewrite append_nil_r. split; apply Hhead.
    + destruct Hk as [Hc Hk]. cbn [range_from fields_bytes].
      rewrite (space_width_cont _ _ Hc).
      destruct (IH (cur ++ String c "") k Hk) as [HA HB].
      split; [|exact HB].
      rewrite substring_cons, <- append_char. exact HA.
Qed.

Lemma Fields_bytes (s : string) : Fields s = fields_bytes "" 0 s.
Proof.
  unfold Fields, FieldsFunc, range_string.
  destruct (isASCII s) eqn:H; [now apply Fields_from_bytes|].
  exact (proj2 (FieldsFunc_from_bytes s "" 0 I)).
Qed.

Lemma Fields_tokens (s : string) : Forall token (Fields s).
Proof.
  rewrite Fields_bytes. apply fields_bytes_tokens; [reflexivity|].
  intros H; now contradiction H.
Qed.

(** Joining tokens with single spaces and splitting again gives the
    tokens back. *)
Lemma Fields_Join (toks : list string) :
  Forall token toks -> Fields (Join toks " ") = toks.
Proof. rewrite Fields_bytes. apply fields_bytes_Join. Qed.

Lemma Forall_token_app (a b : list string) :
  Forall token (a ++ b)%list -> Forall token a /\ Forall token b.
Proof. apply Forall_app. Qed.

Lemma HasPrefix_inv (s pre : string) :
  HasPrefix s pre = true -> exists r, s = pre ++ r.
Proof.
  unfold HasPrefix. revert s; induction pre as [|c pre IH]; intros s H.
  - exists s. reflexivity.
  - destruct s as [|c' s]; [discriminate|]. cbn [String.prefix] in H.
    destruct (ascii_dec c c'); [subst c'|discriminate].
    destruct (IH _ H) as [r ->]. now exists r.
Qed.

(** A line with the prefix ["add "] has ["add"] as its first field and is
    not the [exit] command. *)
Lemma Fields_add (cmd : string) :
  HasPrefix cmd "add " = true -> exists args, Fields cmd = "add" :: args.
Proof.
  intros H. apply HasPrefix_inv in H as [r ->]. rewrite Fields_bytes.
  change ("add " ++ r) with ("add" ++ String " " r).
  rewrite fields_bytes_run by (now apply ascii_word_clean).
  rewrite fields_bytes_space. now eexists.
Qed.

Lemma add_not_exit (cmd : string) :
  HasPrefix cmd "add " = true -> (ToLower cmd =? "exit")%string = false.
Proof.
  intros H. apply HasPrefix_inv in H as [r ->].
  unfold ToLower. change (isASCII ("add " ++ r)) with (isASCII r).
  destruct (isASCII r).
  - change (hasUpper ("add " ++ r)) with (hasUpper r).
    destruct (hasUpper r); reflexivity.
  - reflexivity.
Qed.

(** ** The command dispatcher *)

Lemma flagsIndex_from_none (args : list string) (i : nat) :
  Forall (fun a => dash a = false) args -> flagsIndex_from i args = 0%nat.
Proof.
  intros H; revert i; induction H as [|a args Ha _ IH]; intros i; simpl.
  - reflexivity.
  - unfold dash in Ha. now rewrite Ha.
Qed.

Lemma flagsIndex_from_first (pre : list string) (tok : string)
      (post : list string) (i : nat) :
  Forall (fun a => dash a = false) pre -> dash tok = true ->
  flagsIndex_from i (pre ++ tok :: post) = (i + List.length pre)%nat.
Proof.
  intros H Htok; revert i; induction H as [|a pre Ha _ IH]; intros i; simpl.
  - unfold dash in Htok. rewrite Htok. lia.
  - unfold dash in Ha. rewrite Ha, IH. lia.
Qed.

Lemma firstn_length_app {A} (a b : list A) :
  firstn (List.length a) (a ++ b) = a.
Proof. induction a as [|x a IH]; simpl; [now destruct b | now rewrite IH]. Qed.

Lemma skipn_length_app {A} (a b : list A) :
  skipn (List.length a) (a ++ b) = b.
Proof. induction a as [|x a IH]; simpl; [reflexivity | exact IH]. Qed.

Lemma processCommand_add (cmd : string) (q : list Task) (args : list string) :
  HasPrefix cmd "add " = true -> Fields cmd = "add" :: args ->
  processCommand cmd q =
    let i := flagsIndex_from 0 args in
    if (i =? 0)%nat then (InvalidCommandFormat, q)
    else enqueue (Join (firstn i args) " ") (Join (skipn i args) " ") q.
Proof.
  intros Hp Hf. unfold processCommand, enqueue.
  now rewrite (add_not_exit _ Hp), Hp, Hf.
Qed.

(** C1, as the code has it: an [add] line none of whose arguments
    starts with ['-'] (as [add X]) is refused by the test
    [flagsIndex == 0] with "Invalid command format"; the duration
    parser is not consulted, and no task is enqueued. *)
Theorem add_without_dash_is_invalid_format
        (cmd : string) (q : list Task) (args : list string) :
  HasPrefix cmd "add " = true ->
  Fields cmd = "add" :: args ->
  Forall (fun a => dash a = false) args ->
  processCommand cmd q = (InvalidCommandFormat, q).
Proof.
  intros Hp Hf Hn. rewrite (processCommand_add _ _ _ Hp Hf).
  now rewrite flagsIndex_from_none.
Qed.

Lemma add_without_dash_is_invalid_format_witness :
  (Fields "add Study Session" = ["add"; "Study"; "Session"]
   /\ processCommand "add Study Session" [] = (InvalidCommandFormat, []))
  /\ (Fields ("add A" ++ nbsp ++ "B") = ["add"; "A"; "B"]
      /\ processCommand ("add A" ++ nbsp ++ "B") []
         = (InvalidCommandFormat, [])).
Proof.
  split; (split; [vm_compute; reflexivity|]).
  - apply (add_without_dash_is_invalid_format
             "add Study Session" [] ["Study"; "Session"]).
    + reflexivity.
    + vm_compute; reflexivity.
    + repeat constructor.
  - apply (add_without_dash_is_invalid_format
             ("add A" ++ nbsp ++ "B") [] ["A"; "B"]).
    + reflexivity.
    + vm_compute; reflexivity.
    + repeat constructor.
Defined.

(** C1 as stated fails at [add X]: the line is refused with "Invalid
    command format" and not with "Duration must be positive", which is
    what the name ["X"] with the duration text [""] (parsed as 0) would
    give past that test. *)
Lemma add_X_is_invalid_format :
  processCommand "add X" [] = (InvalidCommandFormat, [])
  /\ processCommand "add X" [] <> (DurationMustBePositive, [])
  /\ parseDuration "" = inl 0
  /\ enqueue "X" "" [] = (DurationMustBePositive, []).
Proof.
  repeat split; try reflexivity. discriminate.
Qed.

(** C2: on an [add] line, with [tok] the first token that starts with
    ['-'], [pre] the tokens before it and [post] those after it: when
    [pre] is empty the line is refused and nothing is enqueued;
    otherwise the task name is [pre] joined by single spaces, the
    duration parser reads exactly the tokens [tok :: post], and only its
    answer decides between a refusal and the task enqueued at the tail. *)
Theorem name_is_tokens_before_first_dash
        (cmd : string) (q : list Task) (pre : list string) (tok : string)
        (post : list string) :
  HasPrefix cmd "add " = true ->
  Fields cmd = "add" :: (pre ++ tok :: post)%list ->
  Forall (fun a => dash a = false) pre ->
  dash tok = true ->
  Fields (Join (tok :: post) " ") = tok :: post
  /\ processCommand cmd q =
       match pre with
       | [] => (InvalidCommandFormat, q)
       | _ :: _ =>
           match parseDuration (Join (tok :: post) " ") with
           | inr err => (ErrorParsingDuration err, q)
           | inl duration =>
               if duration <=? 0 then (DurationMustBePositive, q)
               else
                 let t := {| Name := Join pre " "; Duration := duration |} in
                 (AddedTask t, (q ++ [t])%list)
           end
       end.
Proof.
  intros Hp Hf Hpre Htok. split.
  - apply Fields_Join.
    pose proof (Fields_tokens cmd) as Ht. rewrite Hf in Ht.
    apply Forall_inv_tail in Ht.
    now apply Forall_token_app in Ht as [_ Ht].
  - rewrite (processCommand_add _ _ _ Hp Hf).
    rewrite (flagsIndex_from_first _ _ _ _ Hpre Htok).
    cbv zeta. rewrite Nat.add_0_l, firstn_length_app, skipn_length_app.
    destruct pre as [|p pre]; reflexivity.
Qed.

(** [add Study Session -m 25] gives the name "Study Session" and 25
    minutes; [add -m 5] is refused and nothing is enqueued; and with a
    no-break space between [A] and [B] the name is "A B", the two words
    joined by a space. *)
Lemma name_is_tokens_before_first_dash_witness :
  (Fields "-m 25" = ["-m"; "25"]
   /\ processCommand "add Study Session -m 25" []
      = (AddedTask {| Name := "Study Session"; Duration := 25 * Minute |},
         [{| Name := "Study Session"; Duration := 25 * Minute |}]))
  /\ (Fields "-m 5" = ["-m"; "5"]
      /\ processCommand "add -m 5" [] = (InvalidCommandFormat, []))
  /\ (Fields "-s 1" = ["-s"; "1"]
      /\ processCommand ("add A" ++ nbsp ++ "B -s 1") []
         = (AddedTask {| Name := "A B"; Duration := Second |},
            [{| Name := "A B"; Duration := Second |}])).
Proof.
  split; [|split].
  - apply (name_is_tokens_before_first_dash
             "add Study Session -m 25" [] ["Study"; "Session"] "-m" ["25"]).
    + reflexivity.
    + vm_compute; reflexivity.
    + repeat constructor.
    + reflexivity.
  - apply (name_is_tokens_before_first_dash "add -m 5" [] [] "-m" ["5"]).
    + reflexivity.
    + vm_compute; reflexivity.
    + constructor.
    + reflexivity.
  - apply (name_is_tokens_before_first_dash
             ("add A" ++ nbsp ++ "B -s 1") [] ["A"; "B"] "-s" ["1"]).
    + reflexivity.
    + vm_compute; reflexivity.
    + repeat constructor.
    + reflexivity.
Defined.

(** ** Machine arithmetic *)

Lemma wrap_small (x : Z) : Int64.in_range x -> Int64.wrap x = x.
Proof.
  unfold Int64.in_range, Int64.wrap, Int64.min_signed, Int64.max_signed,
    Int64.modulus.
  intros H. destruct (Z_lt_le_dec x 0).
  - replace (x mod 2 ^ 64) with (x + 2 ^ 64)
      by (apply Z.mod_unique with (-1); lia).
    destruct (Z.leb_spec (x + 2 ^ 64) (2 ^ 63 - 1)); lia.
  - rewrite Z.mod_small by lia.
    destruct (Z.leb_spec x (2 ^ 63 - 1)); lia.
Qed.

Lemma wrap_mod (x : Z) : Int64.wrap x mod Int64.modulus = x mod Int64.modulus.
Proof.
  unfold Int64.wrap.
  destruct (x mod Int64.modulus <=? Int64.max_signed).
  - apply Z.mod_mod. discriminate.
  - rewrite Zminus_mod, Z_mod_same_full, Z.sub_0_r, !Z.mod_mod; try discriminate.
    reflexivity.
Qed.

Lemma wrap_congr (x y : Z) :
  x mod Int64.modulus = y mod Int64.modulus -> Int64.wrap x = Int64.wrap y.
Proof. unfold Int64.wrap. now intros ->. Qed.

Lemma wrap_add_l (x y : Z) : Int64.wrap (Int64.wrap x + y) = Int64.wrap (x + y).
Proof.
  apply wrap_congr.
  now rewrite Zplus_mod, wrap_mod, <- Zplus_mod.
Qed.

Lemma wrap_add_r (x y : Z) : Int64.wrap (x + Int64.wrap y) = Int64.wrap (x + y).
Proof. now rewrite Z.add_comm, wrap_add_l, Z.add_comm. Qed.

(** ** The duration parser *)

Lemma parseDuration_parsed (input : string) (fs : flag.FlagSet) :
  flag.Parse flag.NewFlagSet (Fields input) = inl fs ->
  parseDuration input =
    if (flag.h fs <? 0) || (flag.m fs <? 0) || (flag.s fs <? 0)
    then inr NegativeValues
    else inl (Int64.wrap (flag.h fs * Hour + flag.m fs * Minute
                          + flag.s fs * Second)).
Proof.
  intros H. unfold parseDuration. rewrite H.
  destruct (_ || _); [reflexivity|].
  unfold Int64.add, Int64.mul.
  rewrite wrap_add_r, wrap_add_l.
  rewrite <- Z.add_assoc, wrap_add_l.
  rewrite Z.add_assoc, (Z.add_comm (_ * Hour)), <- Z.add_assoc, wrap_add_l.
  apply f_equal, f_equal. ring.
Qed.

Lemma parseDuration_failed (input : string) (e : flag.Error) :
  flag.Parse flag.NewFlagSet (Fields input) = inr e ->
  parseDuration input = inr (FlagError e).
Proof. intros H. unfold parseDuration. now rewrite H. Qed.

(** C3, as the code has it: when the flags parse to [h], [m] and [s]
    (each 0 unless given), a negative one gives the error "negative
    values not allowed" and never a duration; otherwise the duration is
    [h] hours plus [m] minutes plus [s] seconds computed in 64-bit
    nanoseconds, which is [h*3600 + m*60 + s] seconds whenever that
    total fits. *)
Theorem parseDuration_sums_flags (input : string) (fs : flag.FlagSet) :
  flag.Parse flag.NewFlagSet (Fields input) = inl fs ->
  let h := flag.h fs in
  let m := flag.m fs in
  let s := flag.s fs in
  (h < 0 \/ m < 0 \/ s < 0 -> parseDuration input = inr NegativeValues)
  /\ (0 <= h /\ 0 <= m /\ 0 <= s ->
      parseDuration input
      = inl (Int64.wrap ((h * 3600 + m * 60 + s) * Second))
      /\ ((h * 3600 + m * 60 + s) * Second <= Int64.max_signed ->
          parseDuration input = inl ((h * 3600 + m * 60 + s) * Second))).
Proof.
  intros H h m s. rewrite (parseDuration_parsed _ _ H).
  fold h m s. split.
  - intros Hneg.
    destruct (Z.ltb_spec h 0), (Z.ltb_spec m 0), (Z.ltb_spec s 0);
      try reflexivity; lia.
  - intros (Hh & Hm & Hs).
    destruct (Z.ltb_spec h 0), (Z.ltb_spec m 0), (Z.ltb_spec s 0); try lia.
    cbn [orb].
    replace (h * Hour + m * Minute + s * Second)
      with ((h * 3600 + m * 60 + s) * Second)
      by (unfold Hour, Minute; ring).
    split; [reflexivity|].
    intros Hfit. rewrite wrap_small; [reflexivity|].
    unfold Int64.in_range, Int64.min_signed, Second, Millisecond,
      Microsecond, Nanosecond in *. lia.
Qed.

(** [-h 1 -m 2 -s 3] is exactly 3723 seconds, and [-s -1] is an error. *)
Lemma parseDuration_sums_flags_witness :
  (flag.Parse flag.NewFlagSet (Fields "-h 1 -m 2 -s 3")
   = inl {| flag.h := 1; flag.m := 2; flag.s := 3 |}
   /\ parseDuration "-h 1 -m 2 -s 3" = inl (3723 * Second))
  /\ (flag.Parse flag.NewFlagSet (Fields "-s -1")
      = inl {| flag.h := 0; flag.m := 0; flag.s := -1 |}
      /\ parseDuration "-s -1" = inr NegativeValues).
Proof.
  split; (split; [reflexivity|]).
  - apply (parseDuration_sums_flags "-h 1 -m 2 -s 3"
             {| flag.h := 1; flag.m := 2; flag.s := 3 |} eq_refl).
    + cbn. lia.
    + vm_compute. discriminate.
  - apply (parseDuration_sums_flags "-s -1"
             {| flag.h := 0; flag.m := 0; flag.s := -1 |} eq_refl).
    cbn. lia.
Defined.

(** C3 as stated fails where the total leaves the 64-bit range: the
    flags of [-h 2562048] parse to 2562048 hours, none negative, and the
    duration returned is negative, not 2562048 * 3600 seconds. *)
Lemma parseDuration_sum_wraps :
  flag.Parse flag.NewFlagSet (Fields "-h 2562048")
  = inl {| flag.h := 2562048; flag.m := 0; flag.s := 0 |}
  /\ parseDuration "-h 2562048" = inl (-9223371273709551616)
  /\ parseDuration "-h 2562048"
     <> inl ((2562048 * 3600 + 0 * 60 + 0) * Second).
Proof.
  split; [reflexivity|]. split; [reflexivity|].
  vm_compute. discriminate.
Qed.

(** *** The scan of the flag set *)

Section ParseSteps.

Import flag.

Variables (f : FlagSet) (tok : string) (rest : list string).

Lemma Parse_stop :
  non_flag tok = true \/ tok = "--" -> Parse f (tok :: rest) = inl f.
Proof.
  intros [H | ->]; cbn [Parse]; [now rewrite H | reflexivity].
Qed.

Hypothesis Hflag : non_flag tok = false.
Hypothesis Hterm : tok <> "--".

Lemma Parse_flag :
  Parse f (tok :: rest) =
    match skip (numMinuses tok) tok with
    | EmptyString => inr (BadFlagSyntax tok)
    | String c _ =>
        if Ascii.eqb c "-" || Ascii.eqb c "="
        then inr (BadFlagSyntax tok)
        else
          let '(name, value) := name_value tok in
          match formal name with
          | None =>
              if (name =? "help")%string || (name =? "h")%string
              then inr ErrHelp
              else inr (NotDefined name)
          | Some n =>
              match value with
              | Some v =>
                  match Set_ f n v name with
                  | inl f' => Parse f' rest
                  | inr e => inr e
                  end
              | None =>
                  match rest with
                  | [] => inr (NeedsArgument name)
                  | v :: rest' =>
                      match Set_ f n v name with
                      | inl f' => Parse f' rest'
                      | inr e => inr e
                      end
                  end
              end
          end
    end.
Proof.
  cbn [Parse]. rewrite Hflag.
  destruct (String.eqb_spec tok "--"); [contradiction | reflexivity].
Qed.

Lemma formal_first (name : string) (n : Name) :
  formal name = Some n ->
  exists c r, name = String c r
              /\ Ascii.eqb c "-" || Ascii.eqb c "=" = false.
Proof.
  unfold formal. intros H.
  destruct (String.eqb_spec name "h") as [->|_]; [now eexists _, _|].
  destruct (String.eqb_spec name "m") as [->|_]; [now eexists _, _|].
  destruct (String.eqb_spec name "s") as [->|_]; [now eexists _, _|].
  discriminate.
Qed.

Lemma split_value_first (c : ascii) (r name : string) (v : option string) :
  split_value (String c r) = (name, v) -> exists r', name = String c r'.
Proof.
  cbn [split_value]. destruct (cut_equals r) as [n' v'].
  intros [= <- _]. now eexists.
Qed.

(** A flag of the set: the text after the dashes is well formed. *)
Lemma Parse_known (name : string) (value : option string) (n : Name) :
  name_value tok = (name, value) -> formal name = Some n ->
  Parse f (tok :: rest) =
    match value with
    | Some v =>
        match Set_ f n v name with
        | inl f' => Parse f' rest
        | inr e => inr e
        end
    | None =>
        match rest with
        | [] => inr (NeedsArgument name)
        | v :: rest' =>
            match Set_ f n v name with
            | inl f' => Parse f' rest'
            | inr e => inr e
            end
        end
    end.
Proof.
  intros Hnv Hn. rewrite Parse_flag, Hnv, Hn.
  unfold name_value in Hnv.
  destruct (skip (numMinuses tok) tok) as [|c r] eqn:Hs.
  - cbn in Hnv. injection Hnv as <- _. discriminate.
  - destruct (split_value_first _ _ _ _ Hnv) as [r' ->].
    destruct (formal_first _ _ Hn) as (c' & r'' & [= <- _] & ->).
    reflexivity.
Qed.

(** A dash token that does not name a flag of the set is an error. *)
Lemma Parse_unknown :
  formal (fst (name_value tok)) = None ->
  exists e, Parse f (tok :: rest) = inr e.
Proof.
  intros Hn. rewrite Parse_flag.
  destruct (skip (numMinuses tok) tok) as [|c r]; [now eexists|].
  destruct (_ || _); [now eexists|].
  destruct (name_value tok) as [name value]. cbn [fst] in Hn. rewrite Hn.
  destruct (_ || _); now eexists.
Qed.

End ParseSteps.

Lemma Parse_Scanned (f f' : flag.FlagSet) (pre rest : list string) :
  flag.Scanned f pre f' ->
  flag.Parse f (pre ++ rest) = flag.Parse f' rest.
Proof.
  induction 1 as [f | f tok v pre name n z f' Hnf Hne Hnv Hn Hv _ IH
                    | f tok v pre name n z f' Hnf Hne Hnv Hn Hv _ IH].
  - reflexivity.
  - cbn [app]. rewrite (Parse_known _ _ _ Hnf Hne _ _ _ Hnv Hn).
    unfold flag.Set_. now rewrite Hv.
  - cbn [app]. rewrite (Parse_known _ _ _ Hnf Hne _ _ _ Hnv Hn).
    unfold flag.Set_. now rewrite Hv.
Qed.

(** Every list of tokens is made of tokens that the scan takes as flags
    of the set and their values, followed by nothing or by a token at
    which the scan ends. *)
Lemma Scanned_complete (args : list string) (f : flag.FlagSet) :
  exists pre f',
    flag.Scanned f pre f'
    /\ (args = pre
        \/ exists tok rest, args = (pre ++ tok :: rest)%list /\ halts tok rest).
Proof.
  assert (G : forall n args f, (List.length args <= n)%nat ->
             exists pre f',
               flag.Scanned f pre f'
               /\ (args = pre
                   \/ exists tok rest,
                       args = (pre ++ tok :: rest)%list /\ halts tok rest)).
  { clear. induction n as [|n IH]; intros args f Hlen.
    - destruct args; [|cbn in Hlen; lia].
      exists [], f. split; [constructor | now left].
    - destruct args as [|tok rest].
      { exists [], f. split; [constructor | now left]. }
      cbn [List.length] in Hlen.
      assert (Hstop : halts tok rest ->
                exists pre f',
                  flag.Scanned f pre f'
                  /\ (tok :: rest = pre
                      \/ exists tok0 rest0,
                          tok :: rest = (pre ++ tok0 :: rest0)%list
                          /\ halts tok0 rest0)).
      { intros Hh. exists [], f. split; [constructor|].
        right. now exists tok, rest. }
      destruct (flag.non_flag tok) eqn:Hnf; [apply Hstop; now left|].
      destruct (String.eqb_spec tok "--") as [Hdd|Hdd];
        [apply Hstop; right; now left|].
      destruct (flag.name_value tok) as [name value] eqn:Hnv.
      destruct (flag.formal name) as [nm|] eqn:Hfm.
      2:{ apply Hstop. right; right. repeat split; try assumption.
          left. now rewrite Hnv. }
      destruct value as [v|].
      + destruct (strconv.ParseInt v) as [z|e] eqn:Hv.
        * destruct (IH rest (flag.assign f nm z) ltac:(lia))
            as (pre & f' & Hs & Hr).
          exists (tok :: pre), f'. split.
          { now apply (flag.Scanned_equals f tok v pre name nm z f'). }
          destruct Hr as [->|(tok0 & rest0 & -> & Hh)]; [now left|].
          right. now exists tok0, rest0.
        * apply Hstop. right; right. repeat split; try assumption.
          right. exists name, nm. split; [assumption|]. left. now exists v, e.
      + destruct rest as [|v rest'].
        { apply Hstop. right; right. repeat split; try assumption.
          right. exists name, nm. split; [assumption|]. right. split;
            [exact Hnv | now left]. }
        destruct (strconv.ParseInt v) as [z|e] eqn:Hv.
        * cbn [List.length] in Hlen.
          destruct (IH rest' (flag.assign f nm z) ltac:(lia))
            as (pre & f' & Hs & Hr).
          exists (tok :: v :: pre), f'. split.
          { now apply (flag.Scanned_pair f tok v pre name nm z f'). }
          destruct Hr as [->|(tok0 & rest0 & -> & Hh)]; [now left|].
          right. now exists tok0, rest0.
        * apply Hstop. right; right. repeat split; try assumption.
          right. exists name, nm. split; [assumption|]. right. split;
            [exact Hnv|]. right. now exists v, rest', e. }
  exact (G (List.length args) args f (Nat.le_refl _)).
Qed.

(** C4, as the code has it.  Let [pre] be tokens that the scan takes as
    flags of the set and their values, which set the flags to [fs].
    - When the input ends with [pre], the result is that of [fs]: an
      error if one of the three values is negative, their sum in 64-bit
      nanoseconds otherwise.
    - When [pre] is followed by a token [tok] and by [rest]:
      - if [tok] does not start with ['-'] (or is ["-"] or ["--"]), the
        scan ends there: [tok] and [rest] are ignored, whatever they
        are, and the result is that of [fs];
      - if [tok] starts with ['-'] and does not name a flag of the set,
        the result is an error;
      - if [tok] is a flag of the set written [-x=v] and [v] is not an
        integer, or written [-x] and followed by a token that is not an
        integer, the result is the error of that value; and if [-x] is
        the last token, the result is the error of a missing value.
    Every input is of one of these forms. *)
Theorem parseDuration_scan (input : string) (pre : list string)
        (fs : flag.FlagSet) :
  flag.Scanned flag.NewFlagSet pre fs ->
  let sum : Z + DurationError :=
    if (flag.h fs <? 0) || (flag.m fs <? 0) || (flag.s fs <? 0)
    then inr NegativeValues
    else inl (Int64.wrap (flag.h fs * Hour + flag.m fs * Minute
                          + flag.s fs * Second)) in
  (Fields input = pre -> parseDuration input = sum)
  /\ (forall tok rest,
         Fields input = (pre ++ tok :: rest)%list ->
         (flag.non_flag tok = true \/ tok = "--" -> parseDuration input = sum)
         /\ (flag.non_flag tok = false -> tok <> "--" ->
             (flag.formal (fst (flag.name_value tok)) = None ->
              exists e, parseDuration input = inr (FlagError e))
             /\ (forall name n,
                    flag.formal name = Some n ->
                    (forall v e,
                        flag.name_value tok = (name, Some v) ->
                        strconv.ParseInt v = inr e ->
                        parseDuration input
                        = inr (FlagError (flag.InvalidValue v name e)))
                    /\ (flag.name_value tok = (name, None) -> rest = [] ->
                        parseDuration input
                        = inr (FlagError (flag.NeedsArgument name)))
                    /\ (forall v rest' e,
                           flag.name_value tok = (name, None) ->
                           rest = v :: rest' ->
                           strconv.ParseInt v = inr e ->
                           parseDuration input
                           = inr (FlagError (flag.InvalidValue v name e))))))
  /\ (exists pre0 fs0,
         flag.Scanned flag.NewFlagSet pre0 fs0
         /\ (Fields input = pre0
             \/ exists tok rest,
                 Fields input = (pre0 ++ tok :: rest)%list /\ halts tok rest)).
Proof.
  intros Hpre sum. split; [|split].
  - intros Hin. apply parseDuration_parsed.
    pose proof (Parse_Scanned _ _ _ [] Hpre) as Hscan.
    rewrite app_nil_r, <- Hin in Hscan. now rewrite Hscan.
  - intros tok rest Hin.
    pose proof (Parse_Scanned _ _ _ (tok :: rest) Hpre) as Hscan.
    rewrite <- Hin in Hscan. split.
    + intros Hstop. apply parseDuration_parsed.
      now rewrite Hscan, Parse_stop.
    + intros Hnf Hne. split.
      * intros Hun.
        destruct (Parse_unknown fs tok rest Hnf Hne Hun) as [e He].
        exists e. apply parseDuration_failed. now rewrite Hscan.
      * intros name n Hn. split; [|split].
        -- intros v e Hnv Hv. apply parseDuration_failed. rewrite Hscan.
           rewrite (Parse_known _ _ _ Hnf Hne _ _ _ Hnv Hn).
           unfold flag.Set_. now rewrite Hv.
        -- intros Hnv ->. apply parseDuration_failed. rewrite Hscan.
           now rewrite (Parse_known _ _ _ Hnf Hne _ _ _ Hnv Hn).
        -- intros v rest' e Hnv -> Hv. apply parseDuration_failed.
           rewrite Hscan.
           rewrite (Parse_known _ _ _ Hnf Hne _ _ _ Hnv Hn).
           unfold flag.Set_. now rewrite Hv.
  - apply Scanned_complete.
Qed.

(** In [-m 5 extra] the scan ends at [extra] and the result is 5 minutes;
    in [-m 5 -x 1] the token [-x] is an error, in [-m 5 -s=abc] and in
    [-m 5 -s abc] the value [abc] is, and in [-m 5 -s] the missing
    value; [-s -1] is scanned to its end and refused for its sign. *)
Lemma parseDuration_scan_witness :
  parseDuration "-m 5 extra" = inl (5 * Minute)
  /\ (exists e, parseDuration "-m 5 -x 1" = inr (FlagError e))
  /\ parseDuration "-m 5 -s=abc"
     = inr (FlagError (flag.InvalidValue "abc" "s" strconv.ErrSyntax))
  /\ parseDuration "-m 5 -s abc"
     = inr (FlagError (flag.InvalidValue "abc" "s" strconv.ErrSyntax))
  /\ parseDuration "-m 5 -s" = inr (FlagError (flag.NeedsArgument "s"))
  /\ parseDuration "-s -1" = inr NegativeValues.
Proof.
  assert (Hpre : flag.Scanned flag.NewFlagSet ["-m"; "5"]
                   {| flag.h := 0; flag.m := 5; flag.s := 0 |}).
  { apply (flag.Scanned_pair _ "-m" "5" [] "m" flag.FlagM 5);
      try reflexivity; [discriminate | constructor]. }
  assert (Hneg : flag.Scanned flag.NewFlagSet ["-s"; "-1"]
                   {| flag.h := 0; flag.m := 0; flag.s := -1 |}).
  { apply (flag.Scanned_pair _ "-s" "-1" [] "s" flag.FlagS (-1));
      try reflexivity; [discriminate | constructor]. }
  assert (Hs : "-s" <> "--") by discriminate.
  split; [|split; [|split; [|split; [|split]]]].
  - apply (proj1 (proj1 (proj2 (parseDuration_scan "-m 5 extra" _ _ Hpre))
                        "extra" [] eq_refl)).
    left. reflexivity.
  - apply (proj1 (proj2 (proj1 (proj2 (parseDuration_scan
                                         "-m 5 -x 1" _ _ Hpre))
                               "-x" ["1"] eq_refl)
                        eq_refl ltac:(discriminate))).
    reflexivity.
  - apply (proj1 (proj2 (proj2 (proj1 (proj2 (parseDuration_scan
                                                "-m 5 -s=abc" _ _ Hpre))
                                      "-s=abc" [] eq_refl)
                               eq_refl ltac:(discriminate))
                        "s" flag.FlagS eq_refl)); reflexivity.
  - apply (proj2 (proj2 (proj2 (proj2 (proj1 (proj2 (parseDuration_scan
                                                       "-m 5 -s abc" _ _ Hpre))
                                             "-s" ["abc"] eq_refl)
                                      eq_refl Hs)
                               "s" flag.FlagS eq_refl))
                 "abc" [] strconv.ErrSyntax); reflexivity.
  - apply (proj1 (proj2 (proj2 (proj2 (proj1 (proj2 (parseDuration_scan
                                                       "-m 5 -s" _ _ Hpre))
                                             "-s" [] eq_refl)
                                      eq_refl Hs)
                               "s" flag.FlagS eq_refl))); reflexivity.
  - exact (proj1 (parseDuration_scan "-s -1" _ _ Hneg) eq_refl).
Defined.

(** C4 as stated fails: [extra] is neither a flag nor an integer, and
    [-q] is not a flag of the set, yet both inputs give the duration of
    [-m 5]. *)
Lemma parseDuration_ignores_trailing_tokens :
  In "extra" (Fields "-m 5 extra")
  /\ flag.non_flag "extra" = true
  /\ strconv.ParseInt "extra" = inr strconv.ErrSyntax
  /\ parseDuration "-m 5 extra" = inl (5 * Minute)
  /\ In "-q" (Fields "-m 5 extra -q 1")
  /\ flag.formal (fst (flag.name_value "-q")) = None
  /\ parseDuration "-m 5 extra -q 1" = inl (5 * Minute)
  /\ parseDuration "-m 5" = inl (5 * Minute).
Proof.
  repeat split; try reflexivity; cbn; tauto.
Qed.

(** ** The queue and the main loop *)

Lemma processCommand_queue (cmd : string) (q : list Task) :
  snd (processCommand cmd q) =
    (q ++ match fst (processCommand cmd q) with
          | AddedTask t => [t]
          | _ => []
          end)%list.
Proof.
  unfold processCommand.
  destruct (_ =? _)%string; [now rewrite app_nil_r|].
  destruct (negb _); [now rewrite app_nil_r|].
  destruct (Fields cmd) as [|a args]; [now rewrite app_nil_r|].
  destruct (_ =? _)%nat; [now rewrite app_nil_r|].
  destruct (parseDuration _) as [d|e]; [|now rewrite app_nil_r].
  destruct (d <=? 0); [now rewrite app_nil_r | reflexivity].
Qed.

Lemma command_spec (st : System) (back : MainPC) (line : string) :
  let f := fst (processCommand line (taskQueue st)) in
  command st back line =
    ({| pc := match f with Exiting | Panic => Exited | _ => back end;
        taskQueue := (taskQueue st
                      ++ match f with AddedTask t => [t] | _ => [] end)%list;
        timer := timer st; history := history st |},
     [Said f]).
Proof.
  cbv zeta. unfold command.
  rewrite <- processCommand_queue.
  now destruct (processCommand line (taskQueue st)).
Qed.

(** [Panic] is never printed: the slice [strings.Fields(cmd)[1:]] is
    taken of a line that starts with ["add "]. *)
Lemma processCommand_no_panic (cmd : string) (q : list Task) :
  fst (processCommand cmd q) <> Panic.
Proof.
  unfold processCommand.
  destruct (_ =? _)%string; [discriminate|].
  destruct (HasPrefix cmd "add ") eqn:Hp; cbn [negb]; [|discriminate].
  destruct (Fields_add _ Hp) as [args ->].
  destruct (_ =? _)%nat; [discriminate|].
  destruct (parseDuration _) as [d|e]; [|discriminate].
  destruct (d <=? 0); discriminate.
Qed.

Lemma step_queue (st st' : System) (ev : Event) (o : list Obs) :
  step st ev = Some (st', o) ->
  (popped o ++ taskQueue st' = taskQueue st ++ accepted o)%list.
Proof.
  intros H. step_cases H;
    try (rewrite command_spec in H);
    injection H as <- <-; cbn; rewrite ?app_nil_r; try reflexivity;
    try (now destruct (fst (processCommand _ _)) as [| | | | |t|]; cbn;
         rewrite ?app_nil_r).
Qed.

Lemma step_coherent (st st' : System) (ev : Event) (o : list Obs) :
  coherent st -> step st ev = Some (st', o) ->
  coherent st'
  /\ (begun o ++ launched st' = launched st ++ map Name (popped o))%list.
Proof.
  unfold coherent, launched. intros Hc H. step_cases H;
    try (rewrite command_spec in H);
    injection H as <- <-;
    cbn [pc timer taskQueue history set_pc] in *;
    try congruence;
    (split; [intros Hp; try discriminate Hp|]).
  all: try (now specialize (Hc eq_refl)).
  all: try (now destruct (fst (processCommand _ _))).
  all: try (cbn; now rewrite ?app_nil_r).
  all: try (now rewrite (Hc eq_refl)).
  all: match goal with
       | Ht : tick _ _ _ = _ |- _ =>
           unfold tick in Ht; destruct (_ <=? 0); now injection Ht as <- <-
       end.
Qed.

Lemma run_cons_inv (st st'' : System) (ev : Event) (later : list Event)
      (obs : list Obs) :
  run st (ev :: later) = Some (st'', obs) ->
  exists st' o os, step st ev = Some (st', o)
                   /\ run st' later = Some (st'', os)
                   /\ obs = (o ++ os)%list.
Proof.
  cbn [run]. destruct (step st ev) as [[st' o]|]; [|discriminate].
  destruct (run st' later) as [[st2 os]|] eqn:Hrun; [|discriminate].
  intros [= <- <-]. now exists st', o, os.
Qed.

Lemma run_queue (evs : list Event) (st st' : System) (obs : list Obs) :
  coherent st -> run st evs = Some (st', obs) ->
  (popped obs ++ taskQueue st' = taskQueue st ++ accepted obs)%list
  /\ (begun obs ++ launched st' = launched st ++ map Name (popped obs))%list
  /\ coherent st'.
Proof.
  revert st obs; induction evs as [|ev later IH]; intros st obs Hc H.
  - injection H as <- <-. cbn. rewrite !app_nil_r. auto.
  - apply run_cons_inv in H as (st1 & o & os & Hstep & Hrun & ->).
    destruct (step_coherent _ _ _ _ Hc Hstep) as [Hc1 Hb].
    pose proof (step_queue _ _ _ _ Hstep) as Hq.
    destruct (IH _ _ Hc1 Hrun) as (Hq' & Hb' & Hc').
    unfold popped, accepted, begun in *.
    rewrite !flat_map_app, map_app. repeat split; [| |assumption].
    + rewrite <- app_assoc, Hq', app_assoc, Hq, <- app_assoc. reflexivity.
    + rewrite <- app_assoc, Hb', app_assoc, Hb, <- app_assoc. reflexivity.
Qed.

(** C5: in every run of the program the tasks popped so far, followed
    by the tasks still queued, are exactly the tasks accepted so far, in
    the order of their acceptance: the queue takes at the tail, gives at
    the head, and loses or repeats nothing.  The timers are begun in the
    order of the pops, one for each pop (the last may still be waiting
    to print its first line). *)
Theorem tasks_run_in_acceptance_order
        (file : option string) (evs : list Event) (st : System)
        (obs : list Obs) :
  run (initial file) evs = Some (st, obs) ->
  (popped obs ++ taskQueue st)%list = accepted obs
  /\ (begun obs ++ launched st)%list = map Name (popped obs).
Proof.
  intros H. apply run_queue in H as (Hq & Hb & _).
  - now split.
  - intros _. reflexivity.
Qed.

Lemma tasks_run_in_acceptance_order_witness :
  exists st obs,
    run (initial None) two_tasks = Some (st, obs)
    /\ map Name (accepted obs) = ["A"; "B"; "C"]
    /\ map Name (popped obs) = ["A"; "B"]
    /\ map Name (taskQueue st) = ["C"]
    /\ (popped obs ++ taskQueue st)%list = accepted obs
    /\ (begun obs ++ launched st)%list = map Name (popped obs).
Proof.
  assert (H : run (initial None) two_tasks = two_tasks_run)
    by (vm_compute; reflexivity).
  unfold two_tasks_run in H.
  eexists _, _. split; [exact H|].
  split; [reflexivity|]. split; [reflexivity|]. split; [reflexivity|].
  exact (tasks_run_in_acceptance_order None two_tasks _ _ H).
Defined.

(** *** The order of the main loop's actions *)

Lemma Task_eqb_refl (t : Task) : Task_eqb t t = true.
Proof. unfold Task_eqb. now rewrite String.eqb_refl, Z.eqb_refl. Qed.

Lemma follows_app (p : Phase) (a b : list Obs) :
  follows p (a ++ b) =
    match follows p a with Some p' => follows p' b | None => None end.
Proof.
  revert p; induction a as [|o a IH]; intros p; cbn; [reflexivity|].
  destruct (follow p o); [apply IH | reflexivity].
Qed.

Lemma step_follows (st st' : System) (ev : Event) (o : list Obs) :
  coherent st -> step st ev = Some (st', o) ->
  follows (phase_of (pc st)) o = Some (phase_of (pc st')).
Proof.
  unfold coherent. intros Hc H. step_cases H;
    try (rewrite command_spec in H);
    injection H as <- <-;
    cbn [pc timer taskQueue history set_pc phase_of follows follow] in *;
    rewrite ?Task_eqb_refl; try reflexivity.
  all: try (now specialize (Hc eq_refl)).
  all: try (now destruct (fst (processCommand _ _))).
  now rewrite E0.
Qed.

Lemma run_follows (evs : list Event) (st st' : System) (obs : list Obs) :
  coherent st -> run st evs = Some (st', obs) ->
  follows (phase_of (pc st)) obs = Some (phase_of (pc st')).
Proof.
  revert st obs; induction evs as [|ev later IH]; intros st obs Hc H.
  - now injection H as <- <-.
  - apply run_cons_inv in H as (st1 & o & os & Hstep & Hrun & ->).
    rewrite follows_app, (step_follows _ _ _ _ Hc Hstep).
    apply IH; [|assumption].
    now destruct (step_coherent _ _ _ _ Hc Hstep).
Qed.

(** The pop and the log, as the main loop makes them. *)
Lemma step_pop (st : System) (task : Task) (rest : list Task) :
  pc st = AtTop -> taskQueue st = task :: rest ->
  step st EvPop
  = Some ({| pc := Logging task; taskQueue := rest; timer := Spawned task;
             history := history st |}, [Popped task]).
Proof. intros Hpc Hq. unfold step. now rewrite Hpc, Hq. Qed.

Lemma step_log (st : System) (task : Task) (now : Time) (io : IO) :
  pc st = Logging task ->
  step st (EvLog now io)
  = Some ({| pc := Waiting task; taskQueue := taskQueue st;
             timer := timer st;
             history := fst (logHistory task now io (history st)) |},
          [Logged task (snd (logHistory task now io (history st)))]).
Proof.
  intros Hpc. unfold step. rewrite Hpc.
  now destruct (logHistory task now io (history st)).
Qed.

Lemma step_timer_belongs (st st' : System) (ev : Event) (o : list Obs) :
  timer_belongs st -> step st ev = Some (st', o) -> timer_belongs st'.
Proof.
  unfold timer_belongs. intros Hb H. step_cases H;
    try (rewrite command_spec in H);
    injection H as <- <-; cbn [pc timer set_pc] in *;
    rewrite ?E0 in *; try exact I; try exact Hb; try tauto.
  all: try (now destruct (fst (processCommand _ _))).
  all: try (now rewrite Hb in *).
  all: try (destruct Hb as [Hb|[[e Hb]|Hb]]; try congruence).
  all: try (injection Hb as <-; right; left; now eexists).
  all: try (match goal with
            | Ht : tick _ _ _ = _ |- _ =>
                unfold tick in Ht; destruct (_ <=? 0);
                injection Ht as <- <-
            end; injection Hb as <- <-; auto; right; left; now eexists).
Qed.

Lemma run_timer_belongs (evs : list Event) (st st' : System)
      (obs : list Obs) :
  timer_belongs st -> run st evs = Some (st', obs) -> timer_belongs st'.
Proof.
  revert st obs; induction evs as [|ev later IH]; intros st obs Hb H.
  - now injection H as <- <-.
  - apply run_cons_inv in H as (st1 & o & os & Hstep & Hrun & ->).
    exact (IH _ _ (step_timer_belongs _ _ _ _ Hb Hstep) Hrun).
Qed.

(** A move of the timer goroutine does not look at where the main
    goroutine stands, at the queue or at the history. *)
Lemma timer_tick_alike (st st' : System) (ev : Event) :
  timer_tick ev -> timer st' = timer st ->
  pc st <> Exited -> pc st' <> Exited ->
  match step st ev, step st' ev with
  | Some (s1, o1), Some (s2, o2) => o1 = o2 /\ timer s1 = timer s2
  | None, None => True
  | _, _ => False
  end.
Proof.
  intros Hev Ht Hp Hp'. unfold step. rewrite Ht.
  destruct ev; try contradiction;
    destruct (pc st), (pc st'); try (now contradiction);
    destruct (timer st); try exact I; cbn [timer];
    try (destruct (tick _ _ _) as [n [|]]; cbn [timer]); now split.
Qed.

(** C7, as the code has it: the history record of a popped task is
    written by the main loop's next action after the pop, when the timer
    of that task has been launched, and before the main loop serves a
    command or sees the timer complete; the timer goroutine runs beside
    it and is not held back by the log.
    - In every run the observations follow the discipline [follows]:
      pop, log of the same task, then commands, then the completion.
    - The pop launches the timer and leaves the history as it is.
    - The log is possible for every answer of the operating system; it
      leads to the inner loop with the timer and the queue as they were.
      On success the file is the file before followed by the name, the
      text of the duration and the time stamp, separated by ['|'] and
      ended by a line feed; when the file cannot be opened it is left as
      it is.
    - Every move of the timer goroutine is possible after the log, with
      the same effect, exactly when it is before the log, whatever the
      answer of the operating system to the log. *)
Theorem history_is_logged_at_pop :
  (forall file evs st obs,
      run (initial file) evs = Some (st, obs) ->
      follows Idle obs = Some (phase_of (pc st)))
  /\ (forall st task rest,
         pc st = AtTop -> taskQueue st = task :: rest ->
         exists st',
           step st EvPop = Some (st', [Popped task])
           /\ pc st' = Logging task /\ timer st' = Spawned task
           /\ history st' = history st)
  /\ (forall st task now io,
         pc st = Logging task ->
         exists st' failed,
           step st (EvLog now io) = Some (st', [Logged task failed])
           /\ pc st' = Waiting task /\ timer st' = timer st
           /\ taskQueue st' = taskQueue st
           /\ (io = IoOk ->
               failed = false
               /\ history st'
                  = Some (content_of (history st)
                          ++ Name task ++ "|"
                          ++ Duration_String (Duration task) ++ "|"
                          ++ Format now ++ nl))
           /\ (io = OpenFails -> failed = true /\ history st' = history st)
           /\ (forall ev,
                  timer_tick ev ->
                  match step st ev, step st' ev with
                  | Some (s1, o1), Some (s2, o2) =>
                      o1 = o2 /\ timer s1 = timer s2
                  | None, None => True
                  | _, _ => False
                  end)).
Proof.
  split; [|split].
  - intros file evs st obs H.
    apply (run_follows evs (initial file)); [|assumption].
    intros _. reflexivity.
  - intros st task rest Hpc Hq. eexists. rewrite (step_pop _ _ _ Hpc Hq).
    repeat split.
  - intros st task now io Hpc. eexists _, _. rewrite (step_log _ _ _ _ Hpc).
    split; [reflexivity|]. cbn [pc timer taskQueue history].
    split; [reflexivity|]. split; [reflexivity|]. split; [reflexivity|].
    split; [|split].
    + intros ->. split; reflexivity.
    + intros ->. split; reflexivity.
    + intros ev Hev. apply timer_tick_alike; cbn [pc timer];
        try assumption; try reflexivity; try discriminate.
      rewrite Hpc. discriminate.
Qed.

Lemma history_is_logged_at_pop_witness :
  exists st obs,
    run (initial None) logged_then_exit = Some (st, obs)
    /\ follows Idle obs = Some (phase_of (pc st))
    /\ pc st = Exited
    /\ timer st = Ticking "A" (3 * Second)
    /\ history st = Some ("A|3s|2024-03-09 12:00:00" ++ nl)
    /\ (exists st',
           step {| pc := AtTop; taskQueue := [task_A]; timer := NoTimer;
                   history := None |} EvPop
           = Some (st', [Popped task_A])
           /\ pc st' = Logging task_A /\ timer st' = Spawned task_A
           /\ history st' = None)
    /\ (exists st' failed,
           step {| pc := Logging task_A; taskQueue := [];
                   timer := Spawned task_A; history := None |}
                (EvLog noon OpenFails)
           = Some (st', [Logged task_A failed])
           /\ pc st' = Waiting task_A /\ timer st' = Spawned task_A
           /\ failed = true /\ history st' = None).
Proof.
  assert (H : run (initial None) logged_then_exit = logged_then_exit_run)
    by (vm_compute; reflexivity).
  unfold logged_then_exit_run in H.
  destruct history_is_logged_at_pop as (Hrun & Hpop & Hlog).
  eexists _, _. split; [exact H|].
  split; [exact (Hrun _ _ _ _ H)|].
  split; [reflexivity|]. split; [reflexivity|]. split; [reflexivity|].
  split.
  - exact (Hpop {| pc := AtTop; taskQueue := [task_A]; timer := NoTimer;
                   history := None |} task_A [] eq_refl eq_refl).
  - destruct (Hlog {| pc := Logging task_A; taskQueue := [];
                      timer := Spawned task_A; history := None |}
                   task_A noon OpenFails eq_refl)
      as (st' & failed & Hs & Hp & Ht & _ & _ & Hfail & _).
    exists st', failed. destruct (Hfail eq_refl) as [Hf Hh].
    now repeat split.
Defined.

(** C7 as stated fails on "before the timer has finished": nothing
    makes the timer goroutine wait for the log.  In this run the timer
    of the popped task has printed "Completed" and has returned while
    the main goroutine still stands before [logHistory] and nothing is
    written. *)
Lemma timer_may_finish_before_the_log :
  exists st,
    run (initial None) finished_before_log
    = Some (st, [Said (AddedTask {| Name := "A"; Duration := Second |});
                 Popped {| Name := "A"; Duration := Second |};
                 Timer (Starting "A" Second); Timer (Completed "A")])
    /\ pc st = Logging {| Name := "A"; Duration := Second |}
    /\ timer st = Closed
    /\ history st = None.
Proof.
  eexists. split; [vm_compute; reflexivity|]. repeat split.
Qed.

(** *** Commands while a timer runs *)

Lemma step_exited (st : System) (ev : Event) :
  pc st = Exited -> step st ev = None.
Proof. intros H. unfold step. rewrite H. now destruct ev. Qed.

Lemma processCommand_exit (line : string) (q : list Task) :
  ToLower line = "exit" -> processCommand line q = (Exiting, q).
Proof. intros H. unfold processCommand. now rewrite H. Qed.




(** ** The timer *)

Lemma unsigned_small (x : Z) : 0 <= x < Int64.modulus -> Int64.unsigned x = x.
Proof. intros H. unfold Int64.unsigned. now apply Z.mod_small. Qed.

Lemma in_range_bound (x : Z) :
  - 2 ^ 62 <= x <= 2 ^ 62 -> Int64.in_range x.
Proof.
  unfold Int64.in_range, Int64.min_signed, Int64.max_signed. lia.
Qed.

(** Rounding to the second, away from the ends of the range: the nearest
    multiple of a second, a half going up. *)
Lemma Round_Second (d : Z) :
  0 <= d <= 2 ^ 61 ->
  Round d Second = (d + 500 * Millisecond) / Second * Second.
Proof.
  intros Hd. unfold Round.
  change Second with 1000000000. change (500 * Millisecond) with 500000000.
  change (1000000000 <=? 0) with false. cbv iota.
  destruct (Z.ltb_spec d 0); [lia|].
  rewrite Z.rem_mod_nonneg by lia.
  pose proof (Z.div_mod d 1000000000 ltac:(lia)) as Hdm.
  pose proof (Z.mod_pos_bound d 1000000000 ltac:(lia)) as Hr.
  set (q := d / 1000000000) in *. set (r := d mod 1000000000) in *.
  assert (Hq : 0 <= q <= 2 ^ 61) by (subst q; split;
    [apply Z.div_pos; lia | apply Z.div_le_upper_bound; lia]).
  unfold lessThanHalf, Int64.modulus.
  rewrite (unsigned_small r), (unsigned_small (r + r)),
    (unsigned_small 1000000000) by (unfold Int64.modulus; lia).
  unfold Int64.sub, Int64.add.
  destruct (Z.ltb_spec (r + r) 1000000000).
  - rewrite wrap_small by (apply in_range_bound; lia).
    replace ((d + 500000000) / 1000000000) with q
      by (apply Z.div_unique with (r + 500000000); lia).
    lia.
  - rewrite (wrap_small (d + 1000000000)) by (apply in_range_bound; lia).
    rewrite wrap_small by (apply in_range_bound; lia).
    destruct (Z.ltb_spec d (d + 1000000000 - r)); [|lia].
    replace ((d + 500000000) / 1000000000) with (q + 1)
      by (apply Z.div_unique with (r - 500000000); lia).
    lia.
Qed.

(** Less than half a second late is a remaining time of zero. *)
Lemma Round_Second_late (d : Z) :
  - (500 * Millisecond) < d <= 0 -> Round d Second = 0.
Proof.
  change (500 * Millisecond) with 500000000. intros Hd.
  destruct (Z.eq_dec d 0) as [->|Hnz]; [reflexivity|].
  unfold Round. change Second with 1000000000.
  change (1000000000 <=? 0) with false. cbv iota.
  destruct (Z.ltb_spec d 0); [|lia].
  replace (Z.rem d 1000000000) with d
    by (rewrite <- (Z.opp_involutive d) at 2;
        rewrite Z.rem_opp_l, Z.rem_small by lia; lia).
  unfold Int64.neg. rewrite wrap_small by (apply in_range_bound; lia).
  unfold lessThanHalf.
  rewrite (unsigned_small (- d)), (unsigned_small (- d + - d)),
    (unsigned_small 1000000000) by (unfold Int64.modulus; lia).
  destruct (Z.ltb_spec (- d + - d) 1000000000); [|lia].
  unfold Int64.add. replace (d + - d) with 0 by lia. reflexivity.
Qed.

Lemma Sub_small (t u : Z) : - 2 ^ 62 <= t - u <= 2 ^ 62 -> Sub t u = t - u.
Proof.
  intros H. unfold Sub, minDuration, maxDuration, Int64.min_signed,
    Int64.max_signed.
  destruct (Z.ltb_spec (t - u) (- 2 ^ 63)); [lia|].
  destruct (Z.ltb_spec (2 ^ 63 - 1) (t - u)); [lia | reflexivity].
Qed.

(** A tick no more than half a second late shows the whole seconds left,
    and the timer returns on the tick of its end. *)
Lemma tick_on_time (task : string) (start k n j : Z) :
  0 <= k <= n -> n <= 1000000 -> 0 <= j < 500 * Millisecond ->
  tick task (start + n * Second) (start + k * Second + j)
  = if n - k <=? 0 then (Completed task, true)
    else (Remaining task ((n - k) * Second), false).
Proof.
  intros Hk Hn Hj. unfold tick, Until.
  assert (HS : Second = 1000000000) by reflexivity.
  assert (HM : 500 * Millisecond = 500000000) by reflexivity.
  rewrite Sub_small by (rewrite HS; lia).
  replace (start + n * Second - (start + k * Second + j))
    with ((n - k) * Second - j) by ring.
  destruct (Z.leb_spec (n - k) 0).
  - rewrite Round_Second_late by (rewrite HS, HM in *; lia). reflexivity.
  - rewrite Round_Second by (rewrite HS; lia).
    replace (((n - k) * Second - j + 500 * Millisecond) / Second)
      with (n - k)
      by (rewrite HS, HM in *;
          apply Z.div_unique with (500000000 - j); lia).
    destruct (Z.leb_spec ((n - k) * Second) 0);
      [rewrite HS in *; lia | reflexivity].
Qed.

(** A time that is up rounds to no time left. *)
Lemma Round_Second_nonpos (d : Z) :
  minDuration <= d <= 0 -> Round d Second <= 0.
Proof.
  unfold minDuration, Int64.min_signed. intros Hd.
  destruct (Z.eq_dec d 0) as [->|Hnz]; [discriminate|].
  unfold Round. change Second with 1000000000.
  change (1000000000 <=? 0) with false. cbv iota.
  destruct (Z.ltb_spec d 0); [|lia].
  assert (Hrem : Z.rem d 1000000000 = - ((- d) mod 1000000000)).
  { rewrite <- (Z.opp_involutive d) at 1.
    rewrite Z.rem_opp_l, Z.rem_mod_nonneg by lia. reflexivity. }
  rewrite Hrem.
  pose proof (Z.mod_pos_bound (- d) 1000000000 ltac:(lia)) as Hr.
  pose proof (Z.div_mod (- d) 1000000000 ltac:(lia)) as Hdm.
  assert (Hq : 0 <= - d / 1000000000) by (apply Z.div_pos; lia).
  set (r := (- d) mod 1000000000) in *.
  unfold Int64.neg. rewrite Z.opp_involutive.
  rewrite (wrap_small r) by (apply in_range_bound; lia).
  destruct (lessThanHalf r 1000000000).
  - unfold Int64.add. rewrite wrap_small; [lia|].
    unfold Int64.in_range, Int64.min_signed, Int64.max_signed. lia.
  - destruct (Z.ltb_spec (Int64.add (Int64.sub d 1000000000) r) d); [lia|].
    unfold minDuration, Int64.min_signed. lia.
Qed.

Lemma Round_Second_mono (d d' : Z) :
  0 <= d <= d' -> d' <= 2 ^ 61 -> Round d Second <= Round d' Second.
Proof.
  intros Hd Hd'. rewrite !Round_Second by lia.
  apply Z.mul_le_mono_nonneg_r; [discriminate|].
  apply Z.div_le_mono; [reflexivity | lia].
Qed.

Lemma Sub_nonpos (t u : Z) : t - u <= 0 -> minDuration <= Sub t u <= 0.
Proof.
  unfold Sub, minDuration, maxDuration, Int64.min_signed, Int64.max_signed.
  intros H. destruct (Z.ltb_spec (t - u) (- 2 ^ 63)); [lia|].
  destruct (Z.ltb_spec (2 ^ 63 - 1) (t - u)); lia.
Qed.

(** With a clock that never goes back, the remaining times shown never
    go up. *)
Lemma ticking_descending (task : string) (endTime : Z) (ticks : list Z)
      (prev : Z) :
  0 <= endTime - prev <= 2 ^ 61 ->
  ascending prev ticks ->
  descending (Round (Until endTime prev) Second)
             (progress (fst (ticking task endTime ticks))).
Proof.
  revert prev; induction ticks as [|now later IH]; intros prev Hp Ha;
    [exact I|].
  destruct Ha as [Hle Ha]. cbn [ticking]. unfold tick.
  destruct (Z.leb_spec (Round (Until endTime now) Second) 0) as [|Hpos];
    [exact I|].
  assert (Hnow : 0 <= endTime - now <= 2 ^ 61).
  { split; [|lia]. destruct (Z_lt_le_dec (endTime - now) 0) as [Hneg|]; [|lia].
    pose proof (Round_Second_nonpos (Until endTime now)
                  (Sub_nonpos endTime now ltac:(lia))). lia. }
  specialize (IH now Hnow Ha).
  destruct (ticking task endTime later) as [ns r]. cbn in *.
  split; [|exact IH].
  unfold Until. rewrite !Sub_small by lia.
  apply Round_Second_mono; lia.
Qed.

(** The loop prints "Completed" when it returns and at no other time. *)
Lemma ticking_completes_last (task : string) (endTime : Z) (ticks : list Z) :
  let '(ns, returned) := ticking task endTime ticks in
  if returned
  then exists shown, ns = (map (Remaining task) shown ++ [Completed task])%list
  else exists shown, ns = map (Remaining task) shown.
Proof.
  induction ticks as [|now later IH]; cbn [ticking].
  - now exists [].
  - unfold tick. destruct (_ <=? 0).
    + now exists [].
    + destruct (ticking task endTime later) as [ns [|]];
        destruct IH as [shown ->]; now eexists (_ :: shown).
Qed.

(** C6, as the code has it.  A timer of 3 seconds whose ticks come once
    per second, each less than half a second late, shows exactly two
    progress notices, at 2s and at 1s remaining, and on its third tick
    the one "Completed" notice, with which it returns; later ticks show
    nothing.  Whatever the ticks: with a clock that never goes back the
    remaining times shown never go up (and start at 3s or below), and
    "Completed" is printed when the loop returns, as its last notice, and
    at no other time. *)
Theorem three_second_timer
        (task : string) (start j1 j2 j3 : Z) (later : list Z) :
  0 <= j1 < 500 * Millisecond ->
  0 <= j2 < 500 * Millisecond ->
  0 <= j3 < 500 * Millisecond ->
  let out :=
    startTimer task (3 * Second) start
               (start + 1 * Second + j1 :: start + 2 * Second + j2
                  :: start + 3 * Second + j3 :: later) in
  out = ([Starting task (3 * Second); Remaining task (2 * Second);
          Remaining task (1 * Second); Completed task], true)
  /\ progress (fst out) = [2 * Second; 1 * Second]
  /\ completions (fst out) = 1%nat
  /\ (forall ticks,
         ascending start ticks ->
         descending (3 * Second)
                    (progress (fst (startTimer task (3 * Second) start
                                               ticks))))
  /\ (forall ticks,
         let '(ns, returned) := ticking task (start + 3 * Second) ticks in
         if returned
         then exists shown,
             ns = (map (Remaining task) shown ++ [Completed task])%list
         else exists shown, ns = map (Remaining task) shown).
Proof.
  intros H1 H2 H3 out.
  assert (Hout : out = ([Starting task (3 * Second);
                         Remaining task (2 * Second);
                         Remaining task (1 * Second); Completed task], true)).
  { subst out. unfold startTimer. cbn [ticking].
    rewrite (tick_on_time task start 1 3 j1) by lia.
    rewrite (tick_on_time task start 2 3 j2) by lia.
    rewrite (tick_on_time task start 3 3 j3) by lia.
    reflexivity. }
  rewrite Hout. split; [reflexivity|]. split; [reflexivity|].
  split; [reflexivity|]. split.
  - intros ticks Ha. unfold startTimer.
    pose proof (ticking_descending task (start + 3 * Second) ticks start) as Hd.
    destruct (ticking task (start + 3 * Second) ticks) as [ns r].
    cbn [fst progress flat_map app] in *.
    replace (Round (Until (start + 3 * Second) start) Second)
      with (3 * Second) in Hd.
    + apply Hd; [|exact Ha].
      replace (start + 3 * Second - start) with 3000000000
        by (change Second with 1000000000; ring).
      lia.
    + unfold Until. rewrite Sub_small;
        replace (start + 3 * Second - start) with 3000000000
          by (change Second with 1000000000; ring);
        [reflexivity | lia].
  - intros ticks. apply ticking_completes_last.
Qed.

(** Ticks 100, 200 and 300 nanoseconds late, and a fourth that shows
    nothing. *)
Lemma three_second_timer_witness :
  let out := startTimer "T" (3 * Second) 0
                        [1000000100; 2000000200; 3000000300; 4000000400] in
  out = ([Starting "T" (3 * Second); Remaining "T" (2 * Second);
          Remaining "T" (1 * Second); Completed "T"], true)
  /\ progress (fst out) = [2 * Second; 1 * Second]
  /\ completions (fst out) = 1%nat.
Proof.
  assert (H1 : 0 <= 100 < 500 * Millisecond)
    by (split; [discriminate | reflexivity]).
  assert (H2 : 0 <= 200 < 500 * Millisecond)
    by (split; [discriminate | reflexivity]).
  assert (H3 : 0 <= 300 < 500 * Millisecond)
    by (split; [discriminate | reflexivity]).
  destruct (three_second_timer "T" 0 100 200 300 [4000000400] H1 H2 H3)
    as (Hout & Hp & Hc & _).
  cbv zeta. split; [exact Hout|]. split; [exact Hp | exact Hc].
Defined.

(** C6 as stated fails on the count: with the ticks exactly on the
    second, a timer of 3 seconds shows two progress notices before
    "Completed", not three. *)
Lemma three_second_timer_shows_two :
  let ns := fst (startTimer "T" (3 * Second) 0
                            [1 * Second; 2 * Second; 3 * Second]) in
  ns = [Starting "T" (3 * Second); Remaining "T" (2 * Second);
        Remaining "T" (1 * Second); Completed "T"]
  /\ progress ns = [2 * Second; 1 * Second]
  /\ List.length (progress ns) <> 3%nat
  /\ completions ns = 1%nat.
Proof.
  vm_compute. repeat split. discriminate.
Qed.

(** ** The history log *)

Lemma count_char_append (c : ascii) (a b : string) :
  count_char c (a ++ b) = (count_char c a + count_char c b)%nat.
Proof.
  induction a as [|x a IH]; cbn [append count_char]; [reflexivity|].
  rewrite IH. lia.
Qed.

Lemma count_char_pos (c : ascii) (s : string) :
  all_chars (fun x => negb (Ascii.eqb x c)) s = false ->
  (0 < count_char c s)%nat.
Proof.
  induction s as [|x s IH]; cbn [all_chars count_char]; [discriminate|].
  destruct (Ascii.eqb x c); cbn [negb andb]; [lia|]. intros H. now apply IH.
Qed.

(** *** [strings.Split] *)

Lemma Split_from_run (sep : ascii) (a cur rest : string) :
  all_chars (fun x => negb (Ascii.eqb x sep)) a = true ->
  Split_from cur (a ++ rest) sep = Split_from (cur ++ a) rest sep.
Proof.
  revert cur; induction a as [|x a IH]; intros cur H; cbn in *.
  - now rewrite append_nil_r.
  - apply andb_true_iff in H as [Hx Ha]. apply negb_true_iff in Hx.
    now rewrite Hx, IH, append_char.
Qed.

Lemma Split_from_length (sep : ascii) (s cur : string) :
  List.length (Split_from cur s sep) = S (count_char sep s).
Proof.
  revert cur; induction s as [|x s IH]; intros cur; cbn; [reflexivity|].
  destruct (Ascii.eqb x sep); cbn; now rewrite IH.
Qed.

Lemma Split_three (a b c : string) :
  all_chars not_bar a = true -> all_chars not_bar b = true ->
  all_chars not_bar c = true ->
  Split (a ++ "|" ++ b ++ "|" ++ c) "|" = [a; b; c].
Proof.
  intros Ha Hb Hc. unfold Split.
  rewrite Split_from_run by exact Ha. cbn [append Split_from Ascii.eqb].
  change (Ascii.eqb "|" "|") with true. cbv iota.
  rewrite Split_from_run by exact Hb. cbn [append Split_from].
  change (Ascii.eqb "|" "|") with true. cbv iota.
  rewrite <- (append_nil_r c) at 1.
  rewrite Split_from_run by exact Hc. reflexivity.
Qed.

(** *** The scanner *)

Lemma dropCR_plain (line : string) :
  all_chars not_cr line = true -> dropCR line = line.
Proof.
  unfold dropCR. intros H.
  destruct (String.length line) as [|n] eqn:Hlen; [reflexivity|].
  destruct (String.eqb_spec (substring n 1 line) cr) as [Heq|]; [|reflexivity].
  exfalso. revert n Hlen Heq H.
  induction line as [|x line IH]; intros n Hlen Heq H; [discriminate|].
  cbn in Hlen. injection Hlen as Hlen.
  cbn [all_chars] in H. apply andb_true_iff in H as [Hx Hl].
  destruct n as [|n].
  - destruct line; [|discriminate]. cbn in Heq.
    injection Heq as ->. discriminate.
  - cbn [substring] in Heq. now apply (IH n).
Qed.

Lemma MaxScanTokenSize_pos : 0 < MaxScanTokenSize.
Proof. reflexivity. Qed.

(** The bytes of a line that the buffer can hold are read into the
    line. *)
Lemma ScanLines_from_run (a cur rest : string) :
  all_chars not_nl a = true ->
  Z.of_nat (String.length cur + String.length a) < MaxScanTokenSize ->
  ScanLines_from cur (a ++ rest) = ScanLines_from (cur ++ a) rest.
Proof.
  revert cur; induction a as [|x a IH]; intros cur H Hlen; cbn [append].
  - now rewrite append_nil_r.
  - cbn [all_chars] in H. apply andb_true_iff in H as [Hx Ha].
    apply negb_true_iff in Hx. cbn [ScanLines_from]. rewrite Hx.
    cbn [String.length] in Hlen.
    destruct (Z.leb_spec MaxScanTokenSize (Z.of_nat (String.length cur) + 1));
      [lia|].
    rewrite IH; [now rewrite append_char | assumption|].
    rewrite length_append. cbn [String.length]. lia.
Qed.

(** The scanner stops at a line that the buffer cannot hold. *)
Lemma ScanLines_from_long (a cur rest : string) :
  all_chars not_nl a = true ->
  Z.of_nat (String.length cur) < MaxScanTokenSize ->
  MaxScanTokenSize <= Z.of_nat (String.length cur + String.length a) ->
  ScanLines_from cur (a ++ rest) = ([], true).
Proof.
  revert cur; induction a as [|x a IH]; intros cur H Hcur Hlen;
    cbn [append String.length] in *; [lia|].
  cbn [all_chars] in H. apply andb_true_iff in H as [Hx Ha].
  apply negb_true_iff in Hx. cbn [ScanLines_from]. rewrite Hx.
  destruct (Z.leb_spec MaxScanTokenSize (Z.of_nat (String.length cur) + 1));
    [reflexivity|].
  apply IH; [assumption| |]; rewrite length_append; cbn [String.length]; lia.
Qed.

(** What follows whole lines is read after them, unless the scanner has
    stopped. *)
Lemma ScanLines_from_app (p cur more : string) :
  ScanLines_from cur (p ++ nl ++ more)
  = let '(l1, e1) := ScanLines_from cur (p ++ nl) in
    if e1 then (l1, true)
    else let '(l2, e2) := ScanLines_from "" more in ((l1 ++ l2)%list, e2).
Proof.
  unfold nl. revert cur; induction p as [|x p IH]; intros cur;
    cbn [append ScanLines_from].
  - change (Ascii.eqb "010" "010") with true. cbv iota.
    now destruct (ScanLines_from "" more) as [l2 e2].
  - destruct (Ascii.eqb x "010").
    + rewrite IH. destruct (ScanLines_from "" (p ++ String "010" "")) as [l1 e1].
      destruct e1; [reflexivity|].
      now destruct (ScanLines_from "" more) as [l2 e2].
    + destruct (MaxScanTokenSize <=? _); [reflexivity | apply IH].
Qed.

(** One line with its line feed. *)
Lemma ScanLines_line (line : string) :
  all_chars not_nl line = true -> all_chars not_cr line = true ->
  ScanLines_from "" (line ++ nl)
  = if MaxScanTokenSize <=? Z.of_nat (String.length line)
    then ([], true) else ([line], false).
Proof.
  intros Hnl Hcr.
  destruct (Z.leb_spec MaxScanTokenSize (Z.of_nat (String.length line))).
  - apply ScanLines_from_long; [assumption | exact MaxScanTokenSize_pos|].
    cbn [String.length Nat.add]. lia.
  - rewrite ScanLines_from_run by (cbn [String.length Nat.add]; assumption).
    cbn. now rewrite dropCR_plain.
Qed.

Lemma Split_from_head (sep : ascii) (s cur : string) :
  exists a l, Split_from cur s sep = (cur ++ a) :: l.
Proof.
  revert cur; induction s as [|x s IH]; intros cur; cbn [Split_from].
  - exists "", []. now rewrite append_nil_r.
  - destruct (Ascii.eqb x sep).
    + exists "", (Split_from "" s sep). now rewrite append_nil_r.
    + destruct (IH (cur ++ String x "")) as (a & l & ->).
      exists (String x a), l. now rewrite append_char.
Qed.

(** The scanner reads a file to its end exactly when every line of the
    file is one that its buffer can hold. *)
Lemma ScanLines_from_ok (s cur : string) :
  fits cur ->
  snd (ScanLines_from cur s) = false
  <-> Forall fits (Split_from cur s "010").
Proof.
  unfold fits. revert cur; induction s as [|x s IH]; intros cur Hcur;
    cbn [ScanLines_from Split_from].
  - split; [intros _; now constructor | reflexivity].
  - destruct (Ascii.eqb x "010").
    + specialize (IH "" MaxScanTokenSize_pos).
      destruct (ScanLines_from "" s) as [l e]. cbn [snd] in *.
      rewrite IH. split; [intros H; now constructor | intros H; now inversion H].
    + destruct (Z.leb_spec MaxScanTokenSize (Z.of_nat (String.length cur) + 1))
        as [Hlong|Hshort].
      * cbn [snd]. split; [discriminate|]. intros H. exfalso.
        destruct (Split_from_head "010" s (cur ++ String x "")) as (a & l & E).
        rewrite E in H. apply Forall_inv in H.
        rewrite !length_append in H. cbn [String.length] in H. lia.
      * apply IH. rewrite length_append. cbn [String.length]. lia.
Qed.

Lemma concat_empty_app (a b : list string) :
  String.concat "" (a ++ b) = String.concat "" a ++ String.concat "" b.
Proof.
  induction a as [|x a IH]; [reflexivity|].
  destruct a as [|y a].
  - cbn. destruct b; cbn; [now rewrite append_nil_r | reflexivity].
  - change (String.concat "" ((x :: y :: a) ++ b))
      with (x ++ String.concat "" ((y :: a) ++ b)).
    rewrite IH. cbn. now rewrite append_assoc.
Qed.


(** What is shown of a file of whole lines is shown of the file with
    more appended, and the rest follows, unless reading had failed. *)
Lemma showHistory_append (content more : string) :
  whole_lines content ->
  showHistory (Content (content ++ more))
  = match showHistory (Content content) with
    | (out, Some e) => (out, Some e)
    | (out, None) =>
        let '(lines, long) := ScanLines_from "" more in
        (out ++ String.concat "" (map showLine lines),
         if long then Some ErrTooLong else None)
    end.
Proof.
  intros [->|[p ->]]; unfold showHistory, Scan.
  - cbn [append ScanLines_from String.eqb map String.concat].
    rewrite append_nil_r.
    now destruct (ScanLines_from "" more) as [l [|]].
  - rewrite append_assoc, ScanLines_from_app.
    destruct (ScanLines_from "" (p ++ nl)) as [l1 [|]]; [reflexivity|].
    destruct (ScanLines_from "" more) as [l2 e2].
    now rewrite map_app, concat_empty_app, append_assoc.
Qed.

(** *** The text of durations and of time stamps *)

(** Twenty rounds are enough for [fmtInt] on a [uint64]: more rounds
    print the same. *)
Lemma fmtInt_loop_enough (k fuel extra : nat) (v : Z) (buf : string) :
  0 <= v < 10 ^ Z.of_nat k -> (k <= fuel)%nat ->
  fmtInt_loop (fuel + extra) v buf = fmtInt_loop fuel v buf.
Proof.
  revert fuel v buf; induction k as [|k IH]; intros fuel v buf Hv Hk.
  - assert (v = 0) by (change (10 ^ Z.of_nat 0) with 1 in Hv; lia). subst v.
    destruct fuel, extra; reflexivity.
  - destruct fuel as [|fuel]; [lia|]. cbn [Nat.add fmtInt_loop].
    destruct (Z.ltb_spec 0 v); [|reflexivity].
    apply IH; [|lia].
    rewrite Nat2Z.inj_succ, Z.pow_succ_r in Hv by lia.
    split; [apply Z.div_pos; lia | apply Z.div_lt_upper_bound; lia].
Qed.

Lemma fmtInt_fuel (extra : nat) (v : Z) (buf : string) :
  0 <= v <= Int64.maxUint64 ->
  fmtInt_loop (20 + extra) v buf = fmtInt_loop 20 v buf.
Proof.
  intros Hv. apply (fmtInt_loop_enough 20); [|lia].
  unfold Int64.maxUint64 in Hv. change (10 ^ Z.of_nat 20) with (10 ^ 20). lia.
Qed.

Lemma digit_char_plain (d : Z) : 0 <= d < 10 -> plain (digit_char d) = true.
Proof.
  intros H.
  assert (Hd : d = 0 \/ d = 1 \/ d = 2 \/ d = 3 \/ d = 4 \/ d = 5 \/ d = 6
               \/ d = 7 \/ d = 8 \/ d = 9) by lia.
  repeat (destruct Hd as [->|Hd]; [reflexivity|]). now subst.
Qed.

Lemma mod10_digit (v : Z) : 0 <= v mod 10 < 10.
Proof. apply Z.mod_pos_bound. lia. Qed.

Lemma fmtInt_loop_plain (fuel : nat) (v : Z) (buf : string) :
  all_chars plain buf = true ->
  all_chars plain (fmtInt_loop fuel v buf) = true.
Proof.
  revert v buf; induction fuel as [|fuel IH]; intros v buf H; cbn;
    [assumption|].
  destruct (0 <? v); [|assumption].
  apply IH. cbn. now rewrite digit_char_plain by apply mod10_digit.
Qed.

Lemma fmtInt_plain (v : Z) (buf : string) :
  all_chars plain buf = true -> all_chars plain (fmtInt v buf) = true.
Proof.
  intros H. unfold fmtInt. destruct (v =? 0); [exact H|].
  now apply fmtInt_loop_plain.
Qed.

Lemma fmtFrac_plain (prec : nat) (v : Z) (print : bool) (buf : string) :
  all_chars plain buf = true ->
  all_chars plain (fst (fmtFrac prec v print buf)) = true.
Proof.
  revert v print buf; induction prec as [|prec IH]; intros v print buf H;
    cbn [fmtFrac].
  - now destruct print.
  - apply IH. destruct (print || _); [|assumption].
    cbn. now rewrite digit_char_plain by apply mod10_digit.
Qed.

(** The text of a duration has neither a ['|'] nor an end of line. *)
Lemma Duration_String_plain (d : Z) : all_chars plain (Duration_String d) = true.
Proof.
  unfold Duration_String.
  set (u := if d <? 0 then _ else _). clearbody u.
  assert (Hsign : forall b s, all_chars plain s = true ->
             all_chars plain (if b : bool then String "-" s else s) = true)
    by (now intros [|] s Hs).
  destruct (u <? Second).
  - destruct (u =? 0); [reflexivity|]. apply Hsign.
    destruct (u <? Microsecond); [now apply fmtInt_plain|].
    destruct (u <? Millisecond).
    + pose proof (fmtFrac_plain 3 u false (micro ++ "s") eq_refl) as H.
      destruct (fmtFrac 3 u false (micro ++ "s")). now apply fmtInt_plain.
    + pose proof (fmtFrac_plain 6 u false "ms" eq_refl) as H.
      destruct (fmtFrac 6 u false "ms"). now apply fmtInt_plain.
  - pose proof (fmtFrac_plain 9 u false "s" eq_refl) as H.
    destruct (fmtFrac 9 u false "s") as [buf u']. cbn [fst] in H.
    apply Hsign.
    assert (Hcons : forall c s, plain c = true -> all_chars plain s = true ->
               all_chars plain (String c s) = true)
      by (intros c s Hc Hs; cbn; now rewrite Hc).
    destruct (0 <? u' / 60); [|now apply fmtInt_plain].
    destruct (0 <? u' / 60 / 60);
      repeat first [exact H | apply fmtInt_plain
                   | apply Hcons; [reflexivity|]].
Qed.

Lemma zeros_plain (n : nat) : all_chars plain (zeros n) = true.
Proof. induction n; [reflexivity | exact IHn]. Qed.

Lemma appendInt_plain (x : Z) (width : nat) :
  all_chars plain (appendInt x width) = true.
Proof.
  unfold appendInt. rewrite !all_chars_append, zeros_plain.
  rewrite fmtInt_plain by reflexivity. now destruct (x <? 0).
Qed.

Lemma Format_plain (t : Time) : all_chars plain (Format t) = true.
Proof.
  unfold Format. rewrite !all_chars_append, !appendInt_plain. reflexivity.
Qed.


Lemma digit_char_digit (d : Z) : 0 <= d < 10 -> digit (digit_char d) = true.
Proof.
  intros H.
  assert (Hd : d = 0 \/ d = 1 \/ d = 2 \/ d = 3 \/ d = 4 \/ d = 5 \/ d = 6
               \/ d = 7 \/ d = 8 \/ d = 9) by lia.
  repeat (destruct Hd as [->|Hd]; [reflexivity|]). now subst.
Qed.

Lemma fmtInt_loop_digits (fuel : nat) (v : Z) (buf : string) :
  all_chars digit buf = true ->
  all_chars digit (fmtInt_loop fuel v buf) = true.
Proof.
  revert v buf; induction fuel as [|fuel IH]; intros v buf H; cbn;
    [assumption|].
  destruct (0 <? v); [|assumption].
  apply IH. cbn. now rewrite digit_char_digit by apply mod10_digit.
Qed.

Lemma fmtInt_loop_grows (fuel : nat) (v : Z) (buf : string) :
  (String.length buf <= String.length (fmtInt_loop fuel v buf))%nat.
Proof.
  revert v buf; induction fuel as [|fuel IH]; intros v buf; cbn; [lia|].
  destruct (0 <? v); [|lia].
  etransitivity; [|apply IH]. cbn. lia.
Qed.

Lemma fmtInt_loop_first (fuel : nat) (v : Z) (buf : string) :
  0 < v ->
  (S (String.length buf) <= String.length (fmtInt_loop (S fuel) v buf))%nat.
Proof.
  intros Hv. cbn [fmtInt_loop]. destruct (Z.ltb_spec 0 v); [|lia].
  etransitivity; [|apply fmtInt_loop_grows]. cbn. lia.
Qed.







(** *** Writing a record and reading it back *)

Lemma plain_parts (s : string) :
  all_chars plain s = true ->
  all_chars not_bar s = true /\ all_chars not_nl s = true
  /\ all_chars not_cr s = true.
Proof.
  intros H. repeat split; revert H; apply all_chars_weaken; intros c;
    unfold plain; intros Hc;
    apply andb_true_iff in Hc as [Hc Hcr];
    apply andb_true_iff in Hc as [Hb Hn]; assumption.
Qed.

Lemma entry_record (task : Task) (now : Time) :
  entry task now = record task now ++ nl.
Proof. unfold entry, record. now rewrite !append_assoc. Qed.

Lemma record_line (task : Task) (now : Time) (p : ascii -> bool) :
  p "|"%char = true -> (forall c, plain c = true -> p c = true) ->
  all_chars p (Name task) = true ->
  all_chars p (record task now) = true.
Proof.
  intros Hbar Hp Hname. unfold record.
  rewrite !all_chars_append, Hname.
  rewrite (all_chars_weaken plain p _ Hp (Duration_String_plain _)).
  rewrite (all_chars_weaken plain p _ Hp (Format_plain _)).
  cbn. now rewrite Hbar.
Qed.

(** The history after the entry of a task whose name has no end-of-line
    byte is appended to a file of whole lines: the record is one more
    line, shown after what was shown before, unless reading had failed
    or the record is a line that the buffer cannot hold. *)
Lemma showHistory_record (content : string) (task : Task) (now : Time) :
  whole_lines content ->
  all_chars not_nl (Name task) = true ->
  all_chars not_cr (Name task) = true ->
  showHistory (Content (content ++ entry task now))
  = match showHistory (Content content) with
    | (out, Some e) => (out, Some e)
    | (out, None) =>
        if MaxScanTokenSize <=? Z.of_nat (String.length (record task now))
        then (out, Some ErrTooLong)
        else (out ++ showLine (record task now), None)
    end.
Proof.
  intros Hw Hnl Hcr. rewrite entry_record, (showHistory_append _ _ Hw).
  destruct (showHistory (Content content)) as [out [e|]]; [reflexivity|].
  rewrite ScanLines_line.
  - destruct (MaxScanTokenSize <=? _); cbn [map String.concat];
      [now rewrite append_nil_r | reflexivity].
  - apply record_line; try assumption; try reflexivity; intros c Hc;
      unfold plain in Hc; apply andb_true_iff in Hc as [Hc Hc3];
      apply andb_true_iff in Hc as [Hc1 Hc2]; assumption.
  - apply record_line; try assumption; try reflexivity; intros c Hc;
      unfold plain in Hc; apply andb_true_iff in Hc as [Hc Hc3];
      apply andb_true_iff in Hc as [Hc1 Hc2]; assumption.
Qed.

Lemma showLine_record (task : Task) (now : Time) :
  all_chars not_bar (Name task) = true ->
  Split (record task now) "|"
  = [Name task; Duration_String (Duration task); Format now]
  /\ showLine (record task now)
     = block (Name task) (Duration_String (Duration task)) (Format now).
Proof.
  intros Hname.
  assert (Hs : Split (record task now) "|"
               = [Name task; Duration_String (Duration task); Format now]).
  { apply Split_three; [assumption| |].
    - apply (plain_parts _ (Duration_String_plain _)).
    - apply (plain_parts _ (Format_plain _)). }
  split; [exact Hs|]. unfold showLine. now rewrite Hs.
Qed.

Lemma showLine_bar_in_name (task : Task) (now : Time) :
  all_chars not_bar (Name task) = false ->
  (3 < List.length (Split (record task now) "|"))%nat
  /\ showLine (record task now) = "".
Proof.
  intros Hname.
  assert (Hlen : (3 < List.length (Split (record task now) "|"))%nat).
  { unfold Split. rewrite Split_from_length. unfold record.
    rewrite !count_char_append.
    pose proof (count_char_pos "|" (Name task) Hname) as Hpos.
    change (count_char "|" "|") with 1%nat. lia. }
  split; [exact Hlen|]. unfold showLine.
  destruct (Split (record task now) "|") as [|a [|b [|c [|d l]]]];
    cbn in Hlen; try lia; reflexivity.
Qed.

(** *** The names of accepted tasks *)

Lemma Join_chars (p : ascii -> bool) (toks : list string) :
  p " "%char = true -> Forall (fun t => all_chars p t = true) toks ->
  all_chars p (Join toks " ") = true.
Proof.
  intros Hsp H. unfold Join. induction H as [|t toks Ht _ IH]; [reflexivity|].
  cbn [String.concat]. destruct toks as [|t' toks]; [assumption|].
  rewrite !all_chars_append, Ht, IH. cbn. now rewrite Hsp.
Qed.

Lemma token_no_eol (t : string) :
  token t -> all_chars not_nl t = true /\ all_chars not_cr t = true.
Proof.
  intros [_ H]. apply clean_no_space in H.
  split; revert H; apply all_chars_weaken; intros c Hc.
  - unfold not_nl. destruct (Ascii.eqb_spec c "010") as [->|]; [discriminate|].
    reflexivity.
  - unfold not_cr. destruct (Ascii.eqb_spec c "013") as [->|]; [discriminate|].
    reflexivity.
Qed.

(** The name of an accepted task is made of tokens of the line joined by
    spaces: it has no end-of-line byte. *)
Lemma accepted_name (line : string) (q q' : list Task) (task : Task) :
  processCommand line q = (AddedTask task, q') ->
  all_chars not_nl (Name task) = true /\ all_chars not_cr (Name task) = true.
Proof.
  intros H.
  destruct (HasPrefix line "add ") eqn:Hp.
  - destruct (Fields_add _ Hp) as [args Hf].
    rewrite (processCommand_add _ _ _ Hp Hf) in H. cbv zeta in H.
    destruct (_ =? _)%nat; [discriminate|].
    unfold enqueue in H.
    destruct (parseDuration _) as [d|e]; [|discriminate].
    destruct (d <=? 0); [discriminate|].
    injection H as <- _. cbn [Name].
    pose proof (Fields_tokens line) as Ht. rewrite Hf in Ht.
    apply Forall_inv_tail in Ht.
    rewrite <- (firstn_skipn (flagsIndex_from 0 args) args) in Ht.
    apply Forall_app in Ht as [Ht _].
    split; apply Join_chars; try reflexivity;
      (eapply Forall_impl; [|exact Ht]); intros t Htok;
      now apply token_no_eol.
  - unfold processCommand in H. rewrite Hp in H.
    destruct (_ =? _)%string; discriminate.
Qed.




(** *** Long names *)

Lemma length_repeat_char (n : nat) (c : ascii) :
  String.length (repeat_char n c) = n.
Proof. induction n as [|n IH]; cbn; [reflexivity | now rewrite IH]. Qed.

Lemma all_chars_repeat_char (p : ascii -> bool) (n : nat) (c : ascii) :
  p c = true -> all_chars p (repeat_char n c) = true.
Proof.
  intros H. induction n as [|n IH]; cbn; [reflexivity | now rewrite H, IH].
Qed.

Lemma long_name_chars (p : ascii -> bool) :
  p "|"%char = true -> p "a"%char = true -> all_chars p long_name = true.
Proof.
  intros Hb Ha. unfold long_name. cbn [all_chars].
  now rewrite Hb, all_chars_repeat_char.
Qed.

Lemma long_name_length : Z.of_nat (String.length long_name) = 65513.
Proof.
  unfold long_name. cbn [String.length].
  rewrite length_repeat_char, Nat2Z.inj_succ, Z2Nat.id; [reflexivity|].
  discriminate.
Qed.

(** An [add] line made of words joined by single spaces. *)
Lemma processCommand_words (p : string) (pre : list string) (tok : string)
      (post : list string) (q : list Task) :
  Forall token ((p :: pre) ++ tok :: post)%list ->
  Forall (fun a => dash a = false) (p :: pre) -> dash tok = true ->
  processCommand (Join ("add" :: (p :: pre) ++ tok :: post)%list " ") q
  = enqueue (Join (p :: pre) " ") (Join (tok :: post) " ") q.
Proof.
  intros Htok Hnd Hd.
  set (cmd := Join ("add" :: (p :: pre) ++ tok :: post)%list " ").
  assert (Hf : Fields cmd = "add" :: ((p :: pre) ++ tok :: post)%list).
  { apply Fields_Join. constructor; [|exact Htok].
    now apply token_ascii. }
  assert (Hp : HasPrefix cmd "add " = true)
    by (unfold cmd, Join; cbn [String.concat app];
        match goal with
        | |- HasPrefix ("add" ++ " " ++ ?X) _ = true => destruct X; reflexivity
        end).
  rewrite (processCommand_add _ _ _ Hp Hf).
  rewrite (flagsIndex_from_first (p :: pre) tok post 0 Hnd Hd).
  cbv zeta. rewrite Nat.add_0_l, firstn_length_app, skipn_length_app.
  reflexivity.
Qed.

Lemma long_task_accepted :
  processCommand ("add " ++ long_name ++ " -s 1") []
  = (AddedTask long_task, [long_task]).
Proof.
  assert (Hd : parseDuration "-s 1" = inl Second) by (vm_compute; reflexivity).
  assert (Ht : token long_name).
  { apply token_ascii; [discriminate | now apply long_name_chars]. }
  assert (H : processCommand (Join ("add" :: [long_name] ++ ["-s"; "1"])%list " ")
                             []
              = enqueue (Join [long_name] " ") (Join ["-s"; "1"] " ") []).
  { apply processCommand_words.
    - constructor; [exact Ht|].
      constructor; [now apply token_ascii|].
      constructor; [now apply token_ascii | constructor].
    - constructor; [reflexivity | constructor].
    - reflexivity. }
  unfold enqueue in H. change (Join ["-s"; "1"] " ") with "-s 1" in H.
  rewrite Hd in H. exact H.
Qed.

(** C10, as the code has it: for an accepted task and a history file of
    whole lines, the entry written is the name, the text of the duration
    and the time stamp separated by ['|'], with a line feed.  With a
    ['|'] in the name the line splits into more than three fields, and
    the record is never shown.  What [showHistory] gives after the write
    is what it gave before when reading had failed before; otherwise,
    when the line is of 64 KiB or more, what it printed before with the
    error of a line that is too long; otherwise, what it printed before
    when the name has a ['|'] (the record is skipped without a word),
    and what it printed before followed by the name, the text of the
    duration and the time stamp when the name has none. *)
Theorem bar_in_name_breaks_round_trip
        (line : string) (q q' : list Task) (task : Task) (now : Time)
        (content : string) :
  processCommand line q = (AddedTask task, q') ->
  whole_lines content ->
  let written := Name task ++ "|" ++ Duration_String (Duration task) ++ "|"
                      ++ Format now in
  logHistory task now IoOk (Some content)
  = (Some (content ++ written ++ nl), false)
  /\ (all_chars not_bar (Name task) = false ->
      (3 < List.length (Split written "|"))%nat
      /\ fst (showHistory (Content (content ++ written ++ nl)))
         = fst (showHistory (Content content)))
  /\ (all_chars not_bar (Name task) = true ->
      Split written "|"
      = [Name task; Duration_String (Duration task); Format now])
  /\ showHistory (Content (content ++ written ++ nl))
     = match showHistory (Content content) with
       | (out, Some e) => (out, Some e)
       | (out, None) =>
           if MaxScanTokenSize <=? Z.of_nat (String.length written)
           then (out, Some ErrTooLong)
           else if all_chars not_bar (Name task)
                then (out ++ "Task: " ++ Name task ++ nl
                          ++ "Duration: " ++ Duration_String (Duration task)
                          ++ nl ++ "Completed: " ++ Format now ++ nl ++ nl,
                      None)
                else (out, None)
       end.
Proof.
  intros Hacc Hw written.
  destruct (accepted_name _ _ _ _ Hacc) as [Hnl Hcr].
  assert (Hrec : record task now = written) by reflexivity.
  assert (Hentry : entry task now = written ++ nl)
    by (now rewrite entry_record, Hrec).
  pose proof (showHistory_record content task now Hw Hnl Hcr) as Hshow.
  rewrite Hentry, Hrec in Hshow.
  assert (Hall : showHistory (Content (content ++ written ++ nl))
                 = match showHistory (Content content) with
                   | (out, Some e) => (out, Some e)
                   | (out, None) =>
                       if MaxScanTokenSize <=? Z.of_nat (String.length written)
                       then (out, Some ErrTooLong)
                       else if all_chars not_bar (Name task)
                            then (out ++ "Task: " ++ Name task ++ nl
                                      ++ "Duration: "
                                      ++ Duration_String (Duration task)
                                      ++ nl ++ "Completed: " ++ Format now
                                      ++ nl ++ nl,
                                  None)
                            else (out, None)
                   end).
  { rewrite Hshow.
    destruct (showHistory (Content content)) as [out [e|]]; [reflexivity|].
    destruct (MaxScanTokenSize <=? _); [reflexivity|].
    destruct (all_chars not_bar (Name task)) eqn:Hbar.
    - destruct (showLine_record task now Hbar) as [_ Hl].
      rewrite Hrec in Hl. rewrite Hl. reflexivity.
    - destruct (showLine_bar_in_name task now Hbar) as [_ Hl].
      rewrite Hrec in Hl. now rewrite Hl, append_nil_r. }
  split; [|split; [|split]].
  - unfold logHistory. now rewrite Hentry.
  - intros Hbar. destruct (showLine_bar_in_name task now Hbar) as [Hlen _].
    rewrite Hrec in Hlen. split; [exact Hlen|].
    rewrite Hall, Hbar.
    destruct (showHistory (Content content)) as [out [e|]]; [reflexivity|].
    now destruct (MaxScanTokenSize <=? _).
  - intros Hbar. destruct (showLine_record task now Hbar) as [Hs _].
    now rewrite Hrec in Hs.
  - exact Hall.
Qed.

Lemma bar_in_name_breaks_round_trip_witness :
  processCommand "add a|b -s 1" [] = (AddedTask task_a_b, [task_a_b])
  /\ logHistory task_a_b noon IoOk (Some "")
     = (Some ("a|b|1s|2024-03-09 12:00:00" ++ nl), false)
  /\ (3 < List.length (Split "a|b|1s|2024-03-09 12:00:00" "|"))%nat
  /\ showHistory (Content ("a|b|1s|2024-03-09 12:00:00" ++ nl))
     = showHistory (Content "").
Proof.
  assert (Hacc : processCommand "add a|b -s 1" []
                 = (AddedTask task_a_b, [task_a_b]))
    by (vm_compute; reflexivity).
  destruct (bar_in_name_breaks_round_trip
              "add a|b -s 1" [] [task_a_b] task_a_b noon ""
              Hacc (or_introl eq_refl)) as (Hlog & Hbar & _ & Hshow).
  split; [exact Hacc|]. split; [exact Hlog|].
  split; [exact (proj1 (Hbar eq_refl))|].
  exact Hshow.
Defined.

(** C10 as stated fails where the record does not fit in the buffer of
    the scanner: the line [add <name> -s 1] with a name of 65513 bytes
    that has a ['|'] is short enough to be read from standard input and
    is accepted; its record in the history is a line of 64 KiB, and
    [showHistory] does not skip it without a word: it stops there with
    the error of a line that is too long. *)
Lemma long_record_is_not_skipped_silently :
  fits ("add " ++ long_name ++ " -s 1")
  /\ processCommand ("add " ++ long_name ++ " -s 1") []
     = (AddedTask long_task, [long_task])
  /\ all_chars not_bar (Name long_task) = false
  /\ showHistory (Content "") = (header, None)
  /\ showHistory (Content (entry long_task noon)) = (header, Some ErrTooLong).
Proof.
  split; [|split; [exact long_task_accepted|split; [reflexivity|split]]].
  - unfold fits. rewrite !length_append, !Nat2Z.inj_add, long_name_length.
    reflexivity.
  - reflexivity.
  - pose proof (showHistory_record "" long_task noon (or_introl eq_refl)
                  (long_name_chars _ eq_refl eq_refl)
                  (long_name_chars _ eq_refl eq_refl)) as H.
    cbn [append] in H. rewrite H.
    change (showHistory (Content "")) with (header, @None ReadError).
    assert (Hlen : Z.of_nat (String.length (record long_task noon)) = 65536).
    { unfold record, long_task. cbn [Name Duration].
      rewrite !length_append, !Nat2Z.inj_add, long_name_length.
      reflexivity. }
    rewrite Hlen. reflexivity.
Qed.

(** * Further properties *)

(** ** The command dispatcher *)

Lemma wrap_range (x : Z) : Int64.in_range (Int64.wrap x).
Proof.
  unfold Int64.in_range, Int64.wrap, Int64.min_signed, Int64.max_signed,
    Int64.modulus.
  pose proof (Z.mod_pos_bound x (2 ^ 64) eq_refl) as H.
  set (u := x mod 2 ^ 64) in *. clearbody u.
  destruct (Z.leb_spec u (2 ^ 63 - 1)); lia.
Qed.

Lemma parseDuration_range (input : string) (d : Z) :
  parseDuration input = inl d -> Int64.in_range d.
Proof.
  unfold parseDuration.
  destruct (flag.Parse _ _) as [fs|e]; [|discriminate].
  destruct (_ || _); [discriminate|].
  intros [= <-]. apply wrap_range.
Qed.

Lemma flagsIndex_from_found (args : list string) (k : nat) :
  flagsIndex_from k args <> 0%nat ->
  exists pre tok post,
    args = (pre ++ tok :: post)%list
    /\ Forall (fun a => dash a = false) pre /\ dash tok = true
    /\ flagsIndex_from k args = (k + List.length pre)%nat.
Proof.
  revert k; induction args as [|a args IH]; intros k H; cbn in *;
    [contradiction|].
  destruct (HasPrefix a "-") eqn:Ha.
  - exists [], a, args. repeat split; [constructor | exact Ha | cbn; lia].
  - destruct (IH _ H) as (pre & tok & post & -> & Hpre & Htok & Hr).
    exists (a :: pre), tok, post.
    repeat split; [now constructor | exact Htok | cbn; lia].
Qed.

(** What an accepted [add] line is made of. *)
Lemma processCommand_accepted (cmd : string) (q q' : list Task) (t : Task) :
  processCommand cmd q = (AddedTask t, q') ->
  exists p pre tok post d,
    HasPrefix cmd "add " = true
    /\ Fields cmd = "add" :: ((p :: pre) ++ tok :: post)%list
    /\ Forall (fun a => dash a = false) (p :: pre) /\ dash tok = true
    /\ parseDuration (Join (tok :: post) " ") = inl d /\ 0 < d
    /\ t = {| Name := Join (p :: pre) " "; Duration := d |}
    /\ q' = (q ++ [t])%list.
Proof.
  intros H.
  destruct (HasPrefix cmd "add ") eqn:Hp.
  - destruct (Fields_add _ Hp) as [args Hf].
    rewrite (processCommand_add _ _ _ Hp Hf) in H. cbv zeta in H.
    destruct (Nat.eqb_spec (flagsIndex_from 0 args) 0) as [|Hi];
      [discriminate|].
    destruct (flagsIndex_from_found _ _ Hi)
      as (pre & tok & post & -> & Hpre & Htok & Hr).
    rewrite Hr, Nat.add_0_l, firstn_length_app, skipn_length_app in H.
    destruct pre as [|p pre]; [rewrite Hr in Hi; cbn in Hi; lia|].
    unfold enqueue in H.
    destruct (parseDuration _) as [d|e] eqn:Hd; [|discriminate].
    destruct (Z.leb_spec d 0); [discriminate|].
    injection H as <- <-.
    exists p, pre, tok, post, d. now repeat split.
  - unfold processCommand in H. rewrite Hp in H.
    destruct (_ =? _)%string; discriminate.
Qed.

Lemma Join_nonempty (p : string) (pre : list string) :
  p <> "" -> Join (p :: pre) " " <> "".
Proof.
  intros Hp. unfold Join. cbn [String.concat].
  destruct p as [|c p]; [contradiction|].
  destruct pre; discriminate.
Qed.

Lemma accepted_valid (cmd : string) (q q' : list Task) (t : Task) :
  processCommand cmd q = (AddedTask t, q') -> valid_task t.
Proof.
  intros H.
  destruct (processCommand_accepted _ _ _ _ H)
    as (p & pre & tok & post & d & _ & Hf & _ & _ & Hd & Hpos & -> & _).
  split; cbn [Name Duration].
  - split; [exact Hpos|]. apply (parseDuration_range _ _ Hd).
  - apply Join_nonempty.
    pose proof (Fields_tokens cmd) as Ht. rewrite Hf in Ht.
    apply Forall_inv_tail, Forall_inv in Ht. apply Ht.
Qed.

(** X1: [processCommand] never removes or reorders queued tasks: the
    queue afterwards is the queue before, with the accepted task at its
    tail when there is one.  What it prints does not depend on the
    queue: there is no limit on its length and no test for a task that
    is already queued. *)
Theorem processCommand_only_appends (cmd : string) (q : list Task) :
  snd (processCommand cmd q)
  = (q ++ match fst (processCommand cmd q) with
          | AddedTask t => [t]
          | _ => []
          end)%list
  /\ forall q0, fst (processCommand cmd q0) = fst (processCommand cmd q).
Proof.
  split; [apply processCommand_queue|].
  intros q0. unfold processCommand.
  destruct (_ =? _)%string; [reflexivity|].
  destruct (negb _); [reflexivity|].
  destruct (Fields cmd) as [|a args]; [reflexivity|].
  destruct (_ =? _)%nat; [reflexivity|].
  destruct (parseDuration _) as [d|e]; [|reflexivity].
  destruct (d <=? 0); reflexivity.
Qed.

(** X2: a task is accepted only from a line whose fields are [add], one
    or more words that do not start with ['-'], and then a token that
    does.  Its name is those words joined by single spaces, so that
    splitting the name at white space gives the words back; its duration
    is what [parseDuration] gives for the rest of the fields joined by
    single spaces, and it is positive and within the 64-bit range.  The
    task goes to the tail of the queue. *)
Theorem accepted_task_is_well_formed
        (cmd : string) (q q' : list Task) (t : Task) :
  processCommand cmd q = (AddedTask t, q') ->
  exists p pre tok post,
    Fields cmd = "add" :: ((p :: pre) ++ tok :: post)%list
    /\ Forall (fun w => dash w = false) (p :: pre) /\ dash tok = true
    /\ Name t = Join (p :: pre) " "
    /\ Fields (Name t) = p :: pre
    /\ Name t <> ""
    /\ parseDuration (Join (tok :: post) " ") = inl (Duration t)
    /\ 0 < Duration t <= Int64.max_signed
    /\ q' = (q ++ [t])%list.
Proof.
  intros H. destruct (accepted_valid _ _ _ _ H) as [Hd Hn].
  destruct (processCommand_accepted _ _ _ _ H)
    as (p & pre & tok & post & d & _ & Hf & Hpre & Htok & Hpd & _ & -> & Hq).
  exists p, pre, tok, post. cbn [Name Duration] in *.
  assert (Hw : Fields (Join (p :: pre) " ") = p :: pre).
  { apply Fields_Join.
    pose proof (Fields_tokens cmd) as Ht. rewrite Hf in Ht.
    apply Forall_inv_tail in Ht. now apply Forall_app in Ht as [Ht _]. }
  now repeat split.
Qed.

Lemma accepted_task_is_well_formed_witness :
  processCommand "add  Study   Session -m 25" []
  = (AddedTask {| Name := "Study Session"; Duration := 25 * Minute |},
     [{| Name := "Study Session"; Duration := 25 * Minute |}])
  /\ exists p pre tok post,
      Fields "add  Study   Session -m 25"
      = "add" :: ((p :: pre) ++ tok :: post)%list
      /\ Forall (fun w => dash w = false) (p :: pre) /\ dash tok = true
      /\ "Study Session" = Join (p :: pre) " "
      /\ Fields "Study Session" = p :: pre
      /\ "Study Session" <> ""
      /\ parseDuration (Join (tok :: post) " ") = inl (25 * Minute)
      /\ 0 < 25 * Minute <= Int64.max_signed
      /\ [{| Name := "Study Session"; Duration := 25 * Minute |}]
         = ([] ++ [{| Name := "Study Session"; Duration := 25 * Minute |}])%list.
Proof.
  assert (H : processCommand "add  Study   Session -m 25" []
              = (AddedTask {| Name := "Study Session";
                              Duration := 25 * Minute |},
                 [{| Name := "Study Session"; Duration := 25 * Minute |}]))
    by (vm_compute; reflexivity).
  split; [exact H|].
  exact (accepted_task_is_well_formed _ _ _ _ H).
Defined.

(** X3: after the prefix ["add "], only the words of the line count, not
    the white space between them: two [add] lines with the same fields
    are treated alike. *)
Theorem processCommand_ignores_spacing (c1 c2 : string) (q : list Task) :
  HasPrefix c1 "add " = true -> HasPrefix c2 "add " = true ->
  Fields c1 = Fields c2 ->
  processCommand c1 q = processCommand c2 q.
Proof.
  intros H1 H2 Hf.
  destruct (Fields_add _ H1) as [args Hf1].
  assert (Hf2 : Fields c2 = "add" :: args) by now rewrite <- Hf.
  now rewrite (processCommand_add _ _ _ H1 Hf1),
    (processCommand_add _ _ _ H2 Hf2).
Qed.

Lemma processCommand_ignores_spacing_witness :
  Fields "add   Deep  Work   -h 1  -m 30" = Fields "add Deep Work -h 1 -m 30"
  /\ processCommand "add   Deep  Work   -h 1  -m 30" []
     = processCommand "add Deep Work -h 1 -m 30" [].
Proof.
  assert (H : Fields "add   Deep  Work   -h 1  -m 30"
              = Fields "add Deep Work -h 1 -m 30")
    by (vm_compute; reflexivity).
  split; [exact H|].
  apply (processCommand_ignores_spacing
           "add   Deep  Work   -h 1  -m 30" "add Deep Work -h 1 -m 30" []);
    [reflexivity | reflexivity | exact H].
Defined.

(** ** The duration parser *)

Lemma parseDuration_congr (a b : string) :
  flag.Parse flag.NewFlagSet (Fields a) = flag.Parse flag.NewFlagSet (Fields b) ->
  parseDuration a = parseDuration b.
Proof. intros H. unfold parseDuration. now rewrite H. Qed.

(** The four spellings of a flag of the set with its value. *)
Lemma Parse_dash (f : flag.FlagSet) (n : flag.Name) (v : string)
      (rest : list string) :
  flag.Parse f (("-" ++ flag_text n) :: v :: rest)
  = match flag.Set_ f n v (flag_text n) with
    | inl f' => flag.Parse f' rest
    | inr e => inr e
    end.
Proof. destruct n; reflexivity. Qed.

Lemma Parse_dash_dash (f : flag.FlagSet) (n : flag.Name) (v : string)
      (rest : list string) :
  flag.Parse f (("--" ++ flag_text n) :: v :: rest)
  = flag.Parse f (("-" ++ flag_text n) :: v :: rest).
Proof. destruct n; reflexivity. Qed.

Lemma Parse_dash_equals (f : flag.FlagSet) (n : flag.Name) (v : string)
      (rest : list string) :
  flag.Parse f (("-" ++ flag_text n ++ "=" ++ v) :: rest)
  = flag.Parse f (("-" ++ flag_text n) :: v :: rest).
Proof. destruct n; reflexivity. Qed.

Lemma Parse_dash_dash_equals (f : flag.FlagSet) (n : flag.Name) (v : string)
      (rest : list string) :
  flag.Parse f (("--" ++ flag_text n ++ "=" ++ v) :: rest)
  = flag.Parse f (("-" ++ flag_text n) :: v :: rest).
Proof. destruct n; reflexivity. Qed.

Lemma flag_text_ascii (n : flag.Name) :
  all_chars ascii_word ("-" ++ flag_text n) = true
  /\ all_chars ascii_word ("--" ++ flag_text n) = true
  /\ all_chars ascii_word ("-" ++ flag_text n ++ "=") = true
  /\ all_chars ascii_word ("--" ++ flag_text n ++ "=") = true.
Proof. destruct n; repeat split. Qed.

Lemma token_flag (n : flag.Name) :
  token ("-" ++ flag_text n) /\ token ("--" ++ flag_text n).
Proof.
  destruct (flag_text_ascii n) as (H1 & H2 & _).
  split; apply token_ascii; try assumption; discriminate.
Qed.

(** X4: a flag and its value may be written [-x v], [--x v], [-x=v] or
    [--x=v]: [parseDuration] gives the same answer (the same duration or
    the same error) for the four. *)
Theorem flag_spellings_agree (n : flag.Name) (v : string) :
  token v ->
  let x := flag_text n in
  parseDuration ("--" ++ x ++ " " ++ v) = parseDuration ("-" ++ x ++ " " ++ v)
  /\ parseDuration ("-" ++ x ++ "=" ++ v) = parseDuration ("-" ++ x ++ " " ++ v)
  /\ parseDuration ("--" ++ x ++ "=" ++ v)
     = parseDuration ("-" ++ x ++ " " ++ v).
Proof.
  intros Hv x. subst x.
  destruct (token_flag n) as (H1 & H2).
  destruct (flag_text_ascii n) as (_ & _ & H3 & H4).
  assert (F1 : Fields ("-" ++ flag_text n ++ " " ++ v)
               = ["-" ++ flag_text n; v]).
  { rewrite <- (Fields_Join ["-" ++ flag_text n; v])
      by (constructor; [assumption | constructor; [assumption | constructor]]).
    reflexivity. }
  assert (F2 : Fields ("--" ++ flag_text n ++ " " ++ v)
               = ["--" ++ flag_text n; v]).
  { rewrite <- (Fields_Join ["--" ++ flag_text n; v])
      by (constructor; [assumption | constructor; [assumption | constructor]]).
    reflexivity. }
  assert (F3 : Fields ("-" ++ flag_text n ++ "=" ++ v)
               = ["-" ++ flag_text n ++ "=" ++ v]).
  { rewrite <- (Fields_Join ["-" ++ flag_text n ++ "=" ++ v]); [reflexivity|].
    constructor; [|constructor].
    replace ("-" ++ flag_text n ++ "=" ++ v)
      with (("-" ++ flag_text n ++ "=") ++ v) by (destruct n; reflexivity).
    now apply token_prepend. }
  assert (F4 : Fields ("--" ++ flag_text n ++ "=" ++ v)
               = ["--" ++ flag_text n ++ "=" ++ v]).
  { rewrite <- (Fields_Join ["--" ++ flag_text n ++ "=" ++ v]); [reflexivity|].
    constructor; [|constructor].
    replace ("--" ++ flag_text n ++ "=" ++ v)
      with (("--" ++ flag_text n ++ "=") ++ v) by (destruct n; reflexivity).
    now apply token_prepend. }
  repeat split; apply parseDuration_congr.
  - now rewrite F1, F2, Parse_dash_dash.
  - now rewrite F1, F3, Parse_dash_equals.
  - now rewrite F1, F4, Parse_dash_dash_equals.
Qed.

Lemma flag_spellings_agree_witness :
  parseDuration "--m 25" = parseDuration "-m 25"
  /\ parseDuration "-m=25" = parseDuration "-m 25"
  /\ parseDuration "--m=25" = parseDuration "-m 25".
Proof.
  apply (flag_spellings_agree flag.FlagM "25").
  now apply token_ascii.
Defined.

Lemma assign_twice (f : flag.FlagSet) (n : flag.Name) (a b : Z) :
  flag.assign (flag.assign f n a) n b = flag.assign f n b.
Proof. now destruct n. Qed.

Lemma assign_swap (f : flag.FlagSet) (n1 n2 : flag.Name) (a b : Z) :
  n1 <> n2 ->
  flag.assign (flag.assign f n1 a) n2 b = flag.assign (flag.assign f n2 b) n1 a.
Proof. destruct n1, n2; intros H; try reflexivity; now contradiction H. Qed.

(** X5: when a flag is given twice, the later value is the one that
    counts: after any flags already scanned, [-x v1 -x v2] followed by
    anything gives what [-x v2] followed by the same gives, provided
    [v1] is an integer. *)
Theorem later_flag_overrides
        (in1 in2 : string) (pre rest : list string) (fs : flag.FlagSet)
        (n : flag.Name) (v1 v2 : string) (z1 : Z) :
  let x := "-" ++ flag_text n in
  Fields in1 = (pre ++ x :: v1 :: x :: v2 :: rest)%list ->
  Fields in2 = (pre ++ x :: v2 :: rest)%list ->
  flag.Scanned flag.NewFlagSet pre fs ->
  strconv.ParseInt v1 = inl z1 ->
  parseDuration in1 = parseDuration in2.
Proof.
  intros x H1 H2 Hpre Hv1. subst x. apply parseDuration_congr.
  rewrite H1, H2, !(Parse_Scanned _ _ _ _ Hpre), !Parse_dash.
  unfold flag.Set_ at 1. rewrite Hv1, Parse_dash. unfold flag.Set_.
  destruct (strconv.ParseInt v2); [|reflexivity].
  now rewrite assign_twice.
Qed.

Lemma later_flag_overrides_witness :
  parseDuration "-s 4 -m 1 -m 2 -h 1" = parseDuration "-s 4 -m 2 -h 1".
Proof.
  assert (Hpre : flag.Scanned flag.NewFlagSet ["-s"; "4"]
                   {| flag.h := 0; flag.m := 0; flag.s := 4 |}).
  { apply (flag.Scanned_pair _ "-s" "4" [] "s" flag.FlagS 4);
      try reflexivity; [discriminate | constructor]. }
  apply (later_flag_overrides
           "-s 4 -m 1 -m 2 -h 1" "-s 4 -m 2 -h 1" ["-s"; "4"] ["-h"; "1"]
           {| flag.h := 0; flag.m := 0; flag.s := 4 |} flag.FlagM "1" "2" 1);
    [reflexivity | reflexivity | exact Hpre | reflexivity].
Defined.

(** X6: the order of two different flags does not matter: [-x v1 -y v2]
    and [-y v2 -x v1] give the same answer, when both values are
    integers. *)
Theorem flags_commute
        (in1 in2 : string) (pre rest : list string) (fs : flag.FlagSet)
        (n1 n2 : flag.Name) (v1 v2 : string) (z1 z2 : Z) :
  let x := "-" ++ flag_text n1 in
  let y := "-" ++ flag_text n2 in
  Fields in1 = (pre ++ x :: v1 :: y :: v2 :: rest)%list ->
  Fields in2 = (pre ++ y :: v2 :: x :: v1 :: rest)%list ->
  flag.Scanned flag.NewFlagSet pre fs ->
  n1 <> n2 ->
  strconv.ParseInt v1 = inl z1 -> strconv.ParseInt v2 = inl z2 ->
  parseDuration in1 = parseDuration in2.
Proof.
  intros x y H1 H2 Hpre Hn Hv1 Hv2. subst x y. apply parseDuration_congr.
  rewrite H1, H2, !(Parse_Scanned _ _ _ _ Hpre), !Parse_dash.
  unfold flag.Set_. rewrite Hv1, Hv2, !Parse_dash.
  unfold flag.Set_. rewrite Hv1, Hv2.
  now rewrite assign_swap.
Qed.

Lemma flags_commute_witness :
  parseDuration "-s 30 -h 1" = parseDuration "-h 1 -s 30".
Proof.
  apply (flags_commute "-s 30 -h 1" "-h 1 -s 30" [] [] flag.NewFlagSet
                       flag.FlagS flag.FlagH "30" "1" 30 1);
    try reflexivity; [constructor | discriminate].
Defined.

(** *** Decimal values *)

Lemma digit_byte (d : Z) : 0 <= d < 10 -> byte_of (digit_char d) = d + 48.
Proof.
  intros H.
  assert (Hd : d = 0 \/ d = 1 \/ d = 2 \/ d = 3 \/ d = 4 \/ d = 5 \/ d = 6
               \/ d = 7 \/ d = 8 \/ d = 9) by lia.
  repeat (destruct Hd as [->|Hd]; [reflexivity|]). now subst.
Qed.

(** Reading the digits that [fmtInt] wrote gives the number back. *)
Lemma ParseUint_loop_fmtInt (fuel : nat) (v : Z) (buf : string) (u : bool) :
  0 <= v <= Int64.maxUint64 -> v < 10 ^ Z.of_nat fuel ->
  strconv.ParseUint_loop 10 (fmtInt_loop fuel v buf) 0 u
  = strconv.ParseUint_loop 10 buf v u.
Proof.
  revert v buf; induction fuel as [|fuel IH]; intros v buf Hv Hf.
  - assert (v = 0) by (change (10 ^ Z.of_nat 0) with 1 in Hf; lia).
    now subst v.
  - cbn [fmtInt_loop]. destruct (Z.ltb_spec 0 v) as [Hpos|];
      [|now replace v with 0 by lia].
    pose proof (mod10_digit v) as Hd.
    pose proof (Z.div_mod v 10 ltac:(lia)) as Hdm.
    unfold Int64.maxUint64 in Hv.
    rewrite IH.
    + cbn [strconv.ParseUint_loop]. rewrite (digit_byte _ Hd).
      set (d := v mod 10) in *. set (n := v / 10) in *.
      destruct (Z.eqb_spec (d + 48) 95); [lia|].
      unfold strconv.is_digit.
      destruct (Z.leb_spec 48 (d + 48)); [|lia].
      destruct (Z.leb_spec (d + 48) 57); [|lia]. cbn [andb].
      replace (d + 48 - 48) with d by lia.
      destruct (Z.leb_spec 10 d); [lia|].
      change (Int64.maxUint64 / 10 + 1) with 1844674407370955162.
      destruct (Z.leb_spec 1844674407370955162 n); [lia|].
      replace (n * 10 + d) with v by lia.
      rewrite unsigned_small by (unfold Int64.modulus; lia).
      destruct (Z.ltb_spec v (n * 10)); [lia|].
      unfold Int64.maxUint64.
      destruct (Z.ltb_spec (2 ^ 64 - 1) v); [lia|]. reflexivity.
    + unfold Int64.maxUint64. split; [apply Z.div_pos; lia|].
      apply Z.div_le_upper_bound; lia.
    + rewrite Nat2Z.inj_succ, Z.pow_succ_r in Hf by lia.
      apply Z.div_lt_upper_bound; lia.
Qed.

(** The first digit written for a positive number is not a zero. *)
Lemma fmtInt_loop_head (fuel : nat) (v : Z) (buf : string) :
  0 < v < 10 ^ Z.of_nat fuel ->
  exists d rest, 1 <= d <= 9
                 /\ fmtInt_loop fuel v buf = String (digit_char d) rest.
Proof.
  revert v buf; induction fuel as [|fuel IH]; intros v buf Hv.
  - change (10 ^ Z.of_nat 0) with 1 in Hv. lia.
  - cbn [fmtInt_loop]. destruct (Z.ltb_spec 0 v); [|lia].
    pose proof (mod10_digit v) as Hd.
    pose proof (Z.div_mod v 10 ltac:(lia)) as Hdm.
    destruct (Z.eq_dec (v / 10) 0) as [Hz|Hnz].
    + rewrite Hz. exists (v mod 10), buf. split; [lia|].
      destruct fuel; reflexivity.
    + apply IH. rewrite Nat2Z.inj_succ, Z.pow_succ_r in Hv by lia.
      assert (0 <= v / 10) by (apply Z.div_pos; lia).
      split; [lia | apply Z.div_lt_upper_bound; lia].
Qed.

Lemma ParseInt_leading_digit (d : Z) (rest : string) (n : Z) :
  1 <= d <= 9 -> 0 <= n <= Int64.max_signed ->
  strconv.ParseUint_loop 10 (String (digit_char d) rest) 0 false
  = inl (n, false) ->
  strconv.ParseInt (String (digit_char d) rest) = inl n.
Proof.
  intros Hd Hn.
  assert (Hw : (if negb false && (2 ^ (strconv.IntSize - 1) <=? n)
                then inr strconv.ErrRange
                else if false && (2 ^ (strconv.IntSize - 1) <? n)
                     then inr strconv.ErrRange
                     else inl (Int64.wrap n))
               = (inl n : Z + strconv.NumError)).
  { change (2 ^ (strconv.IntSize - 1)) with (2 ^ 63).
    unfold Int64.max_signed in Hn.
    destruct (Z.leb_spec (2 ^ 63) n); [lia|]. cbn [negb andb].
    rewrite wrap_small; [reflexivity|].
    unfold Int64.in_range, Int64.min_signed, Int64.max_signed. lia. }
  assert (Hc : d = 1 \/ d = 2 \/ d = 3 \/ d = 4 \/ d = 5 \/ d = 6 \/ d = 7
               \/ d = 8 \/ d = 9) by lia.
  decompose [or] Hc; subst d; intros Hloop;
    unfold strconv.ParseInt, strconv.ParseUint;
    match goal with
    | |- context [digit_char ?k] =>
        let c := eval vm_compute in (digit_char k) in
        change (digit_char k) with c in *
    end;
    cbv beta iota zeta; rewrite Hloop; cbv beta iota zeta;
    cbn [andb negb]; exact Hw.
Qed.

(** [strconv.ParseInt] reads back what [fmtInt] writes. *)
Lemma ParseInt_dec (n : Z) :
  0 <= n <= Int64.max_signed -> strconv.ParseInt (dec n) = inl n.
Proof.
  intros Hn. unfold dec, fmtInt.
  destruct (Z.eqb_spec n 0) as [->|Hnz]; [reflexivity|].
  assert (Hb : 0 <= n <= Int64.maxUint64 /\ n < 10 ^ Z.of_nat 20).
  { unfold Int64.max_signed, Int64.maxUint64 in *.
    change (10 ^ Z.of_nat 20) with (10 ^ 20). lia. }
  destruct Hb as [Hmax Hfuel].
  pose proof (ParseUint_loop_fmtInt 20 n "" false Hmax Hfuel) as Hloop.
  destruct (fmtInt_loop_head 20 n "" ltac:(lia)) as (d & rest & Hd & Hs).
  rewrite Hs in *.
  now apply ParseInt_leading_digit.
Qed.

Lemma digit_ascii_word (c : ascii) : digit c = true -> ascii_word c = true.
Proof.
  unfold digit, strconv.is_digit, ascii_word, isASCII_byte, isSpace.
  intros Hc. apply andb_true_iff in Hc as [H1 H2].
  apply Z.leb_le in H1, H2.
  destruct (Z.ltb_spec (byte_of c) 128), (Z.leb_spec 9 (byte_of c)),
    (Z.leb_spec (byte_of c) 13), (Z.eqb_spec (byte_of c) 32);
    try reflexivity; lia.
Qed.

Lemma dec_token (n : Z) : 0 <= n -> token (dec n).
Proof.
  intros Hn. unfold dec, fmtInt.
  destruct (Z.eqb_spec n 0); [now apply token_ascii|].
  apply token_ascii.
  - pose proof (fmtInt_loop_first 19 n "" ltac:(lia)) as Hl.
    intros He. rewrite He in Hl. cbn in Hl. lia.
  - apply (all_chars_weaken digit); [exact digit_ascii_word|].
    now apply fmtInt_loop_digits.
Qed.

Lemma dec_no_dash (n : Z) : 0 <= n -> dash (dec n) = false.
Proof.
  intros Hn. unfold dec, fmtInt.
  destruct (Z.eqb_spec n 0); [reflexivity|].
  pose proof (fmtInt_loop_digits 20 n "" eq_refl) as Hd.
  destruct (fmtInt_loop 20 n "") as [|c s]; [reflexivity|].
  cbn in Hd. apply andb_true_iff in Hd as [Hc _].
  unfold dash, HasPrefix. cbn [String.prefix].
  destruct (ascii_dec "-" c) as [<-|]; [discriminate | reflexivity].
Qed.

(** X7: an [add] line whose name is made of words that do not start
    with ['-'], followed by [-h], [-m] and [-s] with decimal numbers, is
    accepted with exactly [h*3600 + m*60 + s] seconds, as long as that
    total is positive and fits in 64-bit nanoseconds; the task goes to
    the tail of the queue under the words joined by single spaces. *)
Theorem add_with_decimal_flags
        (w : string) (words : list string) (h m s : Z) (q : list Task) :
  Forall token (w :: words) ->
  Forall (fun a => dash a = false) (w :: words) ->
  0 <= h -> 0 <= m -> 0 <= s ->
  0 < h * 3600 + m * 60 + s ->
  (h * 3600 + m * 60 + s) * Second <= Int64.max_signed ->
  let t := {| Name := Join (w :: words) " ";
              Duration := (h * 3600 + m * 60 + s) * Second |} in
  processCommand
    (Join ("add" :: (w :: words)
                 ++ ["-h"; dec h; "-m"; dec m; "-s"; dec s])%list " ") q
  = (AddedTask t, (q ++ [t])%list).
Proof.
  intros Htok Hnd Hh Hm Hs Hpos Hfit t.
  set (flags := ["-h"; dec h; "-m"; dec m; "-s"; dec s]).
  set (cmd := Join ("add" :: (w :: words) ++ flags)%list " ").
  assert (Hflags : Forall token flags).
  { repeat (constructor; [first [now apply dec_token
                                | now apply token_ascii]|]).
    constructor. }
  assert (Hf : Fields cmd = "add" :: ((w :: words) ++ "-h" :: tl flags)%list).
  { apply Fields_Join. constructor; [now apply token_ascii|].
    apply Forall_app. now split. }
  assert (Hp : HasPrefix cmd "add " = true)
    by (unfold cmd, Join; cbn [String.concat app];
        match goal with
        | |- HasPrefix ("add" ++ " " ++ ?X) _ = true => destruct X; reflexivity
        end).
  rewrite (processCommand_add _ _ _ Hp Hf).
  rewrite (flagsIndex_from_first (w :: words) "-h" (tl flags) 0 Hnd eq_refl).
  cbv zeta. rewrite Nat.add_0_l, firstn_length_app, skipn_length_app.
  cbn [List.length Nat.eqb]. unfold enqueue.
  assert (Hb : h <= Int64.max_signed /\ m <= Int64.max_signed
               /\ s <= Int64.max_signed).
  { unfold Second, Millisecond, Microsecond, Nanosecond, Int64.max_signed in *.
    lia. }
  destruct Hb as (Hbh & Hbm & Hbs).
  assert (Hparse : flag.Parse flag.NewFlagSet
                     (Fields (Join ("-h" :: tl flags) " "))
                   = inl {| flag.h := h; flag.m := m; flag.s := s |}).
  { rewrite Fields_Join by exact Hflags. cbn [tl flags].
    rewrite (Parse_dash _ flag.FlagH). unfold flag.Set_.
    rewrite ParseInt_dec by lia.
    rewrite (Parse_dash _ flag.FlagM). unfold flag.Set_.
    rewrite ParseInt_dec by lia.
    rewrite (Parse_dash _ flag.FlagS). unfold flag.Set_.
    rewrite ParseInt_dec by lia. reflexivity. }
  rewrite (parseDuration_parsed _ _ Hparse). cbn [flag.h flag.m flag.s].
  destruct (Z.ltb_spec h 0), (Z.ltb_spec m 0), (Z.ltb_spec s 0); try lia.
  cbn [orb].
  replace (h * Hour + m * Minute + s * Second)
    with ((h * 3600 + m * 60 + s) * Second) by (unfold Hour, Minute; ring).
  rewrite wrap_small
    by (unfold Int64.in_range, Int64.min_signed, Second, Millisecond,
          Microsecond, Nanosecond in *; lia).
  destruct (Z.leb_spec ((h * 3600 + m * 60 + s) * Second) 0);
    [unfold Second, Millisecond, Microsecond, Nanosecond in *; lia|].
  reflexivity.
Qed.

Lemma add_with_decimal_flags_witness :
  processCommand "add Deep Work -h 1 -m 30 -s 0" []
  = (AddedTask {| Name := "Deep Work"; Duration := 5400 * Second |},
     [{| Name := "Deep Work"; Duration := 5400 * Second |}]).
Proof.
  assert (Ht : Forall token ["Deep"; "Work"])
    by (repeat (constructor; [now apply token_ascii|]); constructor).
  assert (Hd : Forall (fun a => dash a = false) ["Deep"; "Work"])
    by (repeat (constructor; [reflexivity|]); constructor).
  assert (Hfit : (1 * 3600 + 30 * 60 + 0) * Second <= Int64.max_signed)
    by discriminate.
  exact (add_with_decimal_flags "Deep" ["Work"] 1 30 0 []
           Ht Hd ltac:(discriminate) ltac:(discriminate) ltac:(discriminate)
           eq_refl Hfit).
Defined.

(** ** The timer *)

Lemma Sub_exact (t u : Z) : Int64.in_range (t - u) -> Sub t u = t - u.
Proof.
  unfold Int64.in_range, Sub, minDuration, maxDuration. intros H.
  destruct (Z.ltb_spec (t - u) Int64.min_signed); [lia|].
  destruct (Z.ltb_spec Int64.max_signed (t - u)); [lia | reflexivity].
Qed.

(** Rounding to the second, up to the last second of the range. *)
Lemma Round_Second_wide (d : Z) :
  0 <= d -> d + Second <= Int64.max_signed ->
  Round d Second = (d + 500 * Millisecond) / Second * Second.
Proof.
  intros Hd Hmax. unfold Round. unfold Int64.max_signed in Hmax.
  change Second with 1000000000 in *.
  change (500 * Millisecond) with 500000000.
  change (1000000000 <=? 0) with false. cbv iota.
  destruct (Z.ltb_spec d 0); [lia|].
  rewrite Z.rem_mod_nonneg by lia.
  pose proof (Z.div_mod d 1000000000 ltac:(lia)) as Hdm.
  pose proof (Z.mod_pos_bound d 1000000000 ltac:(lia)) as Hr.
  set (q := d / 1000000000) in *. set (r := d mod 1000000000) in *.
  assert (Hq : 0 <= q) by (subst q; apply Z.div_pos; lia).
  unfold lessThanHalf, Int64.modulus.
  rewrite (unsigned_small r), (unsigned_small (r + r)),
    (unsigned_small 1000000000) by (unfold Int64.modulus; lia).
  unfold Int64.sub, Int64.add.
  assert (Hin : forall x, 0 <= x <= d + 1000000000 -> Int64.in_range x)
    by (intros x Hx; unfold Int64.in_range, Int64.min_signed,
          Int64.max_signed; lia).
  destruct (Z.ltb_spec (r + r) 1000000000).
  - rewrite wrap_small by (apply Hin; lia).
    replace ((d + 500000000) / 1000000000) with q
      by (apply Z.div_unique with (r + 500000000); lia).
    lia.
  - rewrite (wrap_small (d + 1000000000)) by (apply Hin; lia).
    rewrite wrap_small by (apply Hin; lia).
    destruct (Z.ltb_spec d (d + 1000000000 - r)); [|lia].
    replace ((d + 500000000) / 1000000000) with (q + 1)
      by (apply Z.div_unique with (r - 500000000); lia).
    lia.
Qed.

(** A tick no more than half a second late shows the whole seconds left,
    for every timer of whole seconds that a duration can hold. *)
Lemma tick_on_time_wide (task : string) (start k n j : Z) :
  1 <= k <= n -> n * Second <= Int64.max_signed ->
  0 <= j < 500 * Millisecond ->
  tick task (start + n * Second) (start + k * Second + j)
  = if n - k <=? 0 then (Completed task, true)
    else (Remaining task ((n - k) * Second), false).
Proof.
  intros Hk Hn Hj. unfold tick, Until.
  assert (HS : Second = 1000000000) by reflexivity.
  assert (HM : 500 * Millisecond = 500000000) by reflexivity.
  unfold Int64.max_signed in Hn.
  replace (start + n * Second - (start + k * Second + j))
    with ((n - k) * Second - j) by ring.
  rewrite Sub_exact
    by (replace (start + n * Second - (start + k * Second + j))
          with ((n - k) * Second - j) by ring;
        unfold Int64.in_range, Int64.min_signed, Int64.max_signed;
        rewrite HS, HM in *; nia).
  replace (start + n * Second - (start + k * Second + j))
    with ((n - k) * Second - j) by ring.
  destruct (Z.leb_spec (n - k) 0).
  - rewrite Round_Second_late by (rewrite HS, HM in *; nia). reflexivity.
  - rewrite Round_Second_wide
      by (unfold Int64.max_signed; rewrite HS, HM in *; nia).
    replace (((n - k) * Second - j + 500 * Millisecond) / Second)
      with (n - k)
      by (rewrite HS, HM in *;
          apply Z.div_unique with (500000000 - j); lia).
    destruct (Z.leb_spec ((n - k) * Second) 0);
      [rewrite HS in *; lia | reflexivity].
Qed.

Lemma ticking_on_time (task : string) (start N : Z) (later : list Z)
      (late : list Z) (k : Z) :
  late <> [] -> 1 <= k -> N * Second <= Int64.max_signed ->
  k + Z.of_nat (List.length late) = N + 1 ->
  Forall (fun j => 0 <= j < 500 * Millisecond) late ->
  ticking task (start + N * Second) (on_time start k late ++ later)
  = ((map (Remaining task) (down (List.length late - 1))
        ++ [Completed task])%list, true).
Proof.
  revert k; induction late as [|j more IH]; intros k Hne Hk HN Hlen Hj;
    [contradiction|].
  apply Forall_cons_iff in Hj as [Hj Hmore].
  cbn [on_time app ticking List.length] in *.
  rewrite (tick_on_time_wide task start k N j) by lia.
  destruct more as [|j' more].
  - cbn [List.length] in Hlen.
    destruct (Z.leb_spec (N - k) 0); [reflexivity | lia].
  - destruct (Z.leb_spec (N - k) 0); [cbn [List.length] in Hlen; lia|].
    rewrite (IH (k + 1)); [|discriminate|lia|lia|lia|exact Hmore].
    cbn [List.length Nat.sub down map app].
    rewrite Nat.sub_0_r. do 3 f_equal.
    cbn [List.length] in Hlen. lia.
Qed.

Lemma Round_whole_seconds (n : Z) :
  0 <= n -> n * Second <= Int64.max_signed ->
  Round (n * Second) Second = n * Second.
Proof.
  intros Hn Hmax. unfold Round. unfold Int64.max_signed in Hmax.
  change Second with 1000000000 in *.
  change (1000000000 <=? 0) with false. cbv iota.
  destruct (Z.ltb_spec (n * 1000000000) 0); [lia|].
  rewrite Z.rem_mul by discriminate.
  change (lessThanHalf 0 1000000000) with true. cbv iota.
  unfold Int64.sub. rewrite Z.sub_0_r. apply wrap_small.
  unfold Int64.in_range, Int64.min_signed, Int64.max_signed. lia.
Qed.

(** X8: a timer of [n] seconds, for every [n] that a duration can hold,
    whose ticks come once per second, each less than half a second
    late, prints its start line with [n] seconds, then counts down
    [n - 1], ..., 1 seconds, one progress notice per tick, and prints
    "Completed" on tick [n], with which it returns; later ticks print
    nothing. *)
Theorem countdown (task : string) (start : Z) (late later : list Z) :
  late <> [] ->
  Z.of_nat (List.length late) * Second <= Int64.max_signed ->
  Forall (fun j => 0 <= j < 500 * Millisecond) late ->
  let n := List.length late in
  startTimer task (Z.of_nat n * Second) start (on_time start 1 late ++ later)
  = (Starting task (Z.of_nat n * Second)
       :: map (Remaining task) (down (n - 1)) ++ [Completed task], true)%list.
Proof.
  intros Hne Hlen Hj n. unfold startTimer.
  rewrite (ticking_on_time task start (Z.of_nat n) later late 1);
    try assumption; try lia.
  now rewrite Round_whole_seconds by lia.
Qed.

Lemma countdown_witness :
  startTimer "T" (5 * Second) 0
             [1000000000; 2000000001; 3000000002; 4000000003; 5000000004;
              6000000000]
  = ([Starting "T" (5 * Second); Remaining "T" (4 * Second);
      Remaining "T" (3 * Second); Remaining "T" (2 * Second);
      Remaining "T" (1 * Second); Completed "T"], true).
Proof.
  assert (Hj : Forall (fun j => 0 <= j < 500 * Millisecond) [0; 1; 2; 3; 4])
    by (repeat (constructor; [split; [discriminate | reflexivity]|]);
        constructor).
  exact (countdown "T" 0 [0; 1; 2; 3; 4] [6000000000]
           ltac:(discriminate) ltac:(discriminate) Hj).
Defined.






(** ** The history log *)

(** X11: [showHistory] prints nothing for a line exactly when the line
    does not have two ['|']: records with fewer or more than three
    fields are skipped, all others are shown. *)
Theorem showLine_skips_other_shapes (line : string) :
  showLine line = "" <-> count_char "|" line <> 2%nat.
Proof.
  unfold showLine.
  pose proof (Split_from_length "|" line "") as Hlen. fold (Split line "|") in Hlen.
  destruct (Split line "|") as [|a [|b [|c [|d l]]]]; cbn in Hlen;
    split; intros H; try reflexivity; try lia; try discriminate.
Qed.

Lemma whole_lines_entry (content : string) (t : Task) (now : Time) :
  whole_lines (content ++ entry t now).
Proof.
  right. exists (content ++ record t now).
  now rewrite entry_record, append_assoc.
Qed.

Lemma concat_empty_cons (x : string) (xs : list string) :
  String.concat "" (x :: xs) = x ++ String.concat "" xs.
Proof. exact (concat_empty_app [x] xs). Qed.

Lemma entries_cons (r : Task * Time) (l : list (Task * Time)) :
  entries (r :: l) = entry (fst r) (snd r) ++ entries l.
Proof. unfold entries. cbn [map]. apply concat_empty_cons. Qed.

Lemma entries_app (a b : list (Task * Time)) :
  entries (a ++ b) = entries a ++ entries b.
Proof. unfold entries. now rewrite map_app, concat_empty_app. Qed.

Lemma logAll_content (records : list (Task * Time)) (file : option string) :
  content_of (logAll records file) = content_of file ++ entries records.
Proof.
  revert file; induction records as [|[t now] more IH]; intros file.
  - cbn. now rewrite append_nil_r.
  - cbn [logAll]. rewrite IH, entries_cons. cbn [logHistory fst snd content_of].
    now rewrite append_assoc.
Qed.

Lemma logAll_some (records : list (Task * Time)) (c : string) :
  exists c', logAll records (Some c) = Some c'.
Proof.
  revert c; induction records as [|[t now] more IH]; intros c.
  - now exists c.
  - cbn [logAll logHistory fst]. apply IH.
Qed.

Lemma showHistory_entries (l : list (Task * Time)) (content : string) :
  whole_lines content ->
  Forall (fun r => all_chars plain (Name (fst r)) = true
                   /\ fits (record (fst r) (snd r))) l ->
  showHistory (Content (content ++ entries l))
  = match showHistory (Content content) with
    | (out, Some e) => (out, Some e)
    | (out, None) =>
        (out ++ String.concat ""
                  (map (fun r => block (Name (fst r))
                                       (Duration_String (Duration (fst r)))
                                       (Format (snd r))) l),
         None)
    end.
Proof.
  intros Hw Hl; revert content Hw;
    induction Hl as [|r l [Hr Hfit] _ IH]; intros content Hw.
  - cbn [entries map String.concat]. rewrite append_nil_r.
    destruct (showHistory (Content content)) as [out [e|]]; [reflexivity|].
    now rewrite append_nil_r.
  - rewrite entries_cons, <- append_assoc.
    rewrite IH by apply whole_lines_entry.
    destruct (plain_parts _ Hr) as (Hbar & Hnl & Hcr).
    rewrite (showHistory_record content _ _ Hw Hnl Hcr).
    destruct (showHistory (Content content)) as [out [e|]]; [reflexivity|].
    unfold fits in Hfit.
    destruct (Z.leb_spec MaxScanTokenSize
                (Z.of_nat (String.length (record (fst r) (snd r))))); [lia|].
    cbn [map]. rewrite concat_empty_cons, append_assoc.
    now rewrite (proj2 (showLine_record (fst r) (snd r) Hbar)).
Qed.

(** X12: after any number of successful logs into a history file of
    whole lines, of tasks whose names have neither ['|'] nor an end of
    line and whose records are lines of less than 64 KiB, [showHistory]
    prints what it printed before followed by one block per logged task,
    in the order of the logs, each with the name, the text of the
    duration and the time stamp that were logged; unless reading the
    file had failed before the logs, in which case it fails as
    before. *)
Theorem history_round_trip_many
        (records : list (Task * Time)) (file : option string) :
  records <> [] ->
  whole_lines (content_of file) ->
  Forall (fun r => all_chars plain (Name (fst r)) = true
                   /\ fits (Name (fst r) ++ "|"
                              ++ Duration_String (Duration (fst r)) ++ "|"
                              ++ Format (snd r))) records ->
  showHistory (Open (logAll records file))
  = match showHistory (Content (content_of file)) with
    | (out, Some e) => (out, Some e)
    | (out, None) =>
        (out ++ String.concat ""
                  (map (fun r => "Task: " ++ Name (fst r) ++ nl
                                   ++ "Duration: "
                                   ++ Duration_String (Duration (fst r)) ++ nl
                                   ++ "Completed: " ++ Format (snd r)
                                   ++ nl ++ nl) records),
         None)
    end.
Proof.
  intros Hne Hw Hl.
  assert (Hsome : logAll records file
                  = Some (content_of file ++ entries records)).
  { pose proof (logAll_content records file) as Hc.
    destruct records as [|[t now] more]; [contradiction|].
    cbn [logAll logHistory fst] in *.
    fold (content_of file) in *.
    destruct (logAll_some more (content_of file ++ entry t now)) as [c E].
    rewrite E in *. cbn [content_of] in Hc. now rewrite Hc. }
  rewrite Hsome. cbn [Open].
  exact (showHistory_entries records (content_of file) Hw Hl).
Qed.

Lemma history_round_trip_many_witness :
  showHistory (Open (logAll [(task_A, noon);
                             ({| Name := "Deep Work"; Duration := 90 * Minute |},
                              noon)] None))
  = (header ++ "Task: A" ++ nl ++ "Duration: 3s" ++ nl
            ++ "Completed: 2024-03-09 12:00:00" ++ nl ++ nl
            ++ "Task: Deep Work" ++ nl ++ "Duration: 1h30m0s" ++ nl
            ++ "Completed: 2024-03-09 12:00:00" ++ nl ++ nl, None).
Proof.
  apply (history_round_trip_many
           [(task_A, noon);
            ({| Name := "Deep Work"; Duration := 90 * Minute |}, noon)] None).
  - discriminate.
  - left. reflexivity.
  - repeat (constructor; [split; [reflexivity | vm_compute; reflexivity]|]).
    constructor.
Defined.

(** ** Runs of the program *)

Lemma step_history (st st' : System) (ev : Event) (o : list Obs) :
  step st ev = Some (st', o) ->
  (exists added,
      content_of (history st') = content_of (history st) ++ added)
  /\ (history st <> None -> history st' <> None).
Proof.
  intros H. step_cases H; try (rewrite command_spec in H);
    injection H as <- <-; cbn [history set_pc];
    try (split; [exists ""; now rewrite append_nil_r | trivial]).
  all: match goal with
       | E : logHistory _ _ ?io _ = _ |- _ =>
           destruct io; cbn in E; injection E as <- <-
       end.
  all: split; [|try discriminate; trivial].
  all: try (eexists; reflexivity).
  exists "". now rewrite append_nil_r.
Qed.

(** X13: the program only ever appends to the history: whatever the
    commands, the timers and the answers of the operating system, the
    content of the history file at the start of a run is a prefix of its
    content at the end, and a file that exists is never removed. *)
Theorem history_is_append_only
        (evs : list Event) (st st' : System) (obs : list Obs) :
  run st evs = Some (st', obs) ->
  (exists added,
      content_of (history st') = content_of (history st) ++ added)
  /\ (history st <> None -> history st' <> None).
Proof.
  revert st obs; induction evs as [|ev later IH]; intros st obs H.
  - injection H as <- <-. split; [|trivial].
    exists "". now rewrite append_nil_r.
  - apply run_cons_inv in H as (st1 & o & os & Hstep & Hrun & ->).
    destruct (step_history _ _ _ _ Hstep) as [[a Ha] Hn].
    destruct (IH _ _ Hrun) as [[b Hb] Hn'].
    split; [|auto].
    exists (a ++ b). now rewrite Hb, Ha, append_assoc.
Qed.

Lemma history_is_append_only_witness :
  exists st obs,
    run (initial (Some ("old|1s|2024-01-01 00:00:00" ++ nl))) logged_then_exit
    = Some (st, obs)
    /\ exists added,
      content_of (history st)
      = ("old|1s|2024-01-01 00:00:00" ++ nl) ++ added.
Proof.
  destruct (run (initial (Some ("old|1s|2024-01-01 00:00:00" ++ nl)))
                logged_then_exit) as [[st obs]|] eqn:E;
    [|vm_compute in E; discriminate].
  exists st, obs. split; [reflexivity|].
  exact (proj1 (history_is_append_only _ _ _ _ E)).
Defined.

Lemma combine_app {A B} (a b : list A) (c d : list B) :
  List.length a = List.length c ->
  combine (a ++ b) (c ++ d) = (combine a c ++ combine b d)%list.
Proof.
  revert c; induction a as [|x a IH]; intros [|y c] H; try discriminate;
    [reflexivity|].
  cbn. f_equal. apply IH. now injection H.
Qed.

Lemma step_logs (st st' : System) (ev : Event) (o : list Obs) :
  step st ev = Some (st', o) ->
  (logged o ++ awaiting st' = awaiting st ++ popped o)%list
  /\ List.length (logged_ok o) = List.length (stamps_ok [ev])
  /\ (no_partial_write ev ->
      content_of (history st')
      = content_of (history st)
          ++ entries (combine (logged_ok o) (stamps_ok [ev]))).
Proof.
  unfold awaiting. intros H. step_cases H; try (rewrite command_spec in H);
    injection H as <- <-; cbn [history set_pc pc];
    rewrite ?E0; cbn [logged logged_ok stamps_ok popped flat_map app];
    try (split; [first [reflexivity
                       | now destruct (fst (processCommand _ _))]
                |split; [reflexivity|intros _; cbn; now rewrite append_nil_r]]).
  match goal with
  | E : logHistory _ _ ?io _ = _ |- _ =>
      destruct io; cbn in E; injection E as <- <-
  end; (split; [reflexivity|split; [reflexivity|]]); intros Hw; cbn in *;
    try contradiction; now rewrite ?append_nil_r.
Qed.

Lemma run_logs (evs : list Event) (st st' : System) (obs : list Obs) :
  run st evs = Some (st', obs) ->
  (logged obs ++ awaiting st' = awaiting st ++ popped obs)%list
  /\ List.length (logged_ok obs) = List.length (stamps_ok evs)
  /\ (Forall no_partial_write evs ->
      content_of (history st')
      = content_of (history st)
          ++ entries (combine (logged_ok obs) (stamps_ok evs))).
Proof.
  revert st obs; induction evs as [|ev later IH]; intros st obs H.
  - injection H as <- <-. cbn. rewrite app_nil_r.
    repeat split. intros _. now rewrite append_nil_r.
  - apply run_cons_inv in H as (st1 & o & os & Hstep & Hrun & ->).
    destruct (step_logs _ _ _ _ Hstep) as (Ha & Hl & Hc).
    destruct (IH _ _ Hrun) as (Ha' & Hl' & Hc').
    change (ev :: later) with ([ev] ++ later)%list.
    unfold logged, logged_ok, popped, stamps_ok in *. rewrite !flat_map_app.
    repeat split.
    + rewrite <- app_assoc, Ha', app_assoc, Ha, <- app_assoc. reflexivity.
    + rewrite !length_app. congruence.
    + intros Hw. apply Forall_cons_iff in Hw as [Hw Hws].
      rewrite combine_app, entries_app by exact Hl.
      rewrite (Hc' Hws), (Hc Hw). now rewrite append_assoc.
Qed.

(** X14: in every run of the program each popped task is logged once, in
    the order of the pops (the last pop may still await its log); and
    when no write stops half way, the history file is its content at
    the start followed by the entries of the tasks logged with success,
    in that order, each with the time stamp of its log. *)
Theorem history_records_the_pops
        (file : option string) (evs : list Event) (st : System)
        (obs : list Obs) :
  run (initial file) evs = Some (st, obs) ->
  (logged obs ++ awaiting st)%list = popped obs
  /\ List.length (logged_ok obs) = List.length (stamps_ok evs)
  /\ (Forall no_partial_write evs ->
      content_of (history st)
      = content_of file ++ entries (combine (logged_ok obs) (stamps_ok evs))).
Proof.
  intros H. apply run_logs in H as (Ha & Hl & Hc). now repeat split.
Qed.

Lemma history_records_the_pops_witness :
  exists st obs,
    run (initial None) two_tasks = Some (st, obs)
    /\ map Name (logged obs) = ["A"] /\ map Name (awaiting st) = ["B"]
    /\ (logged obs ++ awaiting st)%list = popped obs
    /\ content_of (history st) = entries [(task_A, noon)].
Proof.
  assert (H : run (initial None) two_tasks = two_tasks_run)
    by (vm_compute; reflexivity).
  unfold two_tasks_run in H.
  destruct (history_records_the_pops None two_tasks _ _ H) as (Ha & _ & Hc).
  eexists _, _. split; [exact H|].
  split; [reflexivity|]. split; [reflexivity|]. split; [exact Ha|].
  apply Hc. unfold two_tasks. repeat (constructor; [exact I|]). constructor.
Defined.

Lemma step_accepted_valid (st st' : System) (ev : Event) (o : list Obs) :
  step st ev = Some (st', o) -> Forall valid_task (accepted o).
Proof.
  intros H. step_cases H; try (rewrite command_spec in H);
    injection H as <- <-; cbn [accepted flat_map app]; try constructor.
  all: destruct (processCommand line (taskQueue st)) as [f q'] eqn:Hc;
    cbn [fst]; destruct f; cbn [app]; try (now constructor);
    constructor; [exact (accepted_valid _ _ _ _ Hc) | constructor].
Qed.

Lemma run_accepted_valid (evs : list Event) (st st' : System)
      (obs : list Obs) :
  run st evs = Some (st', obs) -> Forall valid_task (accepted obs).
Proof.
  revert st obs; induction evs as [|ev later IH]; intros st obs H.
  - injection H as <- <-. constructor.
  - apply run_cons_inv in H as (st1 & o & os & Hstep & Hrun & ->).
    unfold accepted. rewrite flat_map_app. apply Forall_app. split.
    + exact (step_accepted_valid _ _ _ _ Hstep).
    + exact (IH _ _ Hrun).
Qed.

(** X15: in every run of the program the tasks that wait in the queue
    and the tasks that were popped, hence every task a timer is launched
    for, have a positive duration within the 64-bit range and a name
    that is not empty. *)
Theorem queued_tasks_are_valid
        (file : option string) (evs : list Event) (st : System)
        (obs : list Obs) :
  run (initial file) evs = Some (st, obs) ->
  Forall valid_task (taskQueue st) /\ Forall valid_task (popped obs).
Proof.
  intros H. pose proof (run_accepted_valid _ _ _ _ H) as Hv.
  apply run_queue in H as (Hq & _); [|intros _; reflexivity].
  cbn [initial taskQueue app] in Hq. rewrite <- Hq in Hv.
  apply Forall_app in Hv. tauto.
Qed.

Lemma queued_tasks_are_valid_witness :
  exists st obs,
    run (initial None) two_tasks = Some (st, obs)
    /\ map Name (taskQueue st) = ["C"] /\ map Name (popped obs) = ["A"; "B"]
    /\ Forall valid_task (taskQueue st) /\ Forall valid_task (popped obs).
Proof.
  assert (H : run (initial None) two_tasks = two_tasks_run)
    by (vm_compute; reflexivity).
  unfold two_tasks_run in H.
  eexists _, _. split; [exact H|]. split; [reflexivity|].
  split; [reflexivity|].
  exact (queued_tasks_are_valid None two_tasks _ _ H).
Defined.

Lemma run_exited (evs : list Event) (st st' : System) (obs : list Obs) :
  pc st = Exited -> run st evs = Some (st', obs) -> obs = [].
Proof.
  intros Hpc. destruct evs as [|ev later]; cbn [run].
  - now intros [= _ <-].
  - now rewrite (step_exited _ _ Hpc).
Qed.

Lemma step_one_timer (st st' : System) (ev : Event) (o os : list Obs) :
  timer_belongs st -> step st ev = Some (st', o) ->
  (pc st' = Exited -> os = []) ->
  one_timer (running st') os = true ->
  one_timer (running st) (o ++ os) = true.
Proof.
  unfold timer_belongs, running. intros Hb H Hex Hos. step_cases H;
    try (rewrite command_spec in H);
    injection H as <- <-; cbn [pc timer set_pc app one_timer] in *;
    rewrite ?E0 in *; rewrite ?Task_eqb_refl; cbn [andb];
    try exact Hos.
  all: try (destruct (fst (processCommand _ _));
            first [exact Hos | now rewrite (Hex eq_refl)]).
  all: try (now rewrite (Hex eq_refl)).
  all: try discriminate.
  all: cbn [notice_task].
  all: try (destruct Hb as [Hb|[[e Hb]|Hb]]; try congruence).
  all: try (injection Hb as <-; now rewrite String.eqb_refl).
  all: match goal with
       | Ht : tick _ _ _ = _ |- _ =>
           unfold tick in Ht; destruct (_ <=? 0); injection Ht as <- <-
       end; injection Hb as <- <-; cbn [notice_task];
    now rewrite String.eqb_refl.
Qed.

Lemma run_one_timer (evs : list Event) (st st' : System) (obs : list Obs) :
  timer_belongs st -> run st evs = Some (st', obs) ->
  one_timer (running st) obs = true.
Proof.
  revert st obs; induction evs as [|ev later IH]; intros st obs Hb H.
  - now injection H as <- <-.
  - apply run_cons_inv in H as (st1 & o & os & Hstep & Hrun & ->).
    apply (step_one_timer st st1 ev); try assumption.
    + intros Hpc. exact (run_exited _ _ _ _ Hpc Hrun).
    + exact (IH _ _ (step_timer_belongs _ _ _ _ Hb Hstep) Hrun).
Qed.

(** X16: in every run of the program one timer runs at a time.  A task
    is popped only when no popped task is waiting for its completion to
    be seen; the completion that is seen is that of the task popped
    last; and every line of a timer is printed for the task popped last,
    between its pop and the receipt of its completion.  The timer that
    is alive is the timer of that task, and there is none when the loop
    is at its top. *)
Theorem one_timer_for_the_popped_task
        (file : option string) (evs : list Event) (st : System)
        (obs : list Obs) :
  run (initial file) evs = Some (st, obs) ->
  one_timer None obs = true /\ timer_belongs st.
Proof.
  intros H. split.
  - exact (run_one_timer evs (initial file) st obs eq_refl H).
  - exact (run_timer_belongs evs (initial file) st obs eq_refl H).
Qed.

Lemma one_timer_for_the_popped_task_witness :
  exists st obs,
    run (initial None) two_tasks = Some (st, obs)
    /\ pc st = Logging {| Name := "B"; Duration := Second |}
    /\ timer st = Spawned {| Name := "B"; Duration := Second |}
    /\ one_timer None obs = true /\ timer_belongs st.
Proof.
  assert (H : run (initial None) two_tasks = two_tasks_run)
    by (vm_compute; reflexivity).
  unfold two_tasks_run in H.
  eexists _, _. split; [exact H|]. split; [reflexivity|].
  split; [reflexivity|].
  exact (one_timer_for_the_popped_task None two_tasks _ _ H).
Defined.

Lemma tick_at_end (task : string) (endTime : Z) :
  tick task endTime endTime = (Completed task, true).
Proof. unfold tick, Until, Sub. now rewrite Z.sub_diag. Qed.

(** X17: a launched timer can always run to its end and give the loop
    back: from the inner loop with a timer alive, moves of the timer
    goroutine followed by the completion being seen lead to the top of
    the loop with no timer, and with the queue and the history as they
    were. *)
Theorem running_timer_can_finish (st : System) (t : Task) :
  pc st = Waiting t -> timer st <> NoTimer ->
  exists evs obs,
    Forall timer_move evs
    /\ run st evs
       = Some ({| pc := AtTop; taskQueue := taskQueue st; timer := NoTimer;
                  history := history st |}, obs).
Proof.
  destruct st as [p q tm h]. cbn [pc timer taskQueue history].
  intros -> Ht.
  destruct tm as [|t'|name endTime|]; [contradiction| | |].
  - exists [EvStart 0; EvTick (0 + Duration t'); EvDone]. eexists.
    split; [repeat constructor|].
    cbn [run]. unfold step at 1. cbn [pc timer taskQueue history].
    unfold step at 1. cbn [pc timer taskQueue history].
    rewrite tick_at_end.
    unfold step at 1. cbn [pc timer taskQueue history].
    reflexivity.
  - exists [EvTick endTime; EvDone]. eexists.
    split; [repeat constructor|].
    cbn [run]. unfold step at 1. cbn [pc timer taskQueue history].
    rewrite tick_at_end.
    unfold step at 1. cbn [pc timer taskQueue history].
    reflexivity.
  - exists [EvDone]. eexists. split; [repeat constructor|].
    cbn [run]. unfold step at 1. cbn [pc timer taskQueue history].
    reflexivity.
Qed.

Lemma running_timer_can_finish_witness :
  exists evs obs,
    Forall timer_move evs
    /\ run ticking_A evs
       = Some ({| pc := AtTop; taskQueue := []; timer := NoTimer;
                  history := Some (entry task_A noon) |}, obs).
Proof.
  apply (running_timer_can_finish ticking_A task_A);
    [reflexivity | discriminate].
Defined.

(** ** Sessions *)

Lemma step_refused (file : option string) (line : string) :
  refused line ->
  step (initial file) (EvCmd line)
  = Some (initial file, [Said (fst (processCommand line []))]).
Proof.
  intros Hr. unfold step, initial. cbn [pc taskQueue is_nil].
  rewrite command_spec. cbn [taskQueue timer history].
  unfold refused in Hr.
  destruct (fst (processCommand line [])); try contradiction; reflexivity.
Qed.

Lemma run_refused (file : option string) (lines : list string)
      (more : list Event) :
  Forall refused lines ->
  run (initial file) (map EvCmd lines ++ more)
  = match run (initial file) more with
    | Some (st, os) => Some (st, (answers lines ++ os)%list)
    | None => None
    end.
Proof.
  induction 1 as [|line lines Hr _ IH]; cbn [map app answers].
  - now destruct (run (initial file) more) as [[st os]|].
  - cbn [run]. rewrite (step_refused file line Hr), IH.
    now destruct (run (initial file) more) as [[st os]|].
Qed.

Lemma handleInput_Scan (stdin : string) (broken : bool) :
  handleInput stdin broken
  = ((map EvCmd (fst (Scan stdin broken)) ++ [EvClosed])%list,
     snd (Scan stdin broken)).
Proof. unfold handleInput. now destruct (Scan stdin broken). Qed.

(** X18: [handleInput] sends the lines that the scanner reads from
    standard input and then closes the channel; without a failure of
    the reader it reports an input error exactly when a line of the
    input is of 64 KiB or more, at which the scanner stops.  A session
    in which every line sent is refused (unknown commands, [add] lines
    without a name, without flags, with flags in error or with no
    positive duration) answers every line in order and ends when the
    channel is closed, with no task queued, no timer launched and the
    history untouched.  When refused lines are followed by an [exit]
    line, the process ends at that line in the same way, and what
    [handleInput] sends afterwards is never received. *)
Theorem refused_session (stdin : string) (broken : bool)
        (file : option string) :
  let lines := fst (Scan stdin broken) in
  (Forall refused lines ->
   run (initial file) (fst (handleInput stdin broken))
   = Some (ended file, (answers lines ++ [InputClosed])%list))
  /\ (forall before line after,
         lines = (before ++ line :: after)%list ->
         Forall refused before -> ToLower line = "exit" ->
         run (initial file)
             (firstn (S (List.length before)) (fst (handleInput stdin broken)))
         = Some (ended file, (answers before ++ [Said Exiting])%list)
         /\ run (initial file) (fst (handleInput stdin broken)) = None)
  /\ (snd (handleInput stdin false) = None
      <-> Forall fits (Split stdin "010")).
Proof.
  intros lines. rewrite !handleInput_Scan. cbn [fst snd]. fold lines.
  split; [|split].
  - intros Hr. now rewrite run_refused.
  - intros before line after Hs Hr Hexit.
    assert (Hstep : step (initial file) (EvCmd line)
                    = Some (ended file, [Said Exiting])).
    { unfold step, initial. cbn [pc taskQueue is_nil].
      rewrite command_spec. cbn [taskQueue timer history].
      now rewrite processCommand_exit. }
    rewrite Hs, map_app. cbn [map].
    split.
    + replace (S (List.length before))
        with (List.length (map EvCmd before ++ [EvCmd line])%list)
        by (rewrite length_app, length_map; cbn; lia).
      replace ((map EvCmd before ++ EvCmd line :: map EvCmd after)
               ++ [EvClosed])%list
        with ((map EvCmd before ++ [EvCmd line])
              ++ (map EvCmd after ++ [EvClosed]))%list
        by (now rewrite <- !app_assoc).
      rewrite firstn_length_app.
      rewrite run_refused by exact Hr.
      cbn [run]. now rewrite Hstep.
    + rewrite <- app_assoc, run_refused by exact Hr.
      cbn [app run]. rewrite Hstep.
      destruct after as [|l after]; cbn [map app run];
        now rewrite (step_exited (ended file)).
  - unfold Split.
    rewrite <- (ScanLines_from_ok stdin "" MaxScanTokenSize_pos).
    unfold Scan. destruct (ScanLines_from "" stdin) as [l [|]]; cbn [snd];
      split; try reflexivity; discriminate.
Qed.

Lemma refused_session_witness :
  run (initial None)
      (fst (handleInput ("hello" ++ nl ++ "add X" ++ nl ++ "add -m 5" ++ nl
                                 ++ "add Y -s 0" ++ nl ++ "add Z -x 1") false))
  = Some (ended None,
          [Said UnknownCommand; Said InvalidCommandFormat;
           Said InvalidCommandFormat; Said DurationMustBePositive;
           Said (ErrorParsingDuration (FlagError (flag.NotDefined "x")));
           InputClosed])
  /\ run (initial None)
         (firstn 2 (fst (handleInput ("hello" ++ nl ++ "EX" ++ dotted_I ++ "T"
                                              ++ nl ++ "add A -s 1") false)))
     = Some (ended None, [Said UnknownCommand; Said Exiting]).
Proof.
  split.
  - assert (H : fst (Scan ("hello" ++ nl ++ "add X" ++ nl ++ "add -m 5" ++ nl
                                   ++ "add Y -s 0" ++ nl ++ "add Z -x 1") false)
                = ["hello"; "add X"; "add -m 5"; "add Y -s 0"; "add Z -x 1"])
      by (vm_compute; reflexivity).
    pose proof (proj1 (refused_session
                         ("hello" ++ nl ++ "add X" ++ nl ++ "add -m 5" ++ nl
                                  ++ "add Y -s 0" ++ nl ++ "add Z -x 1")
                         false None)) as Hs.
    rewrite H in Hs. apply Hs.
    repeat (constructor; [vm_compute; exact I|]). constructor.
  - assert (H : fst (Scan ("hello" ++ nl ++ "EX" ++ dotted_I ++ "T"
                                   ++ nl ++ "add A -s 1") false)
                = ["hello"; "EX" ++ dotted_I ++ "T"; "add A -s 1"])
      by (vm_compute; reflexivity).
    assert (Hx : ToLower ("EX" ++ dotted_I ++ "T") = "exit")
      by (vm_compute; reflexivity).
    assert (Hr : Forall refused ["hello"])
      by (constructor; [vm_compute; exact I | constructor]).
    exact (proj1 (proj1 (proj2 (refused_session
                                  ("hello" ++ nl ++ "EX" ++ dotted_I ++ "T"
                                           ++ nl ++ "add A -s 1")
                                  false None))
                        ["hello"] ("EX" ++ dotted_I ++ "T") ["add A -s 1"]
                        H Hr Hx)).
Defined.

(** ** Dispatch *)

(** X19: the slice [strings.Fields(cmd)[1:]] is always within bounds:
    a line with the prefix ["add "] has the field ["add"] as its first
    field, whatever its bytes are (white space of Unicode, bytes that
    are not UTF-8), and it is never taken for [exit]; so that no line
    makes [processCommand] panic. *)
Theorem add_line_has_a_first_field (cmd : string) (q : list Task) :
  fst (processCommand cmd q) <> Panic
  /\ (HasPrefix cmd "add " = true ->
      (exists args, Fields cmd = "add" :: args)
      /\ ToLower cmd <> "exit"
      /\ fst (processCommand cmd q) <> Exiting
      /\ fst (processCommand cmd q) <> UnknownCommand).
Proof.
  split; [apply processCommand_no_panic|].
  intros Hp. split; [now apply Fields_add|].
  pose proof (add_not_exit _ Hp) as Hne.
  split; [intros H; now rewrite H in Hne|].
  destruct (Fields_add _ Hp) as [args Hf].
  rewrite (processCommand_add _ _ _ Hp Hf). cbv zeta.
  destruct (_ =? _)%nat; [split; discriminate|].
  unfold enqueue. destruct (parseDuration _) as [d|e]; [|split; discriminate].
  destruct (d <=? 0); split; discriminate.
Qed.

Lemma add_line_has_a_first_field_witness :
  (exists args, Fields "add  " = "add" :: args)
  /\ ToLower "add  " <> "exit"
  /\ fst (processCommand "add  " []) <> Exiting
  /\ fst (processCommand "add  " []) <> UnknownCommand.
Proof.
  exact (proj2 (add_line_has_a_first_field "add  " []) eq_refl).
Defined.
